(** * Mail portal: SMTP credential vault, account registry and dispatch

    A shallow embedding of [api/lib/smtp.ts] and of the SMTP configuration
    routes ([/api/smtp/configs...]), with the properties of the design
    specification stated and settled against them.

    Conventions.
    - A JavaScript string is a sequence of UTF-16 code units.  It is
      represented by a Rocq [string] that holds its bytes in generalised
      UTF-8: a code point takes one to three bytes below U+10000, an
      unpaired surrogate included, and a surrogate pair takes the four
      bytes of its code point.  Equality, splitting at an ASCII
      character and joining with ASCII text are the same on both sides;
      the [length] of a string, the ['utf8'] encoder and the ['utf8']
      decoder are written out on that representation in [Utf8].
    - A thrown JavaScript value is a [JsError]; code that may throw has
      type [Outcome A].
    - The functions of Node's [crypto] module are not part of the
      repository.  The key derivations and the AES block permutation are
      the operations of the class [NodeCrypto]; CBC chaining, PKCS#7
      padding and the hex codec are written out. *)

From Stdlib Require Import String Ascii ZArith NArith Lia Bool Arith List.
From Stdlib Require Import Sorting.Sorted Sorting.Permutation.
From Stdlib.Strings Require Import Byte.
From Stdlib Require Import DecimalString.
Import ListNotations.

Local Open Scope string_scope.
Local Open Scope list_scope.
Local Open Scope nat_scope.

(* ================================================================= *)
(** ** JavaScript values and exceptions *)

Module Js.

(** A thrown value: an [Error] object with its message, or anything else. *)
Inductive JsError : Type :=
| Error (message : string)
| NonError.

Inductive Outcome (A : Type) : Type :=
| Return (a : A)
| Throw (e : JsError).
Arguments Return {A} a.
Arguments Throw {A} e.

Definition bind {A B} (m : Outcome A) (k : A -> Outcome B) : Outcome B :=
  match m with
  | Return a => k a
  | Throw e => Throw e
  end.

(** [try { body } catch (error) { handler }] *)
Definition try_catch {A} (body : Outcome A) (handler : JsError -> Outcome A) : Outcome A :=
  match body with
  | Return a => Return a
  | Throw e => handler e
  end.

(** [error instanceof Error ? error.message : fallback] *)
Definition message_or (e : JsError) (fallback : string) : string :=
  match e with
  | Error m => m
  | NonError => fallback
  end.

(** [s || d] on an optional string: [undefined] and [''] are falsy. *)
Definition or_default (s : option string) (d : string) : string :=
  match s with
  | Some EmptyString | None => d
  | Some v => v
  end.

(** Truthiness of an optional string. *)
Definition truthy_str (s : option string) : bool :=
  match s with
  | Some EmptyString | None => false
  | Some _ => true
  end.

(** Truthiness of an optional boolean ([undefined] is falsy). *)
Definition truthy_bool (b : option bool) : bool :=
  match b with
  | Some true => true
  | _ => false
  end.

(** Truthiness of an optional integer number ([undefined] and [0] are falsy). *)
Definition truthy_num (n : option Z) : bool :=
  match n with
  | Some z => negb (z =? 0)%Z
  | None => false
  end.

(** [s.split(sep)] for a one-character separator. *)
Fixpoint split (sep : ascii) (s : string) : list string :=
  match s with
  | EmptyString => [EmptyString]
  | String c s' =>
      if Ascii.eqb c sep then EmptyString :: split sep s'
      else match split sep s' with
           | p :: ps => String c p :: ps
           | [] => [String c EmptyString]
           end
  end.

(** [xs.join(sep)] *)
Fixpoint join (sep : string) (xs : list string) : string :=
  match xs with
  | [] => EmptyString
  | [x] => x
  | x :: rest => x ++ sep ++ join sep rest
  end.

End Js.
Import Js.

Declare Scope outcome_scope.
Delimit Scope outcome_scope with outcome.
Notation "x <- m ;; k" := (Js.bind m (fun x => k))
  (at level 61, m at next level, right associativity) : outcome_scope.

(* ================================================================= *)
(** ** Strings as code units, and the ['utf8'] codec *)

Module Utf8.

Definition code (c : ascii) : nat := nat_of_ascii c.

Definition between (lo hi n : nat) : bool := (lo <=? n) && (n <=? hi).

(** A continuation byte, [10xxxxxx]. *)
Definition continuation (c : ascii) : bool := between 128 191 (code c).

(** [s.length], the number of UTF-16 code units: a sequence of one to
    three bytes is one code unit and a sequence of four bytes is a
    surrogate pair. *)
Definition units (c : ascii) : nat :=
  if continuation c then 0 else if 240 <=? code c then 2 else 1.

Fixpoint js_length (s : string) : nat :=
  match s with
  | EmptyString => 0
  | String c r => units c + js_length r
  end.

(** U+FFFD, the replacement character. *)
Definition replaced (rest : string) : string :=
  String "239" (String "191" (String "189" rest)).

(** The bounds of the second byte of a sequence, after its first byte:
    they exclude the overlong forms, the surrogates (after [ED]) and the
    code points above U+10FFFF (after [F4]). *)
Definition lower (lead : nat) : nat :=
  if lead =? 224 then 160 else if lead =? 240 then 144 else 128.

Definition upper (lead : nat) : nat :=
  if lead =? 237 then 159 else if lead =? 244 then 143 else 191.

(** Well-formed text: the UTF-8 form of a sequence of Unicode scalar
    values.  A JavaScript string is of this kind when none of its
    surrogates is unpaired. *)
Fixpoint well_formed (s : string) : bool :=
  match s with
  | EmptyString => true
  | String c r =>
      if code c <? 128 then well_formed r
      else if between 194 223 (code c) then
        match r with
        | String c1 r1 => continuation c1 && well_formed r1
        | _ => false
        end
      else if between 224 239 (code c) then
        match r with
        | String c1 (String c2 r2) =>
            between (lower (code c)) (upper (code c)) (code c1)
            && continuation c2 && well_formed r2
        | _ => false
        end
      else if between 240 244 (code c) then
        match r with
        | String c1 (String c2 (String c3 r3)) =>
            between (lower (code c)) (upper (code c)) (code c1)
            && continuation c2 && continuation c3 && well_formed r3
        | _ => false
        end
      else false
  end.

(** What the ['utf8'] encoder writes for a string: the bytes of its code
    points, with U+FFFD in the place of every unpaired surrogate (the
    three bytes [ED], [A0]..[BF], [80]..[BF] of the representation). *)
Fixpoint replace_surrogates (s : string) : string :=
  match s with
  | EmptyString => EmptyString
  | String c r =>
      match r with
      | String c1 (String c2 r2) =>
          if (code c =? 237) && between 160 191 (code c1)
          then replaced (replace_surrogates r2)
          else String c (replace_surrogates r)
      | _ => String c (replace_surrogates r)
      end
  end.

(** [Buffer.from(s, 'utf8')], and the input of [cipher.update(s, 'utf8')]. *)
Definition encode (s : string) : list byte :=
  list_byte_of_string (replace_surrogates s).

(** The text the ['utf8'] decoder reads from bytes: a well-formed
    sequence is kept; otherwise the longest prefix of a well-formed
    sequence (at least one byte) becomes one U+FFFD and decoding goes on
    with the byte after it. *)
Fixpoint replace_ill_formed (s : string) : string :=
  match s with
  | EmptyString => EmptyString
  | String c r =>
      if code c <? 128 then String c (replace_ill_formed r)
      else if between 194 223 (code c) then
        match r with
        | String c1 r1 =>
            if continuation c1 then String c (String c1 (replace_ill_formed r1))
            else replaced (replace_ill_formed r)
        | EmptyString => replaced EmptyString
        end
      else if between 224 239 (code c) then
        match r with
        | String c1 r1 =>
            if between (lower (code c)) (upper (code c)) (code c1) then
              match r1 with
              | String c2 r2 =>
                  if continuation c2
                  then String c (String c1 (String c2 (replace_ill_formed r2)))
                  else replaced (replace_ill_formed r1)
              | EmptyString => replaced EmptyString
              end
            else replaced (replace_ill_formed r)
        | EmptyString => replaced EmptyString
        end
      else if between 240 244 (code c) then
        match r with
        | String c1 r1 =>
            if between (lower (code c)) (upper (code c)) (code c1) then
              match r1 with
              | String c2 r2 =>
                  if continuation c2 then
                    match r2 with
                    | String c3 r3 =>
                        if continuation c3
                        then String c (String c1 (String c2 (String c3
                               (replace_ill_formed r3))))
                        else replaced (replace_ill_formed r2)
                    | EmptyString => replaced EmptyString
                    end
                  else replaced (replace_ill_formed r1)
              | EmptyString => replaced EmptyString
              end
            else replaced (replace_ill_formed r)
        | EmptyString => replaced EmptyString
        end
      else replaced (replace_ill_formed r)
  end.

(** [buf.toString('utf8')]; also what [decipher.update(data, enc, 'utf8')]
    and [decipher.final('utf8')] give when put together, since the
    decipher keeps one decoder for both calls: a sequence cut between
    them is decoded as a whole. *)
Definition decode (l : list byte) : string :=
  replace_ill_formed (string_of_list_byte l).

End Utf8.

(* ================================================================= *)
(** ** The hex codec of [Buffer] *)

Module Hex.

(** The digit of a value below 16: ['0'..'9'] are the codes 48 to 57 and
    ['a'..'f'] the codes 97 to 102. *)
Definition hex_digit (n : N) : ascii :=
  ascii_of_N (if n <? 10 then 48 + n else 87 + n)%N.

(** The value of a hex digit, in either case; [None] for any other
    character (['A'..'F'] are the codes 65 to 70). *)
Definition hex_value (c : ascii) : option N :=
  let n := N_of_ascii c in
  if ((48 <=? n) && (n <=? 57))%N then Some (n - 48)%N
  else if ((97 <=? n) && (n <=? 102))%N then Some (n - 87)%N
  else if ((65 <=? n) && (n <=? 70))%N then Some (n - 55)%N
  else None.

Definition hex_of_byte (b : byte) : string :=
  String (hex_digit (Byte.to_N b / 16)) (String (hex_digit (Byte.to_N b mod 16)) EmptyString).

(** [buf.toString('hex')] *)
Fixpoint to_hex (l : list byte) : string :=
  match l with
  | [] => EmptyString
  | b :: r => hex_of_byte b ++ to_hex r
  end.

(** [Buffer.from(s, 'hex')]: decoding stops at the first pair that is not
    two hex digits, and a trailing single character is dropped. *)
Fixpoint from_hex (s : string) : list byte :=
  match s with
  | String c1 (String c2 r) =>
      match hex_value c1, hex_value c2 with
      | Some h, Some l =>
          match Byte.of_N (h * 16 + l) with
          | Some b => b :: from_hex r
          | None => []
          end
      | _, _ => []
      end
  | _ => []
  end.

End Hex.

(* ================================================================= *)
(** ** Node's [crypto] module *)

Module Crypto.

(** The primitives the repository takes from the platform.
    - [scryptSync password salt keylen]: the scrypt key derivation;
    - [aes256_encrypt_block key block], [aes256_decrypt_block key block]:
      the AES-256 permutation of one 16-byte block and its inverse;
    - [evp_bytes_to_key password]: the key and the IV which the deprecated
      [crypto.createDecipher(algorithm, password)] derives from a password. *)
Class NodeCrypto : Type := {
  scryptSync : string -> string -> nat -> list byte;
  aes256_encrypt_block : list byte -> list byte -> list byte;
  aes256_decrypt_block : list byte -> list byte -> list byte;
  evp_bytes_to_key : string -> list byte * list byte
}.

(** What the platform documents about them. *)
Class NodeCryptoLaws (L : NodeCrypto) : Prop := {
  scryptSync_length : forall p s n, length (scryptSync p s n) = n;
  encrypt_block_length : forall k b,
      length k = 32 -> length b = 16 -> length (aes256_encrypt_block k b) = 16;
  decrypt_encrypt_block : forall k b,
      length k = 32 -> length b = 16 ->
      aes256_decrypt_block k (aes256_encrypt_block k b) = b;
  evp_key_length : forall p, length (fst (evp_bytes_to_key p)) = 32;
  evp_iv_length : forall p, length (snd (evp_bytes_to_key p)) = 16
}.

Definition bits8 : Type := bool * (bool * (bool * (bool * (bool * (bool * (bool * bool)))))).

Definition xor_bits (x y : bits8) : bits8 :=
  let '(a0, (a1, (a2, (a3, (a4, (a5, (a6, a7))))))) := x in
  let '(b0, (b1, (b2, (b3, (b4, (b5, (b6, b7))))))) := y in
  (xorb a0 b0, (xorb a1 b1, (xorb a2 b2, (xorb a3 b3,
  (xorb a4 b4, (xorb a5 b5, (xorb a6 b6, xorb a7 b7))))))).

Definition byte_xor (x y : byte) : byte :=
  Byte.of_bits (xor_bits (Byte.to_bits x) (Byte.to_bits y)).

(** Bytewise xor of two blocks. *)
Fixpoint xor_bytes (a b : list byte) : list byte :=
  match a, b with
  | x :: a', y :: b' => byte_xor x y :: xor_bytes a' b'
  | _, _ => []
  end.

Definition block_size : nat := 16.

Section Cbc.
Context {L : NodeCrypto}.

(** CBC chaining over a byte string whose length is a multiple of the
    block size; [fuel] bounds the number of blocks. *)
Fixpoint cbc_encrypt (fuel : nat) (key prev data : list byte) : list byte :=
  match fuel with
  | O => []
  | S fuel' =>
      match data with
      | [] => []
      | _ :: _ =>
          let c := aes256_encrypt_block key (xor_bytes (firstn block_size data) prev) in
          c ++ cbc_encrypt fuel' key c (skipn block_size data)
      end
  end.

Fixpoint cbc_decrypt (fuel : nat) (key prev data : list byte) : list byte :=
  match fuel with
  | O => []
  | S fuel' =>
      match data with
      | [] => []
      | _ :: _ =>
          let c := firstn block_size data in
          xor_bytes (aes256_decrypt_block key c) prev
            ++ cbc_decrypt fuel' key c (skipn block_size data)
      end
  end.

(** PKCS#7: between 1 and 16 bytes are appended, each equal to their number. *)
Definition pad_length (n : nat) : nat := block_size - n mod block_size.

Definition byte_of_nat (n : nat) : byte :=
  match Byte.of_nat n with
  | Some b => b
  | None => x00
  end.

Definition pkcs7_pad (p : list byte) : list byte :=
  let n := pad_length (length p) in
  p ++ repeat (byte_of_nat n) n.

Definition pkcs7_unpad (d : list byte) : Outcome (list byte) :=
  let n := Byte.to_nat (last d x00) in
  if ((n =? 0) || (block_size <? n))%nat then Throw (Error "bad decrypt")
  else if forallb (Byte.eqb (last d x00)) (skipn (length d - n) d)
       then Return (firstn (length d - n) d)
       else Throw (Error "bad decrypt").

(** [cipher.update(data) + cipher.final()] of a cipher made by
    [createCipheriv('aes-256-cbc', key, iv)]. *)
Definition cipher_run (key iv plain : list byte) : list byte :=
  let padded := pkcs7_pad plain in
  cbc_encrypt (length padded) key iv padded.

(** [decipher.update(data) + decipher.final()]: [final] rejects input
    that is empty or not a whole number of blocks, then checks the padding. *)
Definition decipher_run (key iv data : list byte) : Outcome (list byte) :=
  if ((length data =? 0) || negb (length data mod block_size =? 0))%nat
  then Throw (Error "wrong final block length")
  else pkcs7_unpad (cbc_decrypt (length data) key iv data).

(** [createCipheriv] and [createDecipheriv] reject a key that is not 32
    bytes and an IV that is not 16 bytes. *)
Definition check_key_iv (key iv : list byte) : Outcome unit :=
  if negb (length key =? 32)%nat then Throw (Error "Invalid key length")
  else if negb (length iv =? block_size)%nat then Throw (Error "Invalid initialization vector")
  else Return tt.

(** The hex input of [decipher.update(data, 'hex', ...)]: current Node
    releases validate the encoding and refuse a string whose [length] is
    odd; otherwise the string is decoded as [Buffer] does. *)
Definition update_hex_input (s : string) : Outcome (list byte) :=
  if Nat.even (Utf8.js_length s) then Return (Hex.from_hex s)
  else Throw (Error ("The argument 'encoding' is invalid for data of length "
                     ++ NilZero.string_of_uint (Nat.to_uint (Utf8.js_length s))
                     ++ ". Received 'hex'")).

End Cbc.
End Crypto.
Import Crypto.

(* ================================================================= *)
(** ** [api/lib/smtp.ts]: the credential vault *)

(** The deployment configuration, [process.env]. *)
Record Env : Type := mkEnv {
  env_ENCRYPTION_KEY : option string;
  env_DEFAULT_SMTP_HOST : option string;
  env_DEFAULT_SMTP_PORT : option string;
  env_DEFAULT_SMTP_SECURE : option string;
  env_DEFAULT_SMTP_USER : option string;
  env_DEFAULT_SMTP_PASS : option string
}.

Section Vault.
Context {L : NodeCrypto}.
Variable env : Env.

Definition ENCRYPTION_KEY : string :=
  or_default (env_ENCRYPTION_KEY env) "default-key-change-in-production".

(** [encryptPassword(password)]; [iv] is the value of [crypto.randomBytes(16)]. *)
Definition encryptPassword (iv : list byte) (password : string) : Outcome string :=
  let key := scryptSync ENCRYPTION_KEY "salt" 32 in
  (_ <- check_key_iv key iv ;;
   let encrypted := Hex.to_hex (cipher_run key iv (Utf8.encode password)) in
   Return (Hex.to_hex iv ++ ":" ++ encrypted)%string)%outcome.

(** [decryptPassword(encryptedPassword)] *)
Definition decryptPassword (encryptedPassword : string) : Outcome string :=
  let key := scryptSync ENCRYPTION_KEY "salt" 32 in
  match split ":" encryptedPassword with
  | [part0; part1] =>
      let iv := Hex.from_hex part0 in
      let encrypted := part1 in
      (_ <- check_key_iv key iv ;;
       data <- update_hex_input encrypted ;;
       plain <- decipher_run key iv data ;;
       Return (Utf8.decode plain))%outcome
  | _ =>
      (* old format without IV (fallback) *)
      let '(lkey, liv) := evp_bytes_to_key ENCRYPTION_KEY in
      (data <- update_hex_input encryptedPassword ;;
       plain <- decipher_run lkey liv data ;;
       Return (Utf8.decode plain))%outcome
  end.

End Vault.

(* ================================================================= *)
(** ** The persistence layer *)

(** Primary keys are opaque; they are numbers here. *)
Definition Id : Type := nat.

(** A row of the [smtpConfig] table.  [createdAt] and [updatedAt] are
    instants of the database clock. *)
Module SmtpConfig.
Record t : Type := mk {
  id : Id;
  userId : Id;
  name : string;
  host : string;
  port : Z;
  secure : bool;
  username : string;
  passwordEncrypted : string;
  fromName : string;
  signature : string;
  isDefault : bool;
  isActive : bool;
  createdAt : nat;
  updatedAt : nat
}.
End SmtpConfig.

(** A row of the [user] table, as far as the core reads it. *)
Module User.
Record t : Type := mk {
  id : Id;
  email : string;
  name : string;
  role : string
}.
End User.

Module Prisma.
Import SmtpConfig.

(** The table, in storage order: rows are appended and never removed. *)
Definition Table : Type := list SmtpConfig.t.

(** [data] of an update: the columns it assigns. *)
Record Data : Type := mkData {
  d_name : option string;
  d_host : option string;
  d_port : option Z;
  d_secure : option bool;
  d_username : option string;
  d_passwordEncrypted : option string;
  d_fromName : option string;
  d_signature : option string;
  d_isDefault : option bool;
  d_isActive : option bool
}.

Definition no_data : Data :=
  mkData None None None None None None None None None None.

Definition data_isDefault (b : bool) : Data :=
  mkData None None None None None None None None (Some b) None.

Definition data_isActive (b : bool) : Data :=
  mkData None None None None None None None None None (Some b).

Definition assign {A} (new : option A) (old : A) : A :=
  match new with
  | Some v => v
  | None => old
  end.

(** A row after an update at instant [now]: the assigned columns change
    and [updatedAt] is refreshed. *)
Definition apply_data (d : Data) (now : nat) (r : t) : t :=
  mk (id r) (userId r)
     (assign (d_name d) (name r))
     (assign (d_host d) (host r))
     (assign (d_port d) (port r))
     (assign (d_secure d) (secure r))
     (assign (d_username d) (username r))
     (assign (d_passwordEncrypted d) (passwordEncrypted r))
     (assign (d_fromName d) (fromName r))
     (assign (d_signature d) (signature r))
     (assign (d_isDefault d) (isDefault r))
     (assign (d_isActive d) (isActive r))
     (createdAt r) now.

(** [findFirst({ where })]: the first matching row in storage order. *)
Definition findFirst (where_ : t -> bool) (tb : Table) : option t :=
  find where_ tb.

(** The first of the rows with the least [createdAt]. *)
Fixpoint oldest (best : t) (rows : list t) : t :=
  match rows with
  | [] => best
  | r :: rest => if createdAt r <? createdAt best then oldest r rest else oldest best rest
  end.

(** [findFirst({ where, orderBy: { createdAt: 'asc' } })] *)
Definition findFirst_createdAt_asc (where_ : t -> bool) (tb : Table) : option t :=
  match filter where_ tb with
  | [] => None
  | r :: rest => Some (oldest r rest)
  end.

(** [count({ where })] *)
Definition count (where_ : t -> bool) (tb : Table) : nat :=
  length (filter where_ tb).

(** [updateMany({ where, data })] *)
Definition updateMany (where_ : t -> bool) (d : Data) (now : nat) (tb : Table) : Table :=
  map (fun r => if where_ r then apply_data d now r else r) tb.

(** [update({ where: { id }, data })].  Every call in the routes follows a
    lookup of the same [id], so the row is there. *)
Definition update (i : Id) (d : Data) (now : nat) (tb : Table) : Table :=
  map (fun r => if id r =? i then apply_data d now r else r) tb.

(** The primary key the database gives to a new row. *)
Definition fresh_id (tb : Table) : Id := S (list_max (map id tb)).

(** [create({ data })]: the new row goes last. *)
Definition create (r : t) (tb : Table) : Table := tb ++ [r].

(** Order of [orderBy: [{ isDefault: 'desc' }, { createdAt: 'desc' }]]:
    [r1] may come before [r2]. *)
Definition default_first_newest_first (r1 r2 : t) : bool :=
  match isDefault r1, isDefault r2 with
  | true, false => true
  | false, true => false
  | _, _ => createdAt r2 <=? createdAt r1
  end.

(** Sorting by that order; rows that compare equal keep their storage
    order. *)
Fixpoint insert_row (r : t) (rows : list t) : list t :=
  match rows with
  | [] => [r]
  | x :: rest =>
      if default_first_newest_first r x then r :: rows else x :: insert_row r rest
  end.

Fixpoint sort_rows (rows : list t) : list t :=
  match rows with
  | [] => []
  | r :: rest => insert_row r (sort_rows rest)
  end.

(** [findMany({ where, orderBy: [isDefault desc, createdAt desc] })] *)
Definition findMany_default_newest (where_ : t -> bool) (tb : Table) : list t :=
  sort_rows (filter where_ tb).

(** *** Statements and what other requests can see

    A handler is a sequence of awaited statements.  Each write statement
    commits on its own; a transaction commits a batch of writes at once.
    A run gives the handler's result, the final table and the tables
    committed on the way, in order: these are the states another request
    can read. *)
Definition DB (A : Type) : Type := Table -> A * Table * list Table.

Definition ret {A} (a : A) : DB A := fun tb => (a, tb, []).

Definition bind {A B} (m : DB A) (k : A -> DB B) : DB B :=
  fun tb =>
    let '(a, tb1, c1) := m tb in
    let '(b, tb2, c2) := k a tb1 in
    (b, tb2, c1 ++ c2).

Definition query {A} (q : Table -> A) : DB A := fun tb => (q tb, tb, []).

(** A write statement; [None] when the ORM rejects it. *)
Definition Stmt : Type := Table -> option Table.

Definition w_updateMany (where_ : t -> bool) (d : Data) (now : nat) : Stmt :=
  fun tb => Some (updateMany where_ d now tb).

(** [update({ where: { id } })] is rejected when no row has the [id]. *)
Definition w_update (i : Id) (d : Data) (now : nat) : Stmt :=
  fun tb => if existsb (fun r => id r =? i) tb then Some (update i d now tb) else None.

Definition w_create (r : t) : Stmt := fun tb => Some (create r tb).

(** An awaited write: it commits, or it is rejected and nothing changes. *)
Definition exec (w : Stmt) : DB bool :=
  fun tb =>
    match w tb with
    | Some tb' => (true, tb', [tb'])
    | None => (false, tb, [])
    end.

Fixpoint run_writes (ws : list Stmt) (tb : Table) : option Table :=
  match ws with
  | [] => Some tb
  | w :: rest =>
      match w tb with
      | Some tb' => run_writes rest tb'
      | None => None
      end
  end.

(** [prisma.$transaction([...])]: all the writes commit together, or none. *)
Definition exec_transaction (ws : list Stmt) : DB bool :=
  fun tb =>
    match run_writes ws tb with
    | Some tb' => (true, tb', [tb'])
    | None => (false, tb, [])
    end.

Definition result {A} (x : A * Table * list Table) : A := fst (fst x).
Definition final {A} (x : A * Table * list Table) : Table := snd (fst x).
Definition commits {A} (x : A * Table * list Table) : list Table := snd x.

End Prisma.

Declare Scope db_scope.
Delimit Scope db_scope with db.
Notation "x <- m ;; k" := (Prisma.bind m (fun x => k))
  (at level 61, m at next level, right associativity) : db_scope.

(* ================================================================= *)
(** ** [api/lib/smtp.ts]: resolution and dispatch *)

Module Smtp.
Import Prisma.

(** White space and line terminators of one byte: TAB, LF, VT, FF, CR
    and SP. *)
Definition is_space (c : ascii) : bool :=
  let n := nat_of_ascii c in
  (n =? 32) || ((9 <=? n) && (n <=? 13)).

(** U+00A0, in two bytes. *)
Definition is_space2 (c c1 : ascii) : bool :=
  (nat_of_ascii c =? 194) && (nat_of_ascii c1 =? 160).

(** White space and line terminators of three bytes: U+1680,
    U+2000..U+200A, U+2028, U+2029, U+202F, U+205F, U+3000 and U+FEFF. *)
Definition is_space3 (c c1 c2 : ascii) : bool :=
  let n := nat_of_ascii c in
  let n1 := nat_of_ascii c1 in
  let n2 := nat_of_ascii c2 in
  ((n =? 225) && (n1 =? 154) && (n2 =? 128))
  || ((n =? 226) && (n1 =? 128)
      && (((128 <=? n2) && (n2 <=? 138)) || (n2 =? 168) || (n2 =? 169) || (n2 =? 175)))
  || ((n =? 226) && (n1 =? 129) && (n2 =? 159))
  || ((n =? 227) && (n1 =? 128) && (n2 =? 128))
  || ((n =? 239) && (n1 =? 187) && (n2 =? 191)).

Fixpoint skip_spaces (s : string) : string :=
  match s with
  | String c r =>
      if is_space c then skip_spaces r
      else
        match r with
        | String c1 r1 =>
            if is_space2 c c1 then skip_spaces r1
            else
              match r1 with
              | String c2 r2 => if is_space3 c c1 c2 then skip_spaces r2 else s
              | EmptyString => s
              end
        | EmptyString => s
        end
  | EmptyString => s
  end.

(** The value of a digit in a radix of 10 or 16. *)
Definition digit_value (radix : Z) (c : ascii) : option Z :=
  match Hex.hex_value c with
  | Some d => if (Z.of_N d <? radix)%Z then Some (Z.of_N d) else None
  | None => None
  end.

(** The value of the longest run of digits at the head of [s]; [None]
    when [s] does not start with a digit. *)
Fixpoint parse_digits (radix : Z) (s : string) (acc : option Z) : option Z :=
  match s with
  | String c r =>
      match digit_value radix c with
      | Some d => parse_digits radix r (Some (radix * assign acc 0 + d)%Z)
      | None => acc
      end
  | EmptyString => acc
  end.

(** The Number value of a natural number: the nearest number with 53
    significant bits, the one with an even last bit in a tie; [None]
    when that is beyond the largest finite number. *)
Definition to_number (n : Z) : option Z :=
  let bits := (Z.log2 n + 1)%Z in
  if (bits <=? 53)%Z then Some n
  else
    let shift := (bits - 53)%Z in
    let q := Z.shiftr n shift in
    let r := Z.land n (Z.ones shift) in
    let half := Z.shiftl 1 (shift - 1) in
    let q' := if (half <? r)%Z || ((r =? half)%Z && Z.odd q) then (q + 1)%Z else q in
    let v := Z.shiftl q' shift in
    if (Z.log2 v <? 1024)%Z then Some v else None.

(** The digits of [parseInt]: a prefix [0x] or [0X] selects radix 16 and
    is removed; otherwise the radix is 10. *)
Definition parse_magnitude (s : string) : option Z :=
  match s with
  | String "0" (String "x" r) | String "0" (String "X" r) => parse_digits 16 r None
  | _ => parse_digits 10 s None
  end.

(** [parseInt(s)] without a radix: leading white space, an optional
    sign, an optional hexadecimal prefix, then the longest run of
    digits.  [None] is a result that is no finite number: [NaN] when no
    digit is there, an infinity when the digits are beyond the finite
    numbers.  The sign of a zero is not kept. *)
Definition parseInt (s : string) : option Z :=
  match skip_spaces s with
  | String "-" r =>
      match parse_magnitude r with
      | Some n => option_map Z.opp (to_number n)
      | None => None
      end
  | String "+" r =>
      match parse_magnitude r with
      | Some n => to_number n
      | None => None
      end
  | s' =>
      match parse_magnitude s' with
      | Some n => to_number n
      | None => None
      end
  end.

(** [auth: { user, pass }] *)
Record Auth : Type := mkAuth {
  user : string;
  pass : string
}.

(** The options given to [nodemailer.createTransport]; a transporter is
    its options.  [port] is [None] for [NaN], [auth] is [None] for
    [undefined]. *)
Record Transport : Type := mkTransport {
  t_host : string;
  t_port : option Z;
  t_secure : bool;
  t_auth : option Auth
}.

(** What [getSmtpConfig] returns: a configuration object, or a table row
    as it is. *)
Inductive SmtpSettings : Type :=
| Settings (c : Transport)
| Row (r : SmtpConfig.t).

Record Attachment : Type := mkAttachment {
  a_filename : string;
  a_path : string;
  a_contentType : option string
}.

(** [emailData] of [sendEmail] *)
Record EmailData : Type := mkEmailData {
  e_to : list string;
  e_cc : option (list string);
  e_bcc : option (list string);
  e_subject : string;
  e_html : option string;
  e_text : option string;
  e_attachments : option (list Attachment)
}.

Record MailOptions : Type := mkMailOptions {
  m_from : string;
  m_to : string;
  m_cc : option string;
  m_bcc : option string;
  m_subject : string;
  m_html : option string;
  m_text : option string;
  m_attachments : option (list Attachment)
}.

(** The value [transporter.sendMail] resolves to. *)
Record SentMessageInfo : Type := mkSent {
  s_messageId : string;
  s_response : string
}.

(** What [sendEmail] and [testSmtpConnection] return. *)
Record DispatchResult : Type := mkResult {
  success : bool;
  messageId : option string;
  response : option string;
  message : option string;
  error : option string
}.

(** The argument of [testSmtpConnection]. *)
Record TestConfig : Type := mkTestConfig {
  tc_host : string;
  tc_port : Z;
  tc_secure : bool;
  tc_username : string;
  tc_password : string
}.

(** The double quote character, as a string. *)
Definition dquote : string := String "034"%char EmptyString.

Section Dispatch.
Context {L : NodeCrypto}.
Variable env : Env.

(** [config.password] on a row returned by the ORM.  The schema is not
    among the sources, so which column, if any, a row carries under that
    name is left open; [None] is [undefined]. *)
Variable row_password : SmtpConfig.t -> option string.

(** The relay, through nodemailer: [transporter.sendMail(mailOptions)] and
    [transporter.verify()] resolve or reject. *)
Variable sendMail : Transport -> MailOptions -> Outcome SentMessageInfo.
Variable verify : Transport -> Outcome unit.

(** [decryptPassword] applied to a value that may be [undefined]: the call
    of [split] on [undefined] throws a [TypeError]. *)
Definition decryptPassword_value (v : option string) : Outcome string :=
  match v with
  | Some s => decryptPassword env s
  | None => Throw (Error "Cannot read properties of undefined (reading 'split')")
  end.

(** [getSmtpConfig(userId)] *)
Definition getSmtpConfig (tb : Table) (userId : Id) : Outcome SmtpSettings :=
  let config :=
    findFirst (fun r => (SmtpConfig.userId r =? userId)
                        && SmtpConfig.isActive r && SmtpConfig.isDefault r) tb in
  match config with
  | None =>
      let firstConfig :=
        findFirst (fun r => (SmtpConfig.userId r =? userId) && SmtpConfig.isActive r) tb in
      match firstConfig with
      | Some r => Return (Row r)
      | None =>
          Return (Settings
            (mkTransport
               (or_default (env_DEFAULT_SMTP_HOST env) "smtp.gmail.com")
               (parseInt (or_default (env_DEFAULT_SMTP_PORT env) "587"))
               (match env_DEFAULT_SMTP_SECURE env with
                | Some s => String.eqb s "true"
                | None => false
                end)
               (Some (mkAuth (or_default (env_DEFAULT_SMTP_USER env) EmptyString)
                             (or_default (env_DEFAULT_SMTP_PASS env) EmptyString)))))
      end
  | Some config =>
      (pass <- decryptPassword_value (row_password config) ;;
       Return (Settings
         (mkTransport (SmtpConfig.host config) (Some (SmtpConfig.port config))
            (SmtpConfig.secure config)
            (Some (mkAuth (SmtpConfig.username config) pass)))))%outcome
  end.

(** The properties [createTransporter] reads from the settings; a table
    row has no [auth]. *)
Definition settings_transport (c : SmtpSettings) : Transport :=
  match c with
  | Settings t => t
  | Row r => mkTransport (SmtpConfig.host r) (Some (SmtpConfig.port r))
               (SmtpConfig.secure r) None
  end.

(** [createTransporter(userId)] *)
Definition createTransporter (tb : Table) (userId : Id) : Outcome Transport :=
  (config <- getSmtpConfig tb userId ;;
   Return (settings_transport config))%outcome.

(** The [mailOptions] of [sendEmail]. *)
Definition mailOptions (user : User.t) (emailData : EmailData) : MailOptions :=
  mkMailOptions
    (dquote ++ User.name user ++ dquote ++ " <" ++ User.email user ++ ">")%string
    (join ", " (e_to emailData))
    (option_map (join ", ") (e_cc emailData))
    (option_map (join ", ") (e_bcc emailData))
    (e_subject emailData)
    (e_html emailData)
    (e_text emailData)
    (e_attachments emailData).

Definition failure (msg : string) : DispatchResult :=
  mkResult false None None None (Some msg).

(** [sendEmail(userId, emailData)]; [users] is the [user] table. *)
Definition sendEmail (tb : Table) (users : list User.t) (userId : Id)
    (emailData : EmailData) : Outcome DispatchResult :=
  try_catch
    (transporter <- createTransporter tb userId ;;
     match find (fun u => User.id u =? userId) users with
     | None => Throw (Error "User not found")
     | Some user =>
         result <- sendMail transporter (mailOptions user emailData) ;;
         Return (mkResult true (Some (s_messageId result)) (Some (s_response result))
                   None None)
     end)%outcome
    (fun error => Return (failure (message_or error "Unknown error"))).

(** [testSmtpConnection(smtpConfig)] *)
Definition testSmtpConnection (smtpConfig : TestConfig) : Outcome DispatchResult :=
  try_catch
    (let transporter :=
       mkTransport (tc_host smtpConfig) (Some (tc_port smtpConfig)) (tc_secure smtpConfig)
         (Some (mkAuth (tc_username smtpConfig) (tc_password smtpConfig))) in
     _ <- verify transporter ;;
     Return (mkResult true None None (Some "SMTP connection successful") None))%outcome
    (fun error => Return (failure (message_or error "Connection failed"))).

End Dispatch.


End Smtp.

(* ================================================================= *)
(** ** The SMTP configuration routes *)

(** [req.body] of the create and update requests.  [None] is an absent
    property.  Numbers are integers; [parseInt] of an integer number is
    that number, and it is never [NaN]. *)
Module Body.
Record t : Type := mk {
  name : option string;
  host : option string;
  port : option Z;
  secure : option bool;
  username : option string;
  password : option string;
  fromName : option string;
  signature : option string;
  isDefault : option bool
}.
End Body.

Module Routes.
Import Prisma.
Import SmtpConfig.

(** The columns in the [select] of the read paths and of the answers to
    writes: every column but the owner and the stored secret. *)
Record ConfigView : Type := mkView {
  v_id : Id;
  v_name : string;
  v_host : string;
  v_port : Z;
  v_secure : bool;
  v_username : string;
  v_fromName : string;
  v_signature : string;
  v_isDefault : bool;
  v_isActive : bool;
  v_createdAt : nat;
  v_updatedAt : nat
}.

Definition select_view (r : SmtpConfig.t) : ConfigView :=
  mkView (id r) (name r) (host r) (port r) (secure r) (username r) (fromName r)
    (signature r) (isDefault r) (isActive r) (createdAt r) (updatedAt r).

(** An element of the list answer: the selected columns and
    [_count.emails]. *)
Record ConfigListItem : Type := mkItem {
  li_config : ConfigView;
  li_count_emails : nat
}.

Inductive Response : Type :=
| Configs (configs : list ConfigListItem)
| Config (status : nat) (config : ConfigView)
| Message (message : string)
| Failure (status : nat) (error : string).

Definition owned_by (uid : Id) (r : SmtpConfig.t) : bool := userId r =? uid.

Definition text (s : option string) : string := assign s EmptyString.

Section Handlers.
Context {L : NodeCrypto}.
Variable env : Env.

(** The number of [email] rows that refer to a configuration. *)
Variable count_emails : Id -> nat.

(** GET /api/smtp/configs *)
Definition get_configs (user : User.t) : DB Response :=
  (configs <- query (findMany_default_newest
                       (fun r => owned_by (User.id user) r && isActive r)) ;;
   ret (Configs (map (fun r => mkItem (select_view r) (count_emails (id r))) configs)))%db.

(** GET /api/smtp/configs/:id *)
Definition get_config (user : User.t) (i : Id) : DB Response :=
  (config <- query (findFirst (fun r => (id r =? i) && owned_by (User.id user) r)) ;;
   match config with
   | None => ret (Failure 404 "SMTP configuration not found")
   | Some config => ret (Config 200 (select_view config))
   end)%db.

Definition valid_port (portNum : Z) : bool := ((1 <=? portNum) && (portNum <=? 65535))%Z.

(** POST /api/smtp/configs; [iv] is drawn by [encryptPassword], [now] is
    the instant of the request. *)
Definition post_configs (user : User.t) (body : Body.t) (iv : list byte) (now : nat)
  : DB Response :=
  if negb (truthy_str (Body.name body)) || negb (truthy_str (Body.host body))
     || negb (truthy_num (Body.port body)) || negb (truthy_str (Body.username body))
     || negb (truthy_str (Body.password body))
  then ret (Failure 400 "Name, host, port, username, and password are required")
  else
    let portNum := assign (Body.port body) 0%Z in
    if negb (valid_port portNum) then ret (Failure 400 "Invalid port number")
    else
      match encryptPassword env iv (text (Body.password body)) with
      | Throw _ => ret (Failure 500 "Failed to create SMTP configuration")
      | Return encryptedPassword =>
          (_ <- (if truthy_bool (Body.isDefault body)
                 then exec (w_updateMany
                              (fun r => owned_by (User.id user) r && isDefault r)
                              (data_isDefault false) now)
                 else ret true) ;;
           config <- query (fun tb =>
             SmtpConfig.mk (fresh_id tb) (User.id user)
               (text (Body.name body)) (text (Body.host body)) portNum
               (truthy_bool (Body.secure body)) (text (Body.username body))
               encryptedPassword
               (or_default (Body.fromName body) (User.name user))
               (or_default (Body.signature body) EmptyString)
               (truthy_bool (Body.isDefault body)) true now now) ;;
           _ <- exec (w_create config) ;;
           ret (Config 201 (select_view config)))%db
      end.

Definition keep_truthy (s : option string) : option string :=
  if truthy_str s then s else None.

(** PUT /api/smtp/configs/:id *)
Definition put_config (user : User.t) (i : Id) (body : Body.t) (iv : list byte) (now : nat)
  : DB Response :=
  (existingConfig <- query (findFirst (fun r => (id r =? i) && owned_by (User.id user) r)) ;;
   match existingConfig with
   | None => ret (Failure 404 "SMTP configuration not found")
   | Some _ =>
       let portNum := if truthy_num (Body.port body) then Body.port body else None in
       if match portNum with Some p => negb (valid_port p) | None => false end
       then ret (Failure 400 "Invalid port number")
       else
         _ <- (if truthy_bool (Body.isDefault body)
               then exec (w_updateMany
                            (fun r => owned_by (User.id user) r && isDefault r
                                      && negb (id r =? i))
                            (data_isDefault false) now)
               else ret true) ;;
         match (if truthy_str (Body.password body)
                then (e <- encryptPassword env iv (text (Body.password body)) ;;
                      Return (Some e))%outcome
                else Return None) with
         | Throw _ => ret (Failure 500 "Failed to update SMTP configuration")
         | Return newPassword =>
             let updateData :=
               mkData (keep_truthy (Body.name body)) (keep_truthy (Body.host body))
                 portNum (Body.secure body) (keep_truthy (Body.username body))
                 newPassword (Body.fromName body) (Body.signature body)
                 (Body.isDefault body) None in
             ok <- exec (w_update i updateData now) ;;
             config <- query (findFirst (fun r => id r =? i)) ;;
             match ok, config with
             | true, Some config => ret (Config 200 (select_view config))
             | _, _ => ret (Failure 500 "Failed to update SMTP configuration")
             end
         end
   end)%db.

(** POST /api/smtp/configs/:id/set-default *)
Definition post_set_default (user : User.t) (i : Id) (now : nat) : DB Response :=
  (existingConfig <- query (findFirst
      (fun r => (id r =? i) && owned_by (User.id user) r && isActive r)) ;;
   match existingConfig with
   | None => ret (Failure 404 "SMTP configuration not found")
   | Some _ =>
       ok <- exec_transaction
               [ w_updateMany (fun r => owned_by (User.id user) r && isDefault r)
                   (data_isDefault false) now;
                 w_update i (data_isDefault true) now ] ;;
       if ok then ret (Message "Default SMTP configuration updated")
       else ret (Failure 500 "Failed to set default SMTP configuration")
   end)%db.

(** DELETE /api/smtp/configs/:id *)
Definition delete_config (user : User.t) (i : Id) (now : nat) : DB Response :=
  (existingConfig <- query (findFirst (fun r => (id r =? i) && owned_by (User.id user) r)) ;;
   match existingConfig with
   | None => ret (Failure 404 "SMTP configuration not found")
   | Some existingConfig =>
       configCount <- query (count (fun r => owned_by (User.id user) r && isActive r)) ;;
       if configCount =? 1
       then ret (Failure 400 "Cannot delete the only SMTP configuration")
       else
         promoted <-
           (if isDefault existingConfig
            then
              nextConfig <- query (findFirst_createdAt_asc
                (fun r => owned_by (User.id user) r && isActive r && negb (id r =? i))) ;;
              match nextConfig with
              | Some nextConfig => exec (w_update (id nextConfig) (data_isDefault true) now)
              | None => ret true
              end
            else ret true) ;;
         if negb promoted then ret (Failure 500 "Failed to delete SMTP configuration")
         else
           ok <- exec (w_update i (data_isActive false) now) ;;
           if ok then ret (Message "SMTP configuration deleted successfully")
           else ret (Failure 500 "Failed to delete SMTP configuration")
   end)%db.

End Handlers.
End Routes.

(* ================================================================= *)
(** ** The send route, as far as it reaches the dispatch core *)

Module Emails.
Import Prisma Smtp.







Section Send.
Context {L : NodeCrypto}.
Variable env : Env.
Variable row_password : SmtpConfig.t -> option string.
Variable sendMail : Transport -> MailOptions -> Outcome SentMessageInfo.



End Send.
End Emails.

(* ================================================================= *)
(** ** Histories of registry operations *)

Module Registry.
Import Prisma Routes.

Inductive Op : Type :=
| Create (user : User.t) (body : Body.t) (iv : list byte)
| Update (user : User.t) (i : Id) (body : Body.t) (iv : list byte)
| SetDefault (user : User.t) (i : Id)
| Deactivate (user : User.t) (i : Id).

Section History.
Context {L : NodeCrypto}.
Variable env : Env.

Definition handle (op : Op) (now : nat) : DB Response :=
  match op with
  | Create user body iv => post_configs env user body iv now
  | Update user i body iv => put_config env user i body iv now
  | SetDefault user i => post_set_default user i now
  | Deactivate user i => delete_config user i now
  end.

(** The database after a history of requests.  Each request comes with
    the time elapsed since the one before: the clock never goes back. *)
Fixpoint run (ops : list (nat * Op)) (clock : nat) (tb : Table) : Table :=
  match ops with
  | [] => tb
  | (elapsed, op) :: rest =>
      let now := clock + elapsed in
      run rest now (final (handle op now tb))
  end.

End History.

(** The owner's active accounts, and those of them flagged as default. *)
Definition active_of (uid : Id) (tb : Table) : list SmtpConfig.t :=
  filter (fun r => owned_by uid r && SmtpConfig.isActive r) tb.

Definition active_defaults_of (uid : Id) (tb : Table) : list SmtpConfig.t :=
  filter (fun r => owned_by uid r && SmtpConfig.isActive r && SmtpConfig.isDefault r) tb.

End Registry.

(* ================================================================= *)
(** ** A small instance of the platform primitives

    Used to run the definitions on concrete inputs: the block
    permutation xors every byte of the block with the first key byte. *)

Module Toy.

Definition key_byte (k : list byte) : byte := hd x00 k.

Definition toy_crypto : NodeCrypto := {|
  scryptSync := fun _ _ n => repeat x2a n;
  aes256_encrypt_block := fun k b => map (fun x => byte_xor x (key_byte k)) b;
  aes256_decrypt_block := fun k b => map (fun x => byte_xor x (key_byte k)) b;
  evp_bytes_to_key := fun _ => (repeat x17 32, repeat x05 16)
|}.

Definition env0 : Env := mkEnv None None None None None None.

Definition iv0 : list byte := repeat x01 16.

End Toy.

(* ================================================================= *)
(** ** Notions used by the statements *)

Module Envelope.

(** A string without a colon. *)
Fixpoint no_colon (s : string) : bool :=
  match s with
  | EmptyString => true
  | String c r => negb (Ascii.eqb c ":") && no_colon r
  end.

(** An envelope the format excludes: not two colon-separated parts, a
    part of odd length, or an IV part that is not 16 bytes. *)
Definition malformed (e : string) : bool :=
  match split ":" e with
  | [p0; p1] =>
      Nat.odd (Utf8.js_length p0) || Nat.odd (Utf8.js_length p1)
      || negb (length (Hex.from_hex p0) =? 16)
  | _ => true
  end.

End Envelope.

Module Listing.

(** The row with another stored secret. *)
Definition replace_secret (f : SmtpConfig.t -> string) (r : SmtpConfig.t) : SmtpConfig.t :=
  SmtpConfig.mk (SmtpConfig.id r) (SmtpConfig.userId r) (SmtpConfig.name r)
    (SmtpConfig.host r) (SmtpConfig.port r) (SmtpConfig.secure r)
    (SmtpConfig.username r) (f r) (SmtpConfig.fromName r) (SmtpConfig.signature r)
    (SmtpConfig.isDefault r) (SmtpConfig.isActive r) (SmtpConfig.createdAt r)
    (SmtpConfig.updatedAt r).

(** The answer [v] shows the row [r]: every selected column has the
    stored value. *)
Definition shows (v : Routes.ConfigView) (r : SmtpConfig.t) : Prop :=
  Routes.v_id v = SmtpConfig.id r /\ Routes.v_name v = SmtpConfig.name r
  /\ Routes.v_host v = SmtpConfig.host r /\ Routes.v_port v = SmtpConfig.port r
  /\ Routes.v_secure v = SmtpConfig.secure r
  /\ Routes.v_username v = SmtpConfig.username r
  /\ Routes.v_fromName v = SmtpConfig.fromName r
  /\ Routes.v_signature v = SmtpConfig.signature r
  /\ Routes.v_isDefault v = SmtpConfig.isDefault r
  /\ Routes.v_isActive v = SmtpConfig.isActive r
  /\ Routes.v_createdAt v = SmtpConfig.createdAt r
  /\ Routes.v_updatedAt v = SmtpConfig.updatedAt r.

(** [a] is listed before [b]: a default before the others, and of two
    rows with the same flag the newer first. *)
Definition listed_before (a b : SmtpConfig.t) : Prop :=
  (SmtpConfig.isDefault b = true -> SmtpConfig.isDefault a = true)
  /\ (SmtpConfig.isDefault a = SmtpConfig.isDefault b ->
      SmtpConfig.createdAt b <= SmtpConfig.createdAt a).

End Listing.

Module Invariant.
Import Prisma Routes SmtpConfig.

(** A row transformer that keeps the key, the owner and the creation
    time. *)
Definition stable (g : t -> t) : Prop :=
  forall r, id (g r) = id r /\ userId (g r) = userId r /\ createdAt (g r) = createdAt r.

(** The table is well formed at an instant of the clock: primary keys
    are unique, rows are stored in creation order and none was created
    later than now. *)
Record well_formed (clock : nat) (tb : Table) : Prop := {
  wf_ids : NoDup (map id tb);
  wf_order : StronglySorted le (map createdAt tb);
  wf_clock : Forall (fun c => c <= clock) (map createdAt tb)
}.

(** An active account of the owner flagged as default, and a deactivated
    one that still carries the flag. *)
Definition active_default (uid : Id) (r : t) : bool :=
  owned_by uid r && isActive r && isDefault r.

Definition stale_default (uid : Id) (r : t) : bool :=
  owned_by uid r && negb (isActive r) && isDefault r.

(** At most one active default; and while a deactivated account carries
    the flag, the active default, if any, is the owner's first active
    account. *)
Record single_default (uid : Id) (tb : Table) : Prop := {
  sd_unique : forall r1 r2,
      In r1 tb -> In r2 tb ->
      active_default uid r1 = true -> active_default uid r2 = true -> r1 = r2;
  sd_first : forall z d,
      In z tb -> stale_default uid z = true ->
      In d tb -> active_default uid d = true ->
      find (fun r => owned_by uid r && isActive r) tb = Some d
}.

Definition consistent (clock : nat) (tb : Table) : Prop :=
  well_formed clock tb /\ forall uid, single_default uid tb.

End Invariant.

(* ================================================================= *)
(** ** Concrete inputs *)

Module Examples.
Import Prisma Smtp Emails.

Definition alice : User.t := User.mk 1 "alice@portal.test" "Alice" "USER".

(** Another user with the same display name. *)
Definition alice2 : User.t := User.mk 2 "alice@other.test" "Alice" "USER".


Definition account (i : Id) (name : string) (isDefault isActive : bool) (createdAt : nat)
  : SmtpConfig.t :=
  SmtpConfig.mk i 1 name "smtp.relay.test" 587 false "relay-login@relay.test"
    "00:00" "Sales desk" EmptyString isDefault isActive createdAt createdAt.

(** Two active accounts, the older one the default. *)
Definition two_accounts : Table :=
  [account 10 "A" true true 1; account 11 "B" false true 2].

(** One active account and one deactivated account. *)
Definition one_active : Table :=
  [account 10 "A" true true 1; account 11 "B" false false 2].




(** The fallback settings of an empty environment. *)
Definition fallback0 : Transport :=
  mkTransport "smtp.gmail.com" (Some 587%Z) false (Some (mkAuth EmptyString EmptyString)).

Definition hello : EmailData :=
  mkEmailData ["x@example.com"; "y@example.com"] (Some ["z@example.com"]) None
    "hi" None (Some "body") None.

(** A relay that accepts every message, and one that refuses the login. *)
Definition relay_ok (_ : Transport) (_ : MailOptions) : Outcome SentMessageInfo :=
  Return (mkSent "<1@relay>" "250 OK").

Definition relay_refuses (_ : Transport) (_ : MailOptions) : Outcome SentMessageInfo :=
  Throw (Error "Invalid login").

(** A configuration to probe. *)
Definition probe : TestConfig :=
  mkTestConfig "smtp.relay.test" 587 false "relay-login@relay.test" "hunter2".

(** A registration that does not ask to be the default. *)
Definition plain_account : Body.t :=
  Body.mk (Some "Work") (Some "smtp.relay.test") (Some 587%Z) (Some false)
    (Some "relay-login@relay.test") (Some "hunter2") None None None.

(** The envelope of a legacy ciphertext of ["hunter2"] under [Toy]. *)
Definition legacy_hunter2 : string := "7a677c667760201b1b1b1b1b1b1b1b1b".

(** The same ciphertext with two more colon-separated parts after it. *)
Definition three_parts_hunter2 : string := (legacy_hunter2 ++ ":zz:zz")%string.

(** An envelope of ["hunter2"] under [Toy] and [Toy.iv0], with one hex
    digit too many in the IV part. *)
Definition odd_iv_hunter2 : string :=
  "010101010101010101010101010101010:435e455f4e5919222222222222222222".

(** The string of one code unit U+D800, an unpaired surrogate. *)
Definition lone_surrogate : string :=
  String "237" (String "160" (String "128" EmptyString)).

End Examples.

(* ================================================================= *)
(** ** [api/lib/auth.ts]: the authentication middleware *)

Module Auth.

(** The decoded token, as far as the middleware reads it: [userId], which
    may be missing. *)
Record Payload : Type := mkPayload {
  p_userId : option Id
}.

(** What a middleware does: it calls [next()] with [req.user] set, or it
    answers the request. *)
Inductive Verdict : Type :=
| Next (user : User.t)
| Reject (status : nat) (error : string).

(** [authHeader && authHeader.split(' ')[1]] *)
Definition header_token (authHeader : option string) : option string :=
  match authHeader with
  | None => None
  | Some EmptyString => Some EmptyString
  | Some h => nth_error (split " " h) 1
  end.

Section Middleware.

(** [jwt.verify(token, JWT_SECRET)]: the payload, or an exception for a
    token that is malformed, forged or expired. *)
Variable verifyToken : string -> Outcome Payload.

(** [prisma.user.findUnique({ where: { id } })]; the ORM rejects a call
    without an id. *)
Definition findUser (users : list User.t) (i : option Id) : Outcome (option User.t) :=
  match i with
  | Some i => Return (find (fun u => User.id u =? i) users)
  | None => Throw (Error "Argument `where` needs at least one argument")
  end.

(** [authenticateToken(req, res, next)]; [authorization] is
    [req.headers.authorization]. *)
Definition authenticateToken (users : list User.t) (authorization : option string)
  : Verdict :=
  let token := header_token authorization in
  if negb (truthy_str token) then Reject 401 "Access token required"
  else
    match (decoded <- verifyToken (Routes.text token) ;;
           findUser users (p_userId decoded))%outcome with
    | Throw _ => Reject 403 "Invalid or expired token"
    | Return None => Reject 401 "Invalid token"
    | Return (Some user) => Next user
    end.

(** [requireAdmin] of the admin routes: the role is read again from the
    table. *)
Definition requireAdmin (users : list User.t) (user : option User.t) : Verdict :=
  match user with
  | None => Reject 401 "Authentication required"
  | Some u =>
      match find (fun x => User.id x =? User.id u) users with
      | Some row =>
          if String.eqb (User.role row) "ADMIN" then Next u
          else Reject 403 "Admin access required"
      | None => Reject 403 "Admin access required"
      end
  end.

(** [router.get(path, authenticateToken, requireAdmin, handler)]: the
    second middleware runs when the first calls [next()]; [users'] is the
    [user] table when the second one reads it. *)
Definition admin_guard (users users' : list User.t) (authorization : option string)
  : Verdict :=
  match authenticateToken users authorization with
  | Next user => requireAdmin users' (Some user)
  | Reject status error => Reject status error
  end.

End Middleware.
End Auth.

(* ================================================================= *)
(** ** How a table evolves *)

Module Evolution.
Import Prisma Routes Registry SmtpConfig.

(** Who sends a request, and whether it is a deactivation. *)
Definition actor (op : Op) : User.t :=
  match op with
  | Create user _ _ | Update user _ _ _ | SetDefault user _ | Deactivate user _ => user
  end.

Definition is_deactivate (op : Op) : bool :=
  match op with
  | Deactivate _ _ => true
  | _ => false
  end.

(** A row and a later state of it: the key, the owner and the creation
    time are the same, and a row that is active was active before. *)
Definition persists (r r' : t) : Prop :=
  id r' = id r /\ userId r' = userId r /\ createdAt r' = createdAt r
  /\ (isActive r' = true -> isActive r = true).

(** How a row changes under the writes of [reach]: it persists, and where
    nothing is deactivated its activity is the same. *)
Definition kept (deactivating : bool) (r r' : t) : Prop :=
  persists r r' /\ (deactivating = false -> isActive r' = isActive r).

(** The tables that writes of one owner lead to: updates of rows of the
    owner that set no activity flag, or, where [deactivating] holds,
    clear it; and new active rows of the owner. *)
Inductive reach (deactivating : bool) (uid : Id) (tb : Table) : Table -> Prop :=
| reach_refl : reach deactivating uid tb tb
| reach_update (tb1 : Table) (i now : nat) (d : Data) (x : t) :
    reach deactivating uid tb tb1 ->
    In x tb1 -> id x = i -> owned_by uid x = true ->
    (d_isActive d = None \/ (deactivating = true /\ d_isActive d = Some false)) ->
    reach deactivating uid tb (update i d now tb1)
| reach_updateMany (tb1 : Table) (c : t -> bool) (now : nat) (d : Data) :
    reach deactivating uid tb tb1 ->
    (forall r, c r = true -> owned_by uid r = true) ->
    d_isActive d = None ->
    reach deactivating uid tb (updateMany c d now tb1)
| reach_create (tb1 : Table) (r : t) :
    reach deactivating uid tb tb1 ->
    id r = fresh_id tb1 -> owned_by uid r = true -> isActive r = true ->
    reach deactivating uid tb (create r tb1).

(** Every owner who has an account has an active one. *)
Definition owners_covered (tb : Table) : Prop :=
  forall uid r, In r tb -> owned_by uid r = true ->
  exists a, In a tb /\ owned_by uid a = true /\ isActive a = true.

End Evolution.

(* ================================================================= *)
(** ** More concrete inputs *)

Module Examples2.
Import Prisma.

Definition bob : User.t := User.mk 2 "bob@portal.test" "Bob" "ADMIN".

(** An account of [bob]. *)
Definition bob_account (i : Id) (isDefault isActive : bool) (createdAt : nat)
  : SmtpConfig.t :=
  SmtpConfig.mk i 2 "Bob" "smtp.bob.test" 465 true "bob@bob.test"
    "00:00" "Bob" EmptyString isDefault isActive createdAt createdAt.

(** Accounts of two owners. *)
Definition shared_table : Table :=
  [Examples.account 10 "A" true true 1; bob_account 30 true true 2;
   Examples.account 11 "B" false true 3].



(** A verifier that accepts two tokens, one for each user. *)
Definition verify_two (token : string) : Outcome Auth.Payload :=
  if String.eqb token "token-of-alice" then Return (Auth.mkPayload (Some 1))
  else if String.eqb token "token-of-bob" then Return (Auth.mkPayload (Some 2))
  else Throw (Error "invalid signature").

(** [bob] after the loss of the admin role. *)
Definition bob_demoted : User.t := User.mk 2 "bob@portal.test" "Bob" "USER".

End Examples2.

(* ================================================================= *)
(** * Properties *)

Import Prisma Smtp Routes Registry Emails.

(* ================================================================= *)
(** ** Lists and tables *)

Module ListFacts.
Import SmtpConfig.

Lemma find_map {A} (p : A -> bool) (g : A -> A) (l : list A) :
  find p (map g l) = option_map g (find (fun x => p (g x)) l).
Proof.
  induction l as [|x l IH]; simpl; [reflexivity|].
  destruct (p (g x)); [reflexivity | exact IH].
Qed.

Lemma find_weaker {A} (p q : A -> bool) (l : list A) (d : A) :
  find p l = Some d ->
  (forall x, In x l -> q x = true -> p x = true) -> q d = true ->
  find q l = Some d.
Proof.
  induction l as [|x l IH]; simpl; [discriminate|].
  intros Hf Hqp Hd. destruct (p x) eqn:Ep.
  - injection Hf as ->. now rewrite Hd.
  - destruct (q x) eqn:Eq.
    + rewrite (Hqp x (or_introl eq_refl) Eq) in Ep. discriminate.
    + apply IH; auto.
Qed.

Lemma find_ext_in {A} (p q : A -> bool) (l : list A) :
  (forall x, In x l -> p x = q x) -> find p l = find q l.
Proof.
  induction l as [|x l IH]; simpl; intros H; [reflexivity|].
  rewrite (H x (or_introl eq_refl)). destruct (q x); [reflexivity|].
  apply IH. auto.
Qed.

Lemma find_app_some {A} (p : A -> bool) (l l' : list A) (d : A) :
  find p l = Some d -> find p (l ++ l') = Some d.
Proof.
  induction l as [|x l IH]; simpl; [discriminate|].
  destruct (p x); auto.
Qed.

Lemma find_in {A} (p : A -> bool) (l : list A) (x : A) :
  find p l = Some x -> In x l /\ p x = true.
Proof. apply find_some. Qed.

Lemma existsb_in {A} (p : A -> bool) (l : list A) (x : A) :
  In x l -> p x = true -> existsb p l = true.
Proof. intros. apply existsb_exists. eauto. Qed.

Lemma id_injective (tb : Table) (r1 r2 : t) :
  NoDup (map id tb) -> In r1 tb -> In r2 tb -> id r1 = id r2 -> r1 = r2.
Proof.
  induction tb as [|x tb IH]; simpl; [contradiction|].
  intros Hnd H1 H2 E. inversion Hnd as [|? ? Hx Hnd']; subst.
  destruct H1 as [-> | H1], H2 as [-> | H2]; auto.
  - exfalso. apply Hx. rewrite E. now apply in_map.
  - exfalso. apply Hx. rewrite <- E. now apply in_map.
Qed.

Lemma nodup_rows (tb : Table) : NoDup (map id tb) -> NoDup tb.
Proof. apply NoDup_map_inv. Qed.

Lemma at_most_one {A} (l : list A) :
  NoDup l -> (forall x y, In x l -> In y l -> x = y) -> length l <= 1.
Proof.
  destruct l as [|a [|b l]]; simpl; intros Hnd H; try lia.
  exfalso. inversion Hnd as [|? ? Ha _]; subst. apply Ha.
  left. apply H; auto.
Qed.

Lemma find_filter {A} (p : A -> bool) (l : list A) :
  find p l = hd_error (filter p l).
Proof.
  induction l as [|x l IH]; simpl; [reflexivity|].
  destruct (p x); [reflexivity | exact IH].
Qed.

Lemma find_exists {A} (p : A -> bool) (l : list A) (x : A) :
  In x l -> p x = true -> exists y, find p l = Some y.
Proof.
  intros Hin Hp. destruct (find p l) as [y|] eqn:E; [eauto|].
  now rewrite (find_none _ _ E x Hin) in Hp.
Qed.

(** In a table in creation order, the first row of a selection is its
    earliest created one. *)
Lemma filter_head_oldest (p : t -> bool) (l : list t) (r : t) (rest : list t) :
  StronglySorted le (map createdAt l) -> filter p l = r :: rest ->
  Forall (fun x => createdAt r <= createdAt x) rest.
Proof.
  induction l as [|x l IH]; simpl; [discriminate|].
  intros Hs H. inversion Hs as [|? ? Hs' Hx]; subst.
  destruct (p x).
  - injection H as -> <-.
    apply Forall_forall. intros y Hy. apply filter_In in Hy as [Hy _].
    rewrite Forall_forall in Hx. apply Hx. now apply in_map.
  - now apply IH.
Qed.

Lemma two_members {A} (l : list A) (a b : A) :
  In a l -> In b l -> a <> b -> 2 <= length l.
Proof.
  destruct l as [|x [|y l]]; simpl; intros Ha Hb Hab; try lia.
  destruct Ha as [<- | []], Hb as [<- | []]. congruence.
Qed.

End ListFacts.

Module HexFacts.
Import Hex Envelope.

Lemma no_colon_app (s t : string) :
  no_colon (s ++ t)%string = no_colon s && no_colon t.
Proof.
  induction s as [|c s IH]; simpl; [reflexivity|].
  rewrite IH. now rewrite andb_assoc.
Qed.

Lemma string_app_assoc (s t u : string) :
  ((s ++ t) ++ u = s ++ (t ++ u))%string.
Proof. induction s as [|c s IH]; simpl; [reflexivity | now rewrite IH]. Qed.

Lemma split_no_colon (s : string) :
  no_colon s = true -> split ":" s = [s].
Proof.
  induction s as [|c s IH]; simpl; [reflexivity|].
  intros H. apply andb_true_iff in H as [Hc Hs].
  apply negb_true_iff in Hc. rewrite Hc, (IH Hs). reflexivity.
Qed.

Lemma split_at_colon (s t : string) :
  no_colon s = true -> split ":" (s ++ ":" ++ t)%string = s :: split ":" t.
Proof.
  induction s as [|c s IH]; simpl; intros H; [reflexivity|].
  apply andb_true_iff in H as [Hc Hs].
  apply negb_true_iff in Hc. rewrite Hc. simpl in IH. rewrite (IH Hs). reflexivity.
Qed.

Lemma hex_of_byte_no_colon (b : byte) : no_colon (hex_of_byte b) = true.
Proof. destruct b; reflexivity. Qed.

Lemma to_hex_no_colon (l : list byte) : no_colon (to_hex l) = true.
Proof.
  induction l as [|b l IH]; [reflexivity|]. cbn [to_hex].
  now rewrite no_colon_app, hex_of_byte_no_colon, IH.
Qed.

Lemma from_hex_byte (b : byte) (r : string) :
  from_hex (hex_of_byte b ++ r)%string = b :: from_hex r.
Proof. destruct b; reflexivity. Qed.

Lemma from_hex_to_hex (l : list byte) : from_hex (to_hex l) = l.
Proof.
  induction l as [|b l IH]; [reflexivity|]. cbn [to_hex].
  now rewrite from_hex_byte, IH.
Qed.

Lemma length_to_hex (l : list byte) : String.length (to_hex l) = 2 * length l.
Proof.
  induction l as [|b l IH]; simpl; [reflexivity|].
  rewrite IH. lia.
Qed.

Lemma to_hex_even (l : list byte) : Nat.even (String.length (to_hex l)) = true.
Proof.
  rewrite length_to_hex. apply Nat.even_spec. exists (length l). lia.
Qed.

End HexFacts.

(* ================================================================= *)
(** ** Code units and the ['utf8'] codec *)

Module Utf8Facts.
Import Utf8.

Lemma js_length_app (s t : string) :
  js_length (s ++ t)%string = js_length s + js_length t.
Proof.
  induction s as [|c s IH]; simpl; [reflexivity|]. rewrite IH. lia.
Qed.

Lemma js_length_hex_of_byte (b : byte) : js_length (Hex.hex_of_byte b) = 2.
Proof. destruct b; reflexivity. Qed.

Lemma js_length_to_hex (l : list byte) : js_length (Hex.to_hex l) = 2 * length l.
Proof.
  induction l as [|b l IH]; [reflexivity|]. cbn [Hex.to_hex].
  rewrite js_length_app, js_length_hex_of_byte, IH. simpl. lia.
Qed.

Lemma to_hex_units_even (l : list byte) : Nat.even (js_length (Hex.to_hex l)) = true.
Proof.
  rewrite js_length_to_hex. apply Nat.even_spec. exists (length l). lia.
Qed.

(** The encoder copies a byte that does not start a surrogate. *)
Lemma replace_surrogates_copy (c : ascii) (r : string) :
  code c <> 237 ->
  replace_surrogates (String c r) = String c (replace_surrogates r).
Proof.
  intros H. apply Nat.eqb_neq in H. cbn [replace_surrogates].
  destruct r as [|c1 [|c2 r2]]; try reflexivity.
  now rewrite H.
Qed.

Lemma replace_surrogates_low (c c1 : ascii) (r1 : string) :
  between 160 191 (code c1) = false ->
  replace_surrogates (String c (String c1 r1))
  = String c (replace_surrogates (String c1 r1)).
Proof.
  intros H. cbn [replace_surrogates].
  destruct r1 as [|c2 r2]; try reflexivity.
  now rewrite H, andb_false_r.
Qed.

Lemma between_spec (lo hi n : nat) : between lo hi n = true <-> lo <= n <= hi.
Proof.
  unfold between. rewrite andb_true_iff, !Nat.leb_le. tauto.
Qed.

Lemma continuation_not_lead (c : ascii) : continuation c = true -> code c <> 237.
Proof. unfold continuation. rewrite between_spec. lia. Qed.

Lemma upper_surrogate (c c1 : ascii) :
  code c = 237 -> between (lower (code c)) (upper (code c)) (code c1) = true ->
  between 160 191 (code c1) = false.
Proof.
  intros -> H. apply between_spec in H. cbn in H.
  apply not_true_is_false. rewrite between_spec. lia.
Qed.

(** Well-formed text is written and read as it is. *)
Lemma well_formed_fixed (n : nat) : forall s : string,
  String.length s <= n -> well_formed s = true ->
  replace_surrogates s = s /\ replace_ill_formed s = s.
Proof.
  induction n as [|n IH]; intros s Hn Hw.
  { destruct s; [split; reflexivity | simpl in Hn; lia]. }
  destruct s as [|c r]; [split; reflexivity|].
  simpl String.length in Hn.
  cbn [well_formed] in Hw. cbn [replace_ill_formed].
  destruct (code c <? 128) eqn:E1.
  { apply Nat.ltb_lt in E1.
    destruct (IH r ltac:(lia) Hw) as [Ha Hb].
    rewrite replace_surrogates_copy by lia. now rewrite Ha, Hb. }
  destruct (between 194 223 (code c)) eqn:E2.
  { apply between_spec in E2.
    destruct r as [|c1 r1]; [discriminate|].
    apply andb_true_iff in Hw as [Hw Hr].
    simpl String.length in Hn.
    destruct (IH r1 ltac:(lia) Hr) as [Ha Hb].
    rewrite Hw, Hb. split; [|reflexivity].
    rewrite replace_surrogates_copy by lia.
    rewrite replace_surrogates_copy by now apply continuation_not_lead.
    now rewrite Ha. }
  destruct (between 224 239 (code c)) eqn:E3.
  { destruct r as [|c1 [|c2 r2]]; try discriminate.
    apply andb_true_iff in Hw as [Hw Hr].
    apply andb_true_iff in Hw as [Hw Hw0].
    simpl String.length in Hn.
    destruct (IH r2 ltac:(lia) Hr) as [Ha Hb].
    rewrite Hw, Hw0, Hb. split; [|reflexivity].
    assert (Hc : replace_surrogates (String c (String c1 (String c2 r2)))
                 = String c (replace_surrogates (String c1 (String c2 r2)))).
    { destruct (Nat.eq_dec (code c) 237) as [E|E].
      - apply replace_surrogates_low. now apply (upper_surrogate c).
      - now apply replace_surrogates_copy. }
    rewrite Hc.
    assert (H1 : code c1 <> 237).
    { apply between_spec in Hw. unfold lower, upper in Hw.
      destruct (code c =? 224), (code c =? 240), (code c =? 237), (code c =? 244); lia. }
    rewrite replace_surrogates_copy by exact H1.
    rewrite replace_surrogates_copy by now apply continuation_not_lead.
    now rewrite Ha. }
  destruct (between 240 244 (code c)) eqn:E4; [|discriminate].
  apply between_spec in E4.
  destruct r as [|c1 [|c2 [|c3 r3]]]; try discriminate.
  apply andb_true_iff in Hw as [Hw Hr].
  apply andb_true_iff in Hw as [Hw Hw1].
  apply andb_true_iff in Hw as [Hw Hw0].
  simpl String.length in Hn.
  destruct (IH r3 ltac:(lia) Hr) as [Ha Hb].
  rewrite Hw, Hw0, Hw1, Hb. split; [|reflexivity].
  rewrite replace_surrogates_copy by lia.
  assert (H1 : code c1 <> 237).
  { apply between_spec in Hw. unfold lower, upper in Hw.
    destruct (code c =? 224), (code c =? 240), (code c =? 237), (code c =? 244); lia. }
  rewrite replace_surrogates_copy by exact H1.
  rewrite replace_surrogates_copy by now apply continuation_not_lead.
  rewrite replace_surrogates_copy by now apply continuation_not_lead.
  now rewrite Ha.
Qed.

Lemma encode_well_formed (s : string) :
  well_formed s = true -> encode s = list_byte_of_string s.
Proof.
  intros H. unfold encode.
  now destruct (well_formed_fixed (String.length s) s (le_n _) H) as [-> _].
Qed.

Lemma decode_encode (s : string) :
  well_formed s = true -> decode (encode s) = s.
Proof.
  intros H. rewrite encode_well_formed by exact H. unfold decode.
  rewrite string_of_list_byte_of_string.
  now destruct (well_formed_fixed (String.length s) s (le_n _) H) as [_ ->].
Qed.

End Utf8Facts.

(* ================================================================= *)
(** ** CBC chaining and padding *)

Module CbcFacts.

Lemma xorb_cancel (x y : bool) : xorb (xorb x y) y = x.
Proof. destruct x, y; reflexivity. Qed.

Lemma byte_xor_cancel (a b : byte) : byte_xor (byte_xor a b) b = a.
Proof.
  unfold byte_xor. rewrite Byte.to_bits_of_bits.
  rewrite <- (Byte.of_bits_to_bits a) at 2.
  destruct (Byte.to_bits a) as [a0 [a1 [a2 [a3 [a4 [a5 [a6 a7]]]]]]].
  destruct (Byte.to_bits b) as [b0 [b1 [b2 [b3 [b4 [b5 [b6 b7]]]]]]].
  cbn [xor_bits]. now rewrite !xorb_cancel.
Qed.

Lemma xor_bytes_length (a b : list byte) :
  length a = length b -> length (xor_bytes a b) = length a.
Proof.
  revert b. induction a as [|x a IH]; intros [|y b] H; simpl in *; try congruence.
  now rewrite IH by congruence.
Qed.

Lemma xor_bytes_cancel (a b : list byte) :
  length a = length b -> xor_bytes (xor_bytes a b) b = a.
Proof.
  revert b. induction a as [|x a IH]; intros [|y b] H; simpl in *; try congruence.
  now rewrite byte_xor_cancel, IH by congruence.
Qed.

Lemma firstn_block (c rest : list byte) :
  length c = block_size -> firstn block_size (c ++ rest) = c.
Proof.
  intros H. rewrite firstn_app, H, Nat.sub_diag. simpl firstn at 2.
  rewrite app_nil_r. rewrite <- H. apply firstn_all.
Qed.

Lemma skipn_block (c rest : list byte) :
  length c = block_size -> skipn block_size (c ++ rest) = rest.
Proof.
  intros H. rewrite skipn_app, H, Nat.sub_diag. simpl skipn at 2.
  rewrite <- H, skipn_all. reflexivity.
Qed.

Section Chain.
Context {L : NodeCrypto} {HL : NodeCryptoLaws L}.

Lemma cbc_encrypt_step (fuel : nat) (key prev data : list byte) :
  data <> [] ->
  cbc_encrypt (S fuel) key prev data =
  aes256_encrypt_block key (xor_bytes (firstn block_size data) prev)
    ++ cbc_encrypt fuel key
         (aes256_encrypt_block key (xor_bytes (firstn block_size data) prev))
         (skipn block_size data).
Proof. destruct data; [congruence | reflexivity]. Qed.

Lemma cbc_decrypt_step (fuel : nat) (key prev data : list byte) :
  data <> [] ->
  cbc_decrypt (S fuel) key prev data =
  xor_bytes (aes256_decrypt_block key (firstn block_size data)) prev
    ++ cbc_decrypt fuel key (firstn block_size data) (skipn block_size data).
Proof. destruct data; [congruence | reflexivity]. Qed.

Lemma nonempty_length {A} (l : list A) : 0 < length l -> l <> [].
Proof. destruct l; simpl; [lia | congruence]. Qed.

(** Decrypting the chain gives the blocks back, and the chain is as long
    as the data. *)
Lemma cbc_roundtrip (m : nat) :
  forall fuel1 fuel2 key prev data,
    length key = 32 -> length prev = block_size ->
    length data = block_size * m -> m <= fuel1 -> m <= fuel2 ->
    cbc_decrypt fuel2 key prev (cbc_encrypt fuel1 key prev data) = data
    /\ length (cbc_encrypt fuel1 key prev data) = length data.
Proof.
  induction m as [|m IH]; intros fuel1 fuel2 key prev data Hk Hp Hd H1 H2.
  - rewrite Nat.mul_0_r in Hd. apply length_zero_iff_nil in Hd. subst data.
    destruct fuel1, fuel2; simpl; auto.
  - destruct fuel1 as [|f1]; [lia|]. destruct fuel2 as [|f2]; [lia|].
    assert (Hne : data <> []).
    { apply nonempty_length. rewrite Hd. unfold block_size. lia. }
    rewrite cbc_encrypt_step by exact Hne.
    set (p := firstn block_size data).
    set (rest := skipn block_size data).
    assert (Hlp : length p = block_size).
    { unfold p. rewrite length_firstn. unfold block_size in *. lia. }
    assert (Hlr : length rest = block_size * m).
    { unfold rest. rewrite length_skipn. unfold block_size in *. lia. }
    set (c := aes256_encrypt_block key (xor_bytes p prev)).
    assert (Hx : length (xor_bytes p prev) = 16).
    { rewrite xor_bytes_length; [exact Hlp | congruence]. }
    assert (Hc : length c = block_size).
    { unfold c. apply encrypt_block_length; assumption. }
    destruct (IH f1 f2 key c rest Hk Hc Hlr ltac:(lia) ltac:(lia)) as [IHd IHl].
    split.
    + rewrite cbc_decrypt_step.
      2:{ apply nonempty_length. rewrite length_app, Hc. unfold block_size. lia. }
      rewrite firstn_block, skipn_block by exact Hc.
      unfold c at 1. rewrite decrypt_encrypt_block by assumption.
      rewrite xor_bytes_cancel by congruence.
      rewrite IHd. apply firstn_skipn.
    + rewrite length_app, Hc, IHl, Hlr, Hd. unfold block_size. lia.
Qed.

Lemma pad_length_range (n : nat) : 1 <= pad_length n <= block_size.
Proof.
  unfold pad_length, block_size.
  pose proof (Nat.mod_upper_bound n 16 ltac:(lia)). lia.
Qed.

Lemma length_pkcs7_pad (p : list byte) :
  length (pkcs7_pad p) = block_size * (length p / block_size + 1).
Proof.
  unfold pkcs7_pad. rewrite length_app, repeat_length.
  unfold pad_length, block_size.
  pose proof (Nat.div_mod_eq (length p) 16).
  pose proof (Nat.mod_upper_bound (length p) 16 ltac:(lia)). lia.
Qed.

Lemma to_nat_byte_of_nat (n : nat) : n <= 255 -> Byte.to_nat (byte_of_nat n) = n.
Proof.
  intros H. unfold byte_of_nat. destruct (Byte.of_nat n) as [b|] eqn:E.
  - now apply Byte.to_of_nat.
  - apply Byte.of_nat_None_iff in E. lia.
Qed.

Lemma last_repeat (p : list byte) (b : byte) (n : nat) (d : byte) :
  1 <= n -> last (p ++ repeat b n) d = b.
Proof.
  intros H. destruct n as [|n]; [lia|].
  replace (repeat b (S n)) with (repeat b n ++ [b]).
  - now rewrite app_assoc, last_last.
  - clear. induction n; simpl; [reflexivity|]. now rewrite IHn.
Qed.

Lemma forallb_repeat (b : byte) (n : nat) : forallb (Byte.eqb b) (repeat b n) = true.
Proof.
  induction n; simpl; [reflexivity|].
  now rewrite (Byte.byte_dec_lb (eq_refl b)).
Qed.

Lemma pkcs7_unpad_pad (p : list byte) : pkcs7_unpad (pkcs7_pad p) = Return p.
Proof.
  unfold pkcs7_unpad, pkcs7_pad.
  pose proof (pad_length_range (length p)) as Hn.
  set (n := pad_length (length p)) in *.
  rewrite last_repeat by lia.
  rewrite to_nat_byte_of_nat by (unfold block_size in Hn; lia).
  replace ((n =? 0) || (block_size <? n)) with false.
  2:{ symmetry. apply orb_false_iff. split.
      - apply Nat.eqb_neq. lia.
      - apply Nat.ltb_ge. lia. }
  rewrite length_app, repeat_length.
  replace (length p + n - n) with (length p) by lia.
  rewrite skipn_app, Nat.sub_diag, skipn_all. cbn [skipn app].
  rewrite forallb_repeat.
  rewrite firstn_app, Nat.sub_diag, firstn_all. cbn [firstn].
  now rewrite app_nil_r.
Qed.

(** What a cipher made with a key and an IV writes, a decipher made with
    the same key and IV reads back. *)
Lemma decipher_cipher (key iv plain : list byte) :
  length key = 32 -> length iv = block_size ->
  decipher_run key iv (cipher_run key iv plain) = Return plain.
Proof.
  intros Hk Hi. unfold decipher_run, cipher_run.
  pose proof (length_pkcs7_pad plain) as Hlen.
  set (padded := pkcs7_pad plain) in *.
  set (m := length plain / block_size + 1) in *.
  assert (Hm : m <= length padded) by (rewrite Hlen; unfold block_size; lia).
  destruct (cbc_roundtrip m (length padded) (length padded) key iv padded
              Hk Hi Hlen Hm Hm) as [_ Hl].
  set (ct := cbc_encrypt (length padded) key iv padded) in *.
  replace ((length ct =? 0) || negb (length ct mod block_size =? 0)) with false.
  2:{ symmetry. apply orb_false_iff. rewrite Hl, Hlen. split.
      - apply Nat.eqb_neq. unfold block_size, m. lia.
      - apply negb_false_iff, Nat.eqb_eq.
        rewrite Nat.mul_comm. apply Nat.Div0.mod_mul. }
  assert (Hm' : m <= length ct) by (rewrite Hl; exact Hm).
  destruct (cbc_roundtrip m (length padded) (length ct) key iv padded
              Hk Hi Hlen Hm Hm') as [Hd _].
  fold ct in Hd. rewrite Hd. apply pkcs7_unpad_pad.
Qed.

End Chain.
End CbcFacts.

(* ================================================================= *)
(** ** The credential vault *)

Module VaultFacts.
Import Envelope HexFacts Utf8Facts CbcFacts Examples.

#[export] Instance toy_laws : NodeCryptoLaws Toy.toy_crypto.
Proof.
  constructor; simpl; intros.
  - apply repeat_length.
  - now rewrite length_map.
  - rewrite map_map. rewrite <- (map_id b) at 2.
    apply map_ext. intros x. apply byte_xor_cancel.
  - reflexivity.
  - reflexivity.
Qed.

Lemma from_hex_trailing (l : list byte) (c : ascii) :
  Hex.from_hex (Hex.to_hex l ++ String c EmptyString)%string = l.
Proof.
  induction l as [|b l IH]; [reflexivity|]. cbn [Hex.to_hex].
  rewrite string_app_assoc. now rewrite from_hex_byte, IH.
Qed.

(** Decoding stops at a colon. *)
Lemma from_hex_colon (l : list byte) (r : string) :
  Hex.from_hex (Hex.to_hex l ++ ":" ++ r)%string = l.
Proof.
  induction l as [|b l IH]; [destruct r; reflexivity|]. cbn [Hex.to_hex].
  rewrite string_app_assoc. now rewrite from_hex_byte, IH.
Qed.

(** A string with a colon has at least two parts. *)
Lemma split_with_colon (t : string) :
  no_colon t = false -> 2 <= length (split ":" t).
Proof.
  induction t as [|c t IH]; simpl; [discriminate|].
  destruct (Ascii.eqb c ":") eqn:E; simpl.
  - intros _. destruct t; simpl; [lia|].
    destruct (Ascii.eqb a ":"); [simpl; lia|].
    destruct (split ":" t); simpl; lia.
  - intros H. specialize (IH H).
    destruct (split ":" t) as [|p ps]; simpl in *; lia.
Qed.

Section Vault.
Context {L : NodeCrypto} {HL : NodeCryptoLaws L}.
Variable env : Env.

Let key : list byte := scryptSync (ENCRYPTION_KEY env) "salt" 32.
Let lkey : list byte := fst (evp_bytes_to_key (ENCRYPTION_KEY env)).
Let liv : list byte := snd (evp_bytes_to_key (ENCRYPTION_KEY env)).

Lemma check_key_iv_ok (iv : list byte) :
  length iv = 16 -> check_key_iv key iv = Return tt.
Proof.
  intros Hiv. unfold check_key_iv, key.
  rewrite scryptSync_length, Hiv. reflexivity.
Qed.

Lemma encryptPassword_envelope (iv : list byte) (s : string) :
  length iv = 16 ->
  encryptPassword env iv s =
  Return (Hex.to_hex iv ++ ":"
            ++ Hex.to_hex (cipher_run key iv (Utf8.encode s)))%string.
Proof.
  intros Hiv. unfold encryptPassword. fold key.
  rewrite check_key_iv_ok by exact Hiv. reflexivity.
Qed.

(** A two-part envelope whose IV part decodes to [iv] and whose second
    part is the hex of what a cipher wrote: the bytes given to the
    cipher are read back as text. *)
Lemma decrypt_two_parts (p0 : string) (iv : list byte) (s : string) :
  no_colon p0 = true -> Hex.from_hex p0 = iv -> length iv = 16 ->
  decryptPassword env
    (p0 ++ ":" ++ Hex.to_hex (cipher_run key iv (Utf8.encode s)))%string
  = Return (Utf8.decode (Utf8.encode s)).
Proof.
  intros Hp0 Hfrom Hiv. unfold decryptPassword. fold key.
  rewrite split_at_colon by exact Hp0.
  rewrite split_no_colon by apply to_hex_no_colon.
  rewrite Hfrom, check_key_iv_ok by exact Hiv. cbn [Js.bind].
  unfold update_hex_input. rewrite to_hex_units_even, from_hex_to_hex. cbn [Js.bind].
  rewrite decipher_cipher; [| unfold key; apply scryptSync_length | exact Hiv].
  reflexivity.
Qed.

(** The answer to an envelope that is not in two parts is that of the
    legacy decipher on the whole envelope. *)
Lemma decrypt_other_parts (e : string) :
  length (split ":" e) <> 2 ->
  decryptPassword env e
  = (data <- update_hex_input e ;;
     plain <- decipher_run lkey liv data ;;
     Return (Utf8.decode plain))%outcome.
Proof.
  intros Hparts. unfold decryptPassword, lkey, liv.
  destruct (evp_bytes_to_key (ENCRYPTION_KEY env)) as [k i]. cbn [fst snd].
  destruct (split ":" e) as [|a [|b [|c r]]]; try reflexivity.
  now contradiction Hparts.
Qed.

(** A legacy ciphertext is read up to its end or up to the colon after
    it, whatever follows. *)
Lemma decrypt_legacy_prefix (s e : string) :
  length (split ":" e) <> 2 ->
  Nat.even (Utf8.js_length e) = true ->
  Hex.from_hex e = cipher_run lkey liv (Utf8.encode s) ->
  decryptPassword env e = Return (Utf8.decode (Utf8.encode s)).
Proof.
  intros Hparts Heven Hhex. rewrite decrypt_other_parts by exact Hparts.
  unfold update_hex_input. rewrite Heven, Hhex. cbn [Js.bind].
  rewrite decipher_cipher.
  - reflexivity.
  - apply evp_key_length.
  - apply evp_iv_length.
Qed.

Lemma decrypt_legacy (s : string) :
  decryptPassword env (Hex.to_hex (cipher_run lkey liv (Utf8.encode s)))
  = Return (Utf8.decode (Utf8.encode s)).
Proof.
  apply decrypt_legacy_prefix.
  - rewrite split_no_colon by apply to_hex_no_colon. simpl. lia.
  - apply to_hex_units_even.
  - apply from_hex_to_hex.
Qed.

Lemma decrypt_legacy_more_parts (s t : string) :
  no_colon t = false -> Nat.odd (Utf8.js_length t) = true ->
  decryptPassword env
    (Hex.to_hex (cipher_run lkey liv (Utf8.encode s)) ++ ":" ++ t)%string
  = Return (Utf8.decode (Utf8.encode s)).
Proof.
  intros Ht Hodd. apply decrypt_legacy_prefix.
  - rewrite split_at_colon by apply to_hex_no_colon.
    pose proof (split_with_colon t Ht). simpl. lia.
  - rewrite js_length_app, js_length_to_hex. cbn [append Utf8.js_length].
    change (Utf8.units ":") with 1.
    apply Nat.even_spec. apply Nat.odd_spec in Hodd as [k Hk].
    exists (length (cipher_run lkey liv (Utf8.encode s)) + k + 1). lia.
  - apply from_hex_colon.
Qed.

(** An IV part with one hex digit too many is read as the IV before it. *)
Lemma decrypt_odd_iv (iv : list byte) (s : string) :
  length iv = 16 ->
  decryptPassword env
    ((Hex.to_hex iv ++ "0") ++ ":"
       ++ Hex.to_hex (cipher_run key iv (Utf8.encode s)))%string
  = Return (Utf8.decode (Utf8.encode s)).
Proof.
  intros Hiv. apply decrypt_two_parts; [| apply from_hex_trailing | exact Hiv].
  now rewrite no_colon_app, to_hex_no_colon.
Qed.

End Vault.

(** C3, as stated, fails: a string with an unpaired surrogate comes back
    from the vault with U+FFFD in its place. *)
Lemma lone_surrogate_not_restored :
  (exists envelope : string,
      encryptPassword (L := Toy.toy_crypto) Toy.env0 Toy.iv0 lone_surrogate
      = Return envelope
      /\ decryptPassword (L := Toy.toy_crypto) Toy.env0 envelope
         = Return (Utf8.replaced EmptyString)
      /\ Utf8.replaced EmptyString <> lone_surrogate)
  /\ ~ (forall (L : NodeCrypto), NodeCryptoLaws L ->
        forall (env : Env) (iv : list byte) (s : string),
          length iv = 16 ->
          exists envelope : string,
            encryptPassword env iv s = Return envelope
            /\ decryptPassword env envelope = Return s).
Proof.
  split.
  - eexists. split; [reflexivity|]. split; [reflexivity | discriminate].
  - intros H.
    destruct (H Toy.toy_crypto toy_laws Toy.env0 Toy.iv0 lone_surrogate eq_refl)
      as [e [He Hd]].
    vm_compute in He. injection He as <-. vm_compute in Hd. discriminate Hd.
Qed.

(** C3, amended.  Round trip of the vault on well-formed text: for every
    secret, every master key and every fresh 16-byte IV,
    [encryptPassword] returns the envelope
    [hex(iv) ++ ":" ++ hex(ciphertext)], and [decryptPassword] applied to
    it returns the text that the ['utf8'] decoder reads from the bytes
    that the encoder wrote for the secret; that is the secret when none
    of its surrogates is unpaired. *)
Theorem encrypt_decrypt_roundtrip {L : NodeCrypto} {HL : NodeCryptoLaws L}
    (env : Env) (iv : list byte) (s : string) :
  length iv = 16 ->
  exists envelope : string,
    encryptPassword env iv s = Return envelope
    /\ envelope =
       (Hex.to_hex iv ++ ":"
          ++ Hex.to_hex (cipher_run (scryptSync (ENCRYPTION_KEY env) "salt" 32) iv
                           (Utf8.encode s)))%string
    /\ decryptPassword env envelope = Return (Utf8.decode (Utf8.encode s))
    /\ (Utf8.well_formed s = true -> decryptPassword env envelope = Return s).
Proof.
  intros Hiv. eexists. split; [apply encryptPassword_envelope; exact Hiv|].
  split; [reflexivity|].
  assert (Hd : decryptPassword env
                 (Hex.to_hex iv ++ ":"
                    ++ Hex.to_hex (cipher_run (scryptSync (ENCRYPTION_KEY env) "salt" 32)
                                     iv (Utf8.encode s)))%string
               = Return (Utf8.decode (Utf8.encode s))).
  { apply decrypt_two_parts;
      [apply to_hex_no_colon | apply from_hex_to_hex | exact Hiv]. }
  split; [exact Hd|].
  intros Hs. rewrite Hd. now rewrite (decode_encode s Hs).
Qed.

Lemma encrypt_decrypt_roundtrip_witness :
  exists envelope : string,
    encryptPassword (L := Toy.toy_crypto) Toy.env0 Toy.iv0 "hunter2" = Return envelope
    /\ envelope =
       (Hex.to_hex Toy.iv0 ++ ":"
          ++ Hex.to_hex (cipher_run (L := Toy.toy_crypto)
                           (@scryptSync Toy.toy_crypto (ENCRYPTION_KEY Toy.env0) "salt" 32)
                           Toy.iv0
                           (Utf8.encode "hunter2")))%string
    /\ decryptPassword (L := Toy.toy_crypto) Toy.env0 envelope = Return "hunter2".
Proof.
  destruct (encrypt_decrypt_roundtrip (HL := toy_laws) Toy.env0 Toy.iv0 "hunter2"
              eq_refl) as (envelope & He & Hshape & _ & Hs).
  exists envelope. split; [exact He|]. split; [exact Hshape|]. exact (Hs eq_refl).
Defined.

(** C7, as stated, fails: an envelope whose IV part has odd length and
    an envelope in three parts are both decrypted, and the secret is
    returned. *)
Lemma malformed_envelope_decrypted :
  (malformed odd_iv_hunter2 = true
   /\ decryptPassword (L := Toy.toy_crypto) Toy.env0 odd_iv_hunter2 = Return "hunter2")
  /\ (malformed three_parts_hunter2 = true
      /\ decryptPassword (L := Toy.toy_crypto) Toy.env0 three_parts_hunter2
         = Return "hunter2")
  /\ ~ (forall (L : NodeCrypto), NodeCryptoLaws L ->
        forall (env : Env) (e : string),
          malformed e = true -> exists err, decryptPassword env e = Throw err).
Proof.
  split; [split; reflexivity|]. split; [split; reflexivity|].
  intros H.
  destruct (H Toy.toy_crypto toy_laws Toy.env0 odd_iv_hunter2 eq_refl) as [err E].
  vm_compute in E. discriminate E.
Qed.

(** C7, amended.  A two-part envelope is refused with an error when its
    IV part does not decode to 16 bytes, when the [length] of its second
    part is odd, or when the second part does not decode to a positive
    whole number of blocks.  An envelope that is not in two parts is not
    refused for that: it goes whole to the legacy decipher, so that a
    legacy ciphertext of a well-formed secret is decrypted, alone or with
    further parts after it.  An envelope whose IV part has one hex digit
    too many is decrypted too. *)
Theorem decrypt_malformed_envelope {L : NodeCrypto} {HL : NodeCryptoLaws L}
    (env : Env) :
  (forall p0 p1 : string,
      no_colon p0 = true -> no_colon p1 = true ->
      length (Hex.from_hex p0) <> 16
      \/ Nat.odd (Utf8.js_length p1) = true
      \/ length (Hex.from_hex p1) = 0
      \/ length (Hex.from_hex p1) mod 16 <> 0 ->
      exists err, decryptPassword env (p0 ++ ":" ++ p1)%string = Throw err)
  /\ (forall e : string,
        length (split ":" e) <> 2 ->
        decryptPassword env e
        = (data <- update_hex_input e ;;
           plain <- decipher_run (fst (evp_bytes_to_key (ENCRYPTION_KEY env)))
                      (snd (evp_bytes_to_key (ENCRYPTION_KEY env))) data ;;
           Return (Utf8.decode plain))%outcome)
  /\ (forall s : string,
        Utf8.well_formed s = true ->
        decryptPassword env
          (Hex.to_hex (cipher_run (fst (evp_bytes_to_key (ENCRYPTION_KEY env)))
                         (snd (evp_bytes_to_key (ENCRYPTION_KEY env)))
                         (Utf8.encode s)))
        = Return s)
  /\ (forall s t : string,
        Utf8.well_formed s = true ->
        no_colon t = false -> Nat.odd (Utf8.js_length t) = true ->
        decryptPassword env
          (Hex.to_hex (cipher_run (fst (evp_bytes_to_key (ENCRYPTION_KEY env)))
                         (snd (evp_bytes_to_key (ENCRYPTION_KEY env)))
                         (Utf8.encode s)) ++ ":" ++ t)%string
        = Return s)
  /\ (forall (iv : list byte) (s : string),
        length iv = 16 ->
        Utf8.well_formed s = true ->
        decryptPassword env
          ((Hex.to_hex iv ++ "0") ++ ":"
             ++ Hex.to_hex (cipher_run (scryptSync (ENCRYPTION_KEY env) "salt" 32) iv
                              (Utf8.encode s)))%string
        = Return s).
Proof.
  split; [| split; [apply decrypt_other_parts | split; [| split]]].
  - intros p0 p1 H0 H1 Hbad. unfold decryptPassword.
    rewrite split_at_colon by exact H0. rewrite split_no_colon by exact H1.
    unfold check_key_iv. rewrite scryptSync_length. cbn [Nat.eqb negb].
    change ((32 =? 32)) with true. cbn [negb].
    destruct (length (Hex.from_hex p0) =? block_size) eqn:Eiv; cbn [negb Js.bind].
    2:{ eexists; reflexivity. }
    apply Nat.eqb_eq in Eiv. unfold block_size in Eiv.
    destruct Hbad as [Hbad | [Hbad | Hbad]]; [congruence | |].
    + unfold update_hex_input.
      rewrite <- Nat.negb_odd, Hbad. cbn [negb Js.bind]. eexists; reflexivity.
    + unfold update_hex_input. destruct (Nat.even (Utf8.js_length p1)); cbn [Js.bind].
      2:{ eexists; reflexivity. }
      unfold decipher_run.
      replace ((length (Hex.from_hex p1) =? 0)
               || negb (length (Hex.from_hex p1) mod block_size =? 0)) with true.
      * cbn [Js.bind]. eexists; reflexivity.
      * symmetry. apply orb_true_iff. destruct Hbad as [Hz | Hm].
        -- left. now apply Nat.eqb_eq.
        -- right. apply negb_true_iff, Nat.eqb_neq. exact Hm.
  - intros s Hs. rewrite <- (decode_encode s Hs) at 2. apply decrypt_legacy.
  - intros s t Hs Ht Hodd. rewrite <- (decode_encode s Hs) at 2.
    now apply decrypt_legacy_more_parts.
  - intros iv s Hiv Hs. rewrite <- (decode_encode s Hs) at 2.
    now apply decrypt_odd_iv.
Qed.

Lemma decrypt_malformed_envelope_witness :
  (exists err, decryptPassword (L := Toy.toy_crypto) Toy.env0
                 ("0101" ++ ":" ++ legacy_hunter2)%string = Throw err)
  /\ (exists err, decryptPassword (L := Toy.toy_crypto) Toy.env0
                    ("01010101010101010101010101010101" ++ ":" ++ "435e4")%string
                  = Throw err)
  /\ (exists err, decryptPassword (L := Toy.toy_crypto) Toy.env0
                    ("01010101010101010101010101010101" ++ ":" ++ "435e")%string
                  = Throw err)
  /\ decryptPassword (L := Toy.toy_crypto) Toy.env0 "a:b:c"
     = (data <- update_hex_input "a:b:c" ;;
        plain <- decipher_run (L := Toy.toy_crypto)
                   (fst (@evp_bytes_to_key Toy.toy_crypto (ENCRYPTION_KEY Toy.env0)))
                   (snd (@evp_bytes_to_key Toy.toy_crypto (ENCRYPTION_KEY Toy.env0)))
                   data ;;
        Return (Utf8.decode plain))%outcome
  /\ decryptPassword (L := Toy.toy_crypto) Toy.env0 legacy_hunter2 = Return "hunter2"
  /\ decryptPassword (L := Toy.toy_crypto) Toy.env0 three_parts_hunter2
     = Return "hunter2"
  /\ decryptPassword (L := Toy.toy_crypto) Toy.env0 odd_iv_hunter2 = Return "hunter2".
Proof.
  destruct (decrypt_malformed_envelope (HL := toy_laws) Toy.env0)
    as (Hbad & Hother & Hleg & Hmore & Hodd).
  split; [| split; [| split; [| split; [| split; [| split]]]]].
  - apply Hbad; [reflexivity | reflexivity |]. left. vm_compute. lia.
  - apply Hbad; [reflexivity | reflexivity |]. right. left. reflexivity.
  - apply Hbad; [reflexivity | reflexivity |]. right. right. right. vm_compute. lia.
  - apply Hother. vm_compute. lia.
  - exact (Hleg "hunter2" eq_refl).
  - exact (Hmore "hunter2" "zz:zz" eq_refl eq_refl eq_refl).
  - exact (Hodd Toy.iv0 "hunter2" eq_refl eq_refl).
Defined.

End VaultFacts.

Module DispatchFacts.
Import Examples.

Section Dispatch.
Context {L : NodeCrypto}.
Variable env : Env.
Variable row_password : SmtpConfig.t -> option string.
Variable sendMail : Transport -> MailOptions -> Outcome SentMessageInfo.
Variable verify : Transport -> Outcome unit.

(** C2.  [sendEmail] and [testSmtpConnection] always return a result and
    never throw: when resolving the settings, finding the user or the
    relay fails, the result is [{ success: false, error }] with the
    message of the failure; the result has [success: true] only when the
    relay accepted the message, respectively the handshake. *)
Theorem dispatch_never_throws (tb : Table) (users : list User.t) (userId : Id)
    (emailData : EmailData) (smtpConfig : TestConfig) :
  (exists r : DispatchResult,
      sendEmail env row_password sendMail tb users userId emailData = Return r
      /\ (success r = false -> exists msg, r = failure msg)
      /\ (forall e, createTransporter env row_password tb userId = Throw e ->
                    r = failure (message_or e "Unknown error"))
      /\ (forall t user e,
             createTransporter env row_password tb userId = Return t ->
             find (fun u => User.id u =? userId) users = Some user ->
             sendMail t (mailOptions user emailData) = Throw e ->
             r = failure (message_or e "Unknown error"))
      /\ (success r = true ->
          exists t user info,
            createTransporter env row_password tb userId = Return t
            /\ find (fun u => User.id u =? userId) users = Some user
            /\ sendMail t (mailOptions user emailData) = Return info))
  /\ (exists r : DispatchResult,
        testSmtpConnection verify smtpConfig = Return r
        /\ (success r = false -> exists msg, r = failure msg)
        /\ (forall e,
               verify (mkTransport (tc_host smtpConfig) (Some (tc_port smtpConfig))
                         (tc_secure smtpConfig)
                         (Some (mkAuth (tc_username smtpConfig) (tc_password smtpConfig))))
               = Throw e ->
               r = failure (message_or e "Connection failed"))).
Proof.
  split.
  - unfold sendEmail.
    destruct (createTransporter env row_password tb userId) as [t|e0] eqn:Et;
      cbn [Js.bind try_catch].
    2:{ eexists. split; [reflexivity|]. repeat split; intros.
        - eexists; reflexivity.
        - congruence.
        - discriminate.
        - discriminate. }
    destruct (find (fun u => User.id u =? userId) users) as [user|] eqn:Eu;
      cbn [Js.bind try_catch].
    2:{ eexists. split; [reflexivity|]. repeat split; intros; try discriminate.
        eexists; reflexivity. }
    destruct (sendMail t (mailOptions user emailData)) as [info|e1] eqn:Es;
      cbn [Js.bind try_catch].
    + eexists. split; [reflexivity|]. repeat split; intros; try discriminate.
      * inversion H; subst. inversion H0; subst. congruence.
      * exists t, user, info. auto.
    + eexists. split; [reflexivity|]. repeat split; intros; try discriminate.
      * eexists; reflexivity.
      * inversion H; subst. inversion H0; subst. congruence.
  - unfold testSmtpConnection.
    destruct (verify _) as [[]|e] eqn:Ev; cbn [Js.bind try_catch].
    + eexists. split; [reflexivity|]. split; intros; discriminate.
    + eexists. split; [reflexivity|]. split; intros.
      * eexists; reflexivity.
      * congruence.
Qed.

(** C8, amended.  When the settings resolve and the owner exists, the
    message handed to the relay has the sender header
    ["<owner's name>" <<owner's email address>>], built from the owner's
    user record alone; [to] is the addresses joined with [", "], and [cc]
    and [bcc] are joined the same way when present. *)
Theorem sender_and_recipients (tb : Table) (users : list User.t) (userId : Id)
    (emailData : EmailData) (t : Transport) (user : User.t) :
  createTransporter env row_password tb userId = Return t ->
  find (fun u => User.id u =? userId) users = Some user ->
  exists M : MailOptions,
    sendEmail env row_password sendMail tb users userId emailData =
    Return (match sendMail t M with
            | Return info =>
                mkResult true (Some (s_messageId info)) (Some (s_response info)) None None
            | Throw e => failure (message_or e "Unknown error")
            end)
    /\ m_from M = (dquote ++ User.name user ++ dquote ++ " <" ++ User.email user ++ ">")%string
    /\ m_to M = join ", " (e_to emailData)
    /\ m_cc M = option_map (join ", ") (e_cc emailData)
    /\ m_bcc M = option_map (join ", ") (e_bcc emailData).
Proof.
  intros Ht Hu. exists (mailOptions user emailData).
  split; [| repeat split].
  unfold sendEmail. rewrite Ht. cbn [Js.bind]. rewrite Hu.
  destruct (sendMail t (mailOptions user emailData)); reflexivity.
Qed.

End Dispatch.

(** C8, as stated, fails: the sender header is not a function of the
    owner's display name and the account's username and fromName.  Two
    owners with the same display name and the same relay account get
    different headers, each with the owner's own address. *)
Lemma sender_header_not_from_account :
  ~ (exists f : string -> string -> string -> string,
       forall (user : User.t) (account : SmtpConfig.t) (emailData : EmailData),
         m_from (mailOptions user emailData) =
         f (User.name user) (SmtpConfig.username account) (SmtpConfig.fromName account)).
Proof.
  intros [f H].
  pose proof (H alice (account 10 "A" true true 1) hello) as H1.
  pose proof (H alice2 (account 10 "A" true true 1) hello) as H2.
  simpl in H1, H2. rewrite <- H2 in H1. discriminate H1.
Qed.

Lemma dispatch_never_throws_witness :
  sendEmail (L := Toy.toy_crypto) Toy.env0 (fun _ => None) relay_refuses [] [alice] 1 hello
  = Return (failure "Invalid login").
Proof.
  destruct (dispatch_never_throws (L := Toy.toy_crypto) Toy.env0 (fun _ => None)
              relay_refuses (fun _ => Return tt) [] [alice] 1 hello probe)
    as [[r (Hr & _ & _ & Hrelay & _)] _].
  rewrite Hr. f_equal.
  apply (Hrelay fallback0 alice (Error "Invalid login")); reflexivity.
Defined.

Lemma sender_and_recipients_witness :
  exists M : MailOptions,
    sendEmail (L := Toy.toy_crypto) Toy.env0 (fun _ => None)
      relay_ok [] [alice] 1 hello =
    Return (match relay_ok fallback0 (mailOptions alice hello) with
            | Return info =>
                mkResult true (Some (s_messageId info)) (Some (s_response info)) None None
            | Throw e => failure (message_or e "Unknown error")
            end)
    /\ m_from M = (dquote ++ "Alice" ++ dquote ++ " <" ++ "alice@portal.test" ++ ">")%string
    /\ m_to M = "x@example.com, y@example.com"
    /\ m_cc M = Some "z@example.com"
    /\ m_bcc M = None.
Proof.
  destruct (sender_and_recipients (L := Toy.toy_crypto) Toy.env0 (fun _ => None)
              relay_ok [] [alice] 1 hello
              fallback0
              alice eq_refl eq_refl) as [M HM].
  exists M. exact HM.
Defined.

End DispatchFacts.

Module ListingFacts.
Import SmtpConfig Listing ListFacts.

Lemma leb_listed_before (a b : t) :
  default_first_newest_first a b = true <-> listed_before a b.
Proof.
  unfold default_first_newest_first, listed_before.
  destruct (isDefault a), (isDefault b); rewrite ?Nat.leb_le; intuition congruence.
Qed.

Lemma leb_total (a b : t) :
  default_first_newest_first a b = false -> listed_before b a.
Proof.
  intros H. apply leb_listed_before. revert H.
  unfold default_first_newest_first.
  destruct (isDefault a), (isDefault b); try congruence;
    rewrite Nat.leb_gt, Nat.leb_le; lia.
Qed.

Lemma listed_before_trans (a b c : t) :
  listed_before a b -> listed_before b c -> listed_before a c.
Proof.
  unfold listed_before. intros [H1 H2] [H3 H4].
  destruct (isDefault a), (isDefault b), (isDefault c); split; intros;
    try congruence; try (specialize (H1 eq_refl)); try (specialize (H3 eq_refl));
    try congruence; specialize (H2 eq_refl); specialize (H4 eq_refl); lia.
Qed.

Lemma insert_row_perm (r : t) (l : list t) : Permutation (insert_row r l) (r :: l).
Proof.
  induction l as [|x l IH]; simpl; [apply Permutation_refl|].
  destruct (default_first_newest_first r x); [apply Permutation_refl|].
  eapply perm_trans; [apply perm_skip, IH | apply perm_swap].
Qed.

Lemma sort_rows_perm (l : list t) : Permutation (sort_rows l) l.
Proof.
  induction l as [|r l IH]; simpl; [apply perm_nil|].
  eapply perm_trans; [apply insert_row_perm | apply perm_skip, IH].
Qed.

Lemma insert_row_sorted (r : t) (l : list t) :
  StronglySorted listed_before l -> StronglySorted listed_before (insert_row r l).
Proof.
  induction 1 as [|x l Hs IH Hx]; simpl; [repeat constructor|].
  destruct (default_first_newest_first r x) eqn:E.
  - constructor; [constructor; assumption|].
    apply leb_listed_before in E. constructor; [exact E|].
    eapply Forall_impl; [| exact Hx]. intros y Hy.
    eapply listed_before_trans; eassumption.
  - constructor; [exact IH|].
    apply leb_total in E.
    eapply Permutation_Forall; [apply Permutation_sym, insert_row_perm|].
    constructor; assumption.
Qed.

Lemma sort_rows_sorted (l : list t) : StronglySorted listed_before (sort_rows l).
Proof.
  induction l as [|r l IH]; simpl; [constructor | now apply insert_row_sorted].
Qed.

Section Secret.
Variable f : t -> string.

Lemma insert_row_secret (r : t) (l : list t) :
  insert_row (replace_secret f r) (map (replace_secret f) l)
  = map (replace_secret f) (insert_row r l).
Proof.
  induction l as [|x l IH]; simpl; [reflexivity|].
  change (default_first_newest_first (replace_secret f r) (replace_secret f x))
    with (default_first_newest_first r x).
  destruct (default_first_newest_first r x); simpl; [reflexivity | now rewrite IH].
Qed.

Lemma sort_rows_secret (l : list t) :
  sort_rows (map (replace_secret f) l) = map (replace_secret f) (sort_rows l).
Proof.
  induction l as [|r l IH]; simpl; [reflexivity|].
  now rewrite IH, insert_row_secret.
Qed.

Lemma filter_secret (p : t -> bool) (l : list t) :
  (forall r, p (replace_secret f r) = p r) ->
  filter p (map (replace_secret f) l) = map (replace_secret f) (filter p l).
Proof.
  intros Hp. induction l as [|r l IH]; simpl; [reflexivity|].
  rewrite Hp. destruct (p r); simpl; now rewrite IH.
Qed.

End Secret.

Lemma in_findMany (p : t -> bool) (tb : Table) (r : t) :
  In r (findMany_default_newest p tb) <-> In r tb /\ p r = true.
Proof.
  unfold findMany_default_newest. rewrite <- filter_In. split; intros H.
  - exact (Permutation_in _ (sort_rows_perm _) H).
  - exact (Permutation_in _ (Permutation_sym (sort_rows_perm _)) H).
Qed.

(** C9.  The list answer holds exactly the owner's active accounts,
    ordered default-first and then newest-first; the table is not
    changed; and the answer has no column for the stored secret: it is the
    same whatever secrets the table holds. *)
Theorem list_active_ordered_without_secret (count_emails : Id -> nat)
    (user : User.t) (tb : Table) :
  exists rows : list SmtpConfig.t,
    get_configs count_emails user tb
    = (Configs (map (fun r => mkItem (select_view r) (count_emails (id r))) rows), tb, [])
    /\ Permutation rows
         (filter (fun r => (userId r =? User.id user) && isActive r) tb)
    /\ (forall r, In r rows <-> In r tb /\ userId r = User.id user /\ isActive r = true)
    /\ StronglySorted listed_before rows
    /\ (forall f : SmtpConfig.t -> string,
          result (get_configs count_emails user (map (replace_secret f) tb))
          = result (get_configs count_emails user tb)).
Proof.
  exists (findMany_default_newest (fun r => owned_by (User.id user) r && isActive r) tb).
  split; [reflexivity|]. unfold findMany_default_newest.
  split; [apply sort_rows_perm|].
  split.
  { intros r. fold (findMany_default_newest
                       (fun r => owned_by (User.id user) r && isActive r) tb).
    rewrite in_findMany. unfold owned_by.
    rewrite andb_true_iff, Nat.eqb_eq. tauto. }
  split; [apply sort_rows_sorted|].
  intros f. unfold get_configs, Prisma.bind, query, ret, result, findMany_default_newest.
  cbn [fst snd]. f_equal.
  rewrite filter_secret by reflexivity.
  rewrite sort_rows_secret, map_map. reflexivity.
Qed.

Lemma find_by_id (uid i : Id) (tb : Table) (r : t) :
  NoDup (map id tb) -> In r tb -> id r = i -> userId r = uid ->
  findFirst (fun x => (id x =? i) && owned_by uid x) tb = Some r.
Proof.
  intros Hnd Hin Hi Hu. unfold findFirst.
  induction tb as [|x tb IH]; [contradiction|].
  simpl in Hnd. inversion Hnd as [|? ? Hx Hnd']; subst.
  destruct Hin as [-> | Hin].
  - simpl. unfold owned_by. now rewrite !Nat.eqb_refl.
  - simpl. destruct (id x =? id r) eqn:E.
    + apply Nat.eqb_eq in E. exfalso. apply Hx. rewrite E. now apply in_map.
    + simpl. now apply IH.
Qed.

(** C10.  Fetching an account of the caller by its id answers with the
    account whatever its [isActive] flag, and every column of the answer
    has the value stored in the row: id, name, host, port, secure flag,
    user name, sender name, signature, default flag, active flag and
    both time stamps.  An account that is not active is absent from the
    list answer. *)
Theorem get_by_id_ignores_isActive (count_emails : Id -> nat)
    (user : User.t) (i : Id) (tb : Table) (r : SmtpConfig.t) :
  NoDup (map id tb) -> In r tb -> id r = i -> userId r = User.id user ->
  (exists v : ConfigView,
      get_config user i tb = (Config 200 v, tb, [])
      /\ v_id v = id r /\ v_name v = name r /\ v_host v = host r
      /\ v_port v = port r /\ v_secure v = secure r
      /\ v_username v = username r /\ v_fromName v = fromName r
      /\ v_signature v = signature r /\ v_isDefault v = isDefault r
      /\ v_isActive v = isActive r /\ v_createdAt v = createdAt r
      /\ v_updatedAt v = updatedAt r)
  /\ (isActive r = false ->
      forall items, result (get_configs count_emails user tb) = Configs items ->
      forall it, In it items -> v_id (li_config it) <> i).
Proof.
  intros Hnd Hin Hi Hu. split.
  - exists (select_view r). split.
    + unfold get_config, Prisma.bind, query. rewrite (find_by_id _ _ _ r) by assumption.
      reflexivity.
    + cbn. repeat split; reflexivity.
  - intros Hina items Hitems it Hit Hid.
    unfold get_configs, Prisma.bind, query, ret, result in Hitems. cbn [fst] in Hitems.
    injection Hitems as <-.
    apply in_map_iff in Hit as [x [<- Hx]]. cbn [li_config select_view v_id] in Hid.
    apply in_findMany in Hx as [Hx Hp].
    apply andb_true_iff in Hp as [_ Hax].
    assert (x = r); [| congruence].
    clear - Hnd Hin Hx Hid Hi. subst i.
    induction tb as [|y tb IH]; [contradiction|].
    simpl in Hnd. inversion Hnd as [|? ? Hy Hnd']; subst.
    destruct Hin as [-> | Hin], Hx as [-> | Hx]; auto.
    + exfalso. apply Hy. rewrite <- Hid. now apply in_map.
    + exfalso. apply Hy. rewrite Hid. now apply in_map.
Qed.

Lemma get_by_id_ignores_isActive_witness :
  (exists v : ConfigView,
      get_config Examples.alice 11 Examples.one_active
      = (Config 200 v, Examples.one_active, [])
      /\ v_id v = 11 /\ v_name v = "B" /\ v_host v = "smtp.relay.test"
      /\ v_port v = 587%Z /\ v_secure v = false
      /\ v_username v = "relay-login@relay.test" /\ v_fromName v = "Sales desk"
      /\ v_signature v = EmptyString /\ v_isDefault v = false
      /\ v_isActive v = false /\ v_createdAt v = 2
      /\ v_updatedAt v = 2)
  /\ (forall items,
        result (get_configs (fun _ => 0) Examples.alice Examples.one_active) = Configs items ->
        forall it, In it items -> v_id (li_config it) <> 11).
Proof.
  destruct (get_by_id_ignores_isActive (fun _ => 0) Examples.alice 11 Examples.one_active
              (Examples.account 11 "B" false false 2)) as [H1 H2].
  - repeat constructor; simpl; intuition discriminate.
  - right. left. reflexivity.
  - reflexivity.
  - reflexivity.
  - split; [exact H1 | exact (H2 eq_refl)].
Defined.

End ListingFacts.

Module RegistryFacts.
Import SmtpConfig Examples ListFacts.

(** C6.  When the target is the owner's only active account, the delete
    request is refused with status 400 and nothing is written: the table
    is unchanged and the account is still active. *)
Theorem delete_only_active_rejected (user : User.t) (i : Id) (now : nat)
    (tb : Table) (r : SmtpConfig.t) :
  active_of (User.id user) tb = [r] -> id r = i ->
  delete_config user i now tb
  = (Failure 400 "Cannot delete the only SMTP configuration", tb, [])
  /\ In r (final (delete_config user i now tb))
  /\ isActive r = true.
Proof.
  intros Hact Hi.
  assert (Hr : In r (active_of (User.id user) tb)) by (rewrite Hact; now left).
  apply filter_In in Hr as [Hin Hp]. apply andb_true_iff in Hp as [Ho Ha].
  assert (E : delete_config user i now tb
              = (Failure 400 "Cannot delete the only SMTP configuration", tb, [])).
  { unfold delete_config, Prisma.bind, query.
    destruct (find_exists (fun x => (id x =? i) && owned_by (User.id user) x) tb r Hin)
      as [y Hy].
    { now rewrite Hi, Nat.eqb_refl, Ho. }
    unfold findFirst. rewrite Hy.
    unfold count. fold (active_of (User.id user) tb). rewrite Hact. reflexivity. }
  rewrite E. auto.
Qed.

Lemma delete_only_active_rejected_witness :
  delete_config alice 10 7 one_active
  = (Failure 400 "Cannot delete the only SMTP configuration", one_active, [])
  /\ In (account 10 "A" true true 1) (final (delete_config alice 10 7 one_active))
  /\ isActive (account 10 "A" true true 1) = true.
Proof.
  apply (delete_only_active_rejected alice 10 7 one_active (account 10 "A" true true 1));
    reflexivity.
Defined.

(** C5.  Deleting the default of two active accounts: the older remaining
    account is promoted, but the promotion and the deactivation are two
    commits; the table committed first has two active defaults. *)
Theorem delete_default_two_commits :
  let run := delete_config alice 10 7 two_accounts in
  result run = Message "SMTP configuration deleted successfully"
  /\ (exists mid, commits run = [mid; final run]
                  /\ map id (active_defaults_of 1 mid) = [10; 11])
  /\ map id (active_defaults_of 1 (final run)) = [11].
Proof.
  cbv zeta. split; [reflexivity|]. split; [| reflexivity].
  eexists. split; reflexivity.
Qed.

End RegistryFacts.

Module ResolverFacts.
Import SmtpConfig Examples ListFacts.


Section Resolve.
Context {L : NodeCrypto}.
Variable env : Env.
Variable row_password : SmtpConfig.t -> option string.


End Resolve.



End ResolverFacts.

(* ================================================================= *)
(** ** The single-default invariant *)

Module InvariantFacts.
Import SmtpConfig Invariant ListFacts.

(** *** Row transformers *)

Lemma stable_update_where (c : t -> bool) (d : Data) (now : nat) :
  stable (fun r => if c r then apply_data d now r else r).
Proof. intros r. destruct (c r); simpl; auto. Qed.

Lemma stable_compose (g1 g2 : t -> t) :
  stable g1 -> stable g2 -> stable (fun r => g2 (g1 r)).
Proof.
  intros H1 H2 r. destruct (H1 r) as (? & ? & ?), (H2 (g1 r)) as (? & ? & ?).
  repeat split; congruence.
Qed.

Lemma map_id_stable (g : t -> t) (tb : Table) :
  stable g -> map id (map g tb) = map id tb.
Proof. intros H. rewrite map_map. apply map_ext. intros r. apply H. Qed.

Lemma map_createdAt_stable (g : t -> t) (tb : Table) :
  stable g -> map createdAt (map g tb) = map createdAt tb.
Proof. intros H. rewrite map_map. apply map_ext. intros r. apply H. Qed.

Lemma owned_stable (g : t -> t) (uid : Id) (r : t) :
  stable g -> owned_by uid (g r) = owned_by uid r.
Proof. intros H. unfold owned_by. now destruct (H r) as (_ & -> & _). Qed.

(** *** Well-formed tables *)

Lemma wf_empty : well_formed 0 [].
Proof. constructor; simpl; constructor. Qed.

Lemma wf_map (g : t -> t) (clock : nat) (tb : Table) :
  stable g -> well_formed clock tb -> well_formed clock (map g tb).
Proof.
  intros Hg [H1 H2 H3].
  constructor; rewrite ?map_id_stable, ?map_createdAt_stable; assumption.
Qed.

Lemma wf_later (clock now : nat) (tb : Table) :
  clock <= now -> well_formed clock tb -> well_formed now tb.
Proof.
  intros Hle [H1 H2 H3]. constructor; auto.
  eapply Forall_impl; [| exact H3]. simpl. intros. lia.
Qed.

Lemma fresh_id_new (tb : Table) : ~ In (fresh_id tb) (map id tb).
Proof.
  unfold fresh_id. intros H.
  assert (Hle : Forall (fun k => k <= list_max (map id tb)) (map id tb)).
  { now apply list_max_le. }
  rewrite Forall_forall in Hle. specialize (Hle _ H). lia.
Qed.

Lemma sorted_snoc (l : list nat) (n : nat) :
  StronglySorted le l -> Forall (fun c => c <= n) l -> StronglySorted le (l ++ [n]).
Proof.
  induction 1 as [|x l Hs IH Hx]; simpl; intros Hn.
  - repeat constructor.
  - inversion Hn as [|? ? Hxn Hn']; subst. constructor; [auto|].
    apply Forall_app. split; [exact Hx | repeat constructor; exact Hxn].
Qed.

Lemma nodup_snoc {A} (l : list A) (a : A) :
  NoDup l -> ~ In a l -> NoDup (l ++ [a]).
Proof.
  induction 1 as [|x l Hx Hnd IH]; simpl; intros Ha.
  - constructor; [intros [] | constructor].
  - constructor.
    + rewrite in_app_iff. simpl. intuition congruence.
    + apply IH. intuition.
Qed.

Lemma wf_create (now : nat) (tb : Table) (r : t) :
  well_formed now tb -> id r = fresh_id tb -> createdAt r = now ->
  well_formed now (create r tb).
Proof.
  intros [H1 H2 H3] Hi Hc. unfold create.
  constructor; rewrite map_app; simpl.
  - rewrite Hi. apply nodup_snoc; [exact H1 | apply fresh_id_new].
  - rewrite Hc. now apply sorted_snoc.
  - rewrite Hc. apply Forall_app. split; [exact H3 | repeat constructor].
Qed.

(** In a well-formed table the oldest row of a selection is its first. *)
Lemma oldest_first (best : t) (rows : list t) :
  Forall (fun x => createdAt best <= createdAt x) rows -> oldest best rows = best.
Proof.
  induction 1 as [|x rows Hx _ IH]; simpl; [reflexivity|].
  destruct (Nat.ltb_spec (createdAt x) (createdAt best)); [lia | exact IH].
Qed.

Lemma findFirst_createdAt_asc_find (clock : nat) (p : t -> bool) (tb : Table) :
  well_formed clock tb -> findFirst_createdAt_asc p tb = find p tb.
Proof.
  intros [_ Hs _]. unfold findFirst_createdAt_asc. rewrite find_filter.
  destruct (filter p tb) as [|r rest] eqn:E; [reflexivity|]. simpl.
  now rewrite (oldest_first r rest (filter_head_oldest p tb r rest Hs E)).
Qed.

(** *** How writes keep [single_default] *)

Lemma active_default_parts (uid : Id) (r : t) :
  active_default uid r = true <->
  owned_by uid r = true /\ isActive r = true /\ isDefault r = true.
Proof. unfold active_default. rewrite !andb_true_iff. tauto. Qed.

Lemma stale_default_parts (uid : Id) (r : t) :
  stale_default uid r = true <->
  owned_by uid r = true /\ isActive r = false /\ isDefault r = true.
Proof. unfold stale_default. rewrite !andb_true_iff, negb_true_iff. tauto. Qed.

(** All the owner's flagged rows are one row. *)
Lemma single_flag (uid : Id) (tb : Table) :
  (forall r1 r2, In r1 tb -> In r2 tb ->
     owned_by uid r1 = true -> isDefault r1 = true ->
     owned_by uid r2 = true -> isDefault r2 = true -> r1 = r2) ->
  single_default uid tb.
Proof.
  intros H. constructor.
  - intros r1 r2 H1 H2 A1 A2.
    apply active_default_parts in A1 as (? & ? & ?), A2 as (? & ? & ?). auto.
  - intros z d Hz Sz Hd Ad.
    apply stale_default_parts in Sz as (? & Hza & ?).
    apply active_default_parts in Ad as (? & Hda & ?).
    assert (z = d) by auto. subst. congruence.
Qed.

(** A write that, on the owner's rows, sets no flag, activates nothing
    and leaves the activity of flagged rows alone. *)
Lemma monotone_write (uid : Id) (g : t -> t) (tb : Table) :
  stable g ->
  (forall r, In r tb -> owned_by uid r = true ->
     (isDefault (g r) = true -> isDefault r = true)
     /\ (isActive (g r) = true -> isActive r = true)
     /\ (isDefault (g r) = true -> isActive (g r) = isActive r)) ->
  single_default uid tb -> single_default uid (map g tb).
Proof.
  intros Hg Hm [Hu Hf].
  assert (Had : forall r, In r tb -> active_default uid (g r) = true ->
                          active_default uid r = true).
  { intros r Hr A. apply active_default_parts in A as (Ho & Ha & Hd).
    rewrite owned_stable in Ho by exact Hg.
    destruct (Hm r Hr Ho) as (M1 & M2 & _).
    apply active_default_parts. auto. }
  constructor.
  - intros r1' r2' H1 H2 A1 A2.
    apply in_map_iff in H1 as [r1 [<- H1]]. apply in_map_iff in H2 as [r2 [<- H2]].
    f_equal. apply Hu; auto.
  - intros z' d' Hz Sz Hd Ad.
    apply in_map_iff in Hz as [z [<- Hz]]. apply in_map_iff in Hd as [d [<- Hd]].
    assert (Sz' : stale_default uid z = true).
    { apply stale_default_parts in Sz as (Ho & Ha & Hdf).
      rewrite owned_stable in Ho by exact Hg.
      destruct (Hm z Hz Ho) as (M1 & _ & M3).
      apply stale_default_parts. repeat split; auto.
      rewrite <- (M3 Hdf). exact Ha. }
    pose proof (Hf z d Hz Sz' Hd (Had d Hd Ad)) as Hfind.
    rewrite find_map.
    rewrite (find_weaker _ (fun x => owned_by uid (g x) && isActive (g x)) tb d Hfind).
    + reflexivity.
    + intros x Hx Hq. apply andb_true_iff in Hq as [Ho Ha].
      rewrite owned_stable in Ho by exact Hg.
      destruct (Hm x Hx Ho) as (_ & M2 & _). now rewrite Ho, M2.
    + apply active_default_parts in Ad as (Ho & Ha & _). now rewrite Ho, Ha.
Qed.

(** A write that leaves the owner's rows as they are. *)
Lemma untouched_write (uid : Id) (g : t -> t) (tb : Table) :
  stable g ->
  (forall r, In r tb -> owned_by uid r = true -> g r = r) ->
  single_default uid tb -> single_default uid (map g tb).
Proof.
  intros Hg Hid. apply monotone_write; [exact Hg|].
  intros r Hr Ho. rewrite (Hid r Hr Ho). auto.
Qed.

(** A new row that, if it is the owner's, is active and not flagged. *)
Lemma append_write (uid : Id) (tb : Table) (r : t) :
  (owned_by uid r = true -> isActive r = true /\ isDefault r = false) ->
  single_default uid tb -> single_default uid (create r tb).
Proof.
  intros Hr [Hu Hf]. unfold create.
  assert (Hna : forall x, In x (tb ++ [r]) -> active_default uid x = true -> In x tb).
  { intros x Hx A. apply in_app_iff in Hx as [Hx | [<- | []]]; [exact Hx|].
    apply active_default_parts in A as (Ho & _ & Hd).
    destruct (Hr Ho). congruence. }
  constructor.
  - intros r1 r2 H1 H2 A1 A2. apply Hu; auto.
  - intros z d Hz Sz Hd Ad.
    assert (Hz' : In z tb).
    { apply in_app_iff in Hz as [Hz | [<- | []]]; [exact Hz|].
      apply stale_default_parts in Sz as (Ho & Ha & _).
      destruct (Hr Ho). congruence. }
    apply find_app_some. apply (Hf z d); auto.
Qed.

(** The target loses its activity and the first other active account of
    the owner gets the flag. *)
Lemma promote_write (uid i : Id) (now : nat) (tb : Table) (target next : t) :
  NoDup (map id tb) ->
  In target tb -> id target = i -> owned_by uid target = true ->
  isDefault target = true ->
  find (fun r => owned_by uid r && isActive r && negb (id r =? i)) tb = Some next ->
  single_default uid tb ->
  single_default uid
    (update i (data_isActive false) now
       (update (id next) (data_isDefault true) now tb)).
Proof.
  intros Hnd Ht Hti Hto Htd Hnext [Hu Hf].
  apply find_in in Hnext as Hn. destruct Hn as [Hn Hq].
  apply andb_true_iff in Hq as [Hq Hni]. apply andb_true_iff in Hq as [Hno Hna].
  apply negb_true_iff in Hni.
  unfold update. rewrite map_map.
  set (g := fun r => if id (if id r =? id next then apply_data (data_isDefault true) now r
                                else r) =? i
                     then apply_data (data_isActive false) now
                            (if id r =? id next then apply_data (data_isDefault true) now r
                             else r)
                     else if id r =? id next then apply_data (data_isDefault true) now r
                          else r).
  assert (Hg : stable g).
  { intros r. unfold g. destruct (id r =? id next); simpl;
      destruct (id r =? i); simpl; auto. }
  (* what [g] does to the flags *)
  assert (Hact : forall r, isActive (g r) = isActive r && negb (id r =? i)).
  { intros r. unfold g. destruct (id r =? id next); simpl;
      destruct (id r =? i); simpl; now rewrite ?andb_true_r, ?andb_false_r. }
  assert (Hdef : forall r, isDefault (g r) = isDefault r || (id r =? id next)).
  { intros r. unfold g. destruct (id r =? id next); simpl;
      destruct (id r =? i); simpl; now rewrite ?orb_true_r, ?orb_false_r. }
  (* every active default of the new table comes from [next] *)
  assert (Honly : forall r, In r tb -> active_default uid (g r) = true -> r = next).
  { intros r Hr A. apply active_default_parts in A as (Ho & Ha & Hd).
    rewrite owned_stable in Ho by exact Hg. rewrite Hact in Ha. rewrite Hdef in Hd.
    apply andb_true_iff in Ha as [Ha Hri]. apply negb_true_iff in Hri.
    destruct (id r =? id next) eqn:E.
    { apply Nat.eqb_eq in E. now apply (id_injective tb). }
    rewrite orb_false_r in Hd.
    assert (Ar : active_default uid r = true) by (apply active_default_parts; auto).
    destruct (isActive target) eqn:Eta.
    - assert (r = target).
      { apply Hu; auto. apply active_default_parts; auto. }
      subst r. rewrite Hti, Nat.eqb_refl in Hri. discriminate.
    - assert (Hfind : find (fun x => owned_by uid x && isActive x) tb = Some r).
      { apply (Hf target r); auto. apply stale_default_parts; auto. }
      rewrite (find_ext_in _ (fun x => owned_by uid x && isActive x
                                       && negb (id x =? i)) tb) in Hfind.
      + congruence.
      + intros x Hx. destruct (id x =? i) eqn:Exi; [| now rewrite andb_true_r].
        apply Nat.eqb_eq in Exi.
        assert (x = target) by (apply (id_injective tb); auto; congruence).
        subst x. rewrite Eta. now rewrite !andb_false_r. }
  constructor.
  - intros r1' r2' H1 H2 A1 A2.
    apply in_map_iff in H1 as [r1 [<- H1]]. apply in_map_iff in H2 as [r2 [<- H2]].
    now rewrite (Honly r1 H1 A1), (Honly r2 H2 A2).
  - intros z' d' _ _ Hd Ad.
    apply in_map_iff in Hd as [d [<- Hd]].
    rewrite (Honly d Hd Ad). rewrite find_map.
    rewrite (find_ext_in _ (fun r => owned_by uid r && isActive r && negb (id r =? i)) tb).
    + now rewrite Hnext.
    + intros x _. rewrite owned_stable by exact Hg. rewrite Hact.
      now rewrite andb_assoc.
Qed.

(** The target loses its activity and the owner has no other active
    account. *)
Lemma last_write (uid i : Id) (now : nat) (tb : Table) :
  find (fun r => owned_by uid r && isActive r && negb (id r =? i)) tb = None ->
  single_default uid (update i (data_isActive false) now tb).
Proof.
  intros Hnone.
  assert (Hno : forall r', In r' (update i (data_isActive false) now tb) ->
                           active_default uid r' = true -> False).
  { intros r' Hr A. apply in_map_iff in Hr as [r [<- Hr]].
    pose proof (find_none _ _ Hnone r Hr) as Hq. cbv beta in Hq.
    apply active_default_parts in A as (Ho & Ha & _).
    destruct (id r =? i); simpl in *; [discriminate|].
    rewrite Ho, Ha in Hq. discriminate. }
  constructor.
  - intros r1 r2 H1 _ A1 _. destruct (Hno r1 H1 A1).
  - intros z d _ _ Hd Ad. destruct (Hno d Hd Ad).
Qed.

(** *** The shapes of the tables the handlers commit *)

Lemma owned_by_other (u w : Id) (r : t) :
  owned_by u r = true -> w <> u -> owned_by w r = false.
Proof.
  unfold owned_by. intros Hu Hw. apply Nat.eqb_eq in Hu. apply Nat.eqb_neq. congruence.
Qed.

Lemma wf_update (clock i now : nat) (d : Data) (tb : Table) :
  well_formed clock tb -> well_formed clock (update i d now tb).
Proof. apply wf_map, stable_update_where. Qed.

Lemma wf_updateMany (clock now : nat) (c : t -> bool) (d : Data) (tb : Table) :
  well_formed clock tb -> well_formed clock (updateMany c d now tb).
Proof. apply wf_map, stable_update_where. Qed.

Lemma in_update (i now : nat) (d : Data) (tb : Table) (x : t) :
  In x tb -> id x = i -> In (apply_data d now x) (update i d now tb).
Proof.
  intros Hx Hi. apply in_map_iff. exists x. split; [| exact Hx].
  now rewrite Hi, Nat.eqb_refl.
Qed.

(** Clearing flags. *)
Lemma clear_write (uid now : nat) (c : t -> bool) (tb : Table) :
  single_default uid tb ->
  single_default uid (updateMany c (data_isDefault false) now tb).
Proof.
  apply monotone_write; [apply stable_update_where|].
  intros r _ _. destruct (c r); simpl; auto. repeat split; congruence.
Qed.

(** Editing a row without setting its flag. *)
Lemma edit_write (uid i now : nat) (d : Data) (tb : Table) :
  d_isDefault d <> Some true -> d_isActive d = None ->
  single_default uid tb -> single_default uid (update i d now tb).
Proof.
  intros Hd Ha. apply monotone_write; [apply stable_update_where|].
  intros r _ _. destruct (id r =? i); simpl; auto.
  rewrite Ha. simpl. destruct (d_isDefault d) as [[|]|]; simpl; auto; try congruence.
  repeat split; congruence.
Qed.

(** Writing to a row of somebody else. *)
Lemma other_write (w i now : nat) (d : Data) (tb : Table) (x : t) :
  NoDup (map id tb) -> In x tb -> id x = i -> owned_by w x = false ->
  single_default w tb -> single_default w (update i d now tb).
Proof.
  intros Hnd Hx Hi Hw. apply untouched_write; [apply stable_update_where|].
  intros r Hr Ho. destruct (id r =? i) eqn:E; [| reflexivity].
  apply Nat.eqb_eq in E.
  assert (r = x) by (apply (id_injective tb); auto; congruence).
  subst r. congruence.
Qed.

(** Deactivating a row that does not carry the flag. *)
Lemma deactivate_write (uid i now : nat) (tb : Table) (target : t) :
  NoDup (map id tb) -> In target tb -> id target = i -> isDefault target = false ->
  single_default uid tb -> single_default uid (update i (data_isActive false) now tb).
Proof.
  intros Hnd Ht Hi Hd. apply monotone_write; [apply stable_update_where|].
  intros r Hr _. destruct (id r =? i) eqn:E; simpl; auto.
  apply Nat.eqb_eq in E.
  assert (r = target) by (apply (id_injective tb); auto; congruence).
  subst r. repeat split; congruence.
Qed.

(** Clearing the owner's flags, but for the target, and writing the
    target. *)
Lemma set_write (u w i now : nat) (c : t -> bool) (d : Data) (tb : Table) (x : t) :
  NoDup (map id tb) -> In x tb -> id x = i -> owned_by u x = true ->
  (forall r, c r = true -> owned_by u r = true) ->
  (forall r, owned_by u r = true -> isDefault r = true -> id r <> i -> c r = true) ->
  single_default w tb ->
  single_default w (update i d now (updateMany c (data_isDefault false) now tb)).
Proof.
  intros Hnd Hx Hi Hu Hc1 Hc2 Hsd.
  set (tb1 := updateMany c (data_isDefault false) now tb).
  assert (Hnd1 : NoDup (map id tb1)).
  { unfold tb1, updateMany. now rewrite map_id_stable by apply stable_update_where. }
  destruct (Nat.eq_dec w u) as [-> | Hw].
  - apply single_flag.
    assert (Hnd2 : NoDup (map id (update i d now tb1))).
    { unfold update. now rewrite map_id_stable by apply stable_update_where. }
    assert (Hi2 : forall r', In r' (update i d now tb1) ->
                             owned_by u r' = true -> isDefault r' = true -> id r' = i).
    { intros r' Hr' Ho Hd. apply in_map_iff in Hr' as [r1 [<- Hr1]].
      destruct (id r1 =? i) eqn:E; [now apply Nat.eqb_eq in E|].
      apply in_map_iff in Hr1 as [r [<- Hr]].
      destruct (c r) eqn:Ec; [simpl in Hd; discriminate|].
      apply Nat.eqb_neq in E. rewrite (Hc2 r Ho Hd E) in Ec. discriminate. }
    intros r1 r2 H1 H2 O1 D1 O2 D2.
    apply (id_injective _ _ _ Hnd2 H1 H2).
    rewrite (Hi2 r1), (Hi2 r2); auto.
  - apply (other_write w i now d tb1 (if c x then apply_data (data_isDefault false) now x
                                      else x)).
    + exact Hnd1.
    + apply in_map_iff. exists x. auto.
    + destruct (c x); simpl; exact Hi.
    + destruct (c x); [change (owned_by w x = false)|]; now apply (owned_by_other u).
    + now apply clear_write.
Qed.

(** Clearing the owner's flags and adding a flagged row. *)
Lemma create_default_write (u w now : nat) (tb : Table) (r : t) :
  owned_by u r = true -> isActive r = true ->
  NoDup (map id (create r tb)) ->
  single_default w tb ->
  single_default w
    (create r (updateMany (fun x => owned_by u x && isDefault x)
                 (data_isDefault false) now tb)).
Proof.
  intros Ho Ha Hnd Hsd.
  destruct (Nat.eq_dec w u) as [-> | Hw].
  - apply single_flag.
    assert (Hnew : forall r', In r' (create r (updateMany
                      (fun x => owned_by u x && isDefault x) (data_isDefault false) now tb)) ->
                      owned_by u r' = true -> isDefault r' = true -> r' = r).
    { intros r' Hr' O D. unfold create in Hr'.
      apply in_app_iff in Hr' as [Hr' | [<- | []]]; [| reflexivity].
      apply in_map_iff in Hr' as [x [<- Hx]].
      destruct (owned_by u x && isDefault x) eqn:E; [simpl in D; discriminate|].
      rewrite O, D in E. discriminate. }
    intros r1 r2 H1 H2 O1 D1 O2 D2. now rewrite (Hnew r1), (Hnew r2).
  - apply append_write.
    + intros O. rewrite (owned_by_other u w r Ho Hw) in O. discriminate.
    + now apply clear_write.
Qed.

(** *** Running a handler *)

Lemma final_bind {A B} (m : DB A) (k : A -> DB B) (tb : Table) :
  final (Prisma.bind m k tb) = final (k (result (m tb)) (final (m tb))).
Proof.
  unfold Prisma.bind, final, result.
  destruct (m tb) as [[a tb1] c1]. cbn [fst snd].
  destruct (k a tb1) as [[b tb2] c2]. reflexivity.
Qed.

Lemma result_bind {A B} (m : DB A) (k : A -> DB B) (tb : Table) :
  result (Prisma.bind m k tb) = result (k (result (m tb)) (final (m tb))).
Proof.
  unfold Prisma.bind, final, result.
  destruct (m tb) as [[a tb1] c1]. cbn [fst snd].
  destruct (k a tb1) as [[b tb2] c2]. reflexivity.
Qed.

Lemma final_exec (w : Stmt) (tb : Table) :
  final (exec w tb) = match w tb with Some tb' => tb' | None => tb end.
Proof. unfold exec. destruct (w tb); reflexivity. Qed.

Lemma result_exec (w : Stmt) (tb : Table) :
  result (exec w tb) = match w tb with Some _ => true | None => false end.
Proof. unfold exec. destruct (w tb); reflexivity. Qed.

Lemma final_if_ret {A} (b : bool) (x y : A) (tb : Table) :
  final ((if b then ret x else ret y) tb) = tb.
Proof. destruct b; reflexivity. Qed.

Lemma w_update_found (i now : nat) (d : Data) (tb : Table) (x : t) :
  In x tb -> id x = i -> w_update i d now tb = Some (update i d now tb).
Proof.
  intros Hx Hi. unfold w_update.
  rewrite (existsb_in (fun r => id r =? i) tb x Hx); [reflexivity|].
  now apply Nat.eqb_eq.
Qed.

Lemma target_found (p : t -> bool) (uid i : Id) (tb : Table) (x : t) :
  findFirst p tb = Some x ->
  (forall r, p r = true -> (id r =? i) && owned_by uid r = true) ->
  In x tb /\ id x = i /\ owned_by uid x = true.
Proof.
  intros Hf Hp. apply find_in in Hf as [Hx Hpx].
  apply Hp in Hpx. apply andb_true_iff in Hpx as [Hi Ho].
  apply Nat.eqb_eq in Hi. auto.
Qed.

Ltac db_step :=
  rewrite ?final_bind, ?result_bind;
  cbn [query ret result final fst snd].

(** The answer of a handler does not change the table. *)
Ltac answer :=
  repeat match goal with
    | |- context [final ((if ?b then _ else _) _)] => destruct b
    | |- context [final ((match ?o with Some _ => _ | None => _ end) _)] => destruct o
    end;
  cbn [ret final fst snd].

Section Handlers.
Context {L : NodeCrypto}.
Variable env : Env.

Lemma set_default_consistent (user : User.t) (i now : nat) (tb : Table) :
  consistent now tb -> consistent now (final (post_set_default user i now tb)).
Proof.
  intros [Hwf Hsd]. unfold post_set_default. db_step.
  destruct (findFirst _ tb) as [x|] eqn:Ex; db_step; [| now split].
  apply target_found with (uid := User.id user) (i := i) in Ex as (Hx & Hi & Ho).
  2:{ intros r Hr. now apply andb_true_iff in Hr as [Hr _]. }
  rewrite final_if_ret.
  unfold exec_transaction. cbn [run_writes w_updateMany].
  rewrite (w_update_found i now _ _
             (if owned_by (User.id user) x && isDefault x
              then apply_data (data_isDefault false) now x else x)).
  2:{ apply in_map_iff. exists x. auto. }
  2:{ destruct (owned_by (User.id user) x && isDefault x); exact Hi. }
  cbn [final fst snd]. split.
  - now apply wf_update, wf_updateMany.
  - intros w. apply (set_write (User.id user) w i now _ _ tb x); auto.
    + apply Hwf.
    + intros r Hr. now apply andb_true_iff in Hr as [Hr _].
    + intros r Hr Hd _. now rewrite Hr, Hd.
Qed.


Lemma create_consistent (user : User.t) (body : Body.t) (iv : list byte) (now : nat)
    (tb : Table) :
  consistent now tb -> consistent now (final (post_configs env user body iv now tb)).
Proof.
  intros [Hwf Hsd]. unfold post_configs.
  destruct (negb _ || _ || _ || _ || _); [now split|].
  destruct (negb (valid_port _)); [now split|].
  destruct (encryptPassword env iv _) as [enc|e]; [| now split].
  db_step.
  destruct (truthy_bool (Body.isDefault body)) eqn:Edef; db_step.
  - rewrite !final_exec. cbn [w_updateMany w_create].
    set (tb1 := updateMany _ _ now tb).
    assert (Hwf1 : well_formed now tb1) by now apply wf_updateMany.
    set (r := SmtpConfig.mk (fresh_id tb1) _ _ _ _ _ _ _ _ _ _ _ _ _).
    assert (Hwf2 : well_formed now (create r tb1)) by now apply wf_create.
    split; [exact Hwf2|].
    intros w. apply create_default_write; auto.
    + unfold owned_by. apply Nat.eqb_refl.
    + pose proof (wf_ids _ _ Hwf2) as Hnd. unfold create in *.
      rewrite map_app in *. unfold tb1, updateMany in Hnd.
      now rewrite map_id_stable in Hnd by apply stable_update_where.
  - rewrite !final_exec. cbn [w_create].
    set (r := SmtpConfig.mk (fresh_id tb) _ _ _ _ _ _ _ _ _ _ _ _ _).
    split; [now apply wf_create|].
    intros w. apply append_write; auto.
Qed.

Lemma update_consistent (user : User.t) (i : Id) (body : Body.t) (iv : list byte)
    (now : nat) (tb : Table) :
  consistent now tb -> consistent now (final (put_config env user i body iv now tb)).
Proof.
  intros [Hwf Hsd]. unfold put_config. db_step.
  destruct (findFirst _ tb) as [x|] eqn:Ex; db_step; [| now split].
  apply target_found with (uid := User.id user) (i := i) in Ex as (Hx & Hi & Ho).
  2:{ auto. }
  match goal with |- context [if ?b then ret _ else _] => destruct b end;
    [now split|].
  db_step.
  destruct (truthy_bool (Body.isDefault body)) eqn:Edef; db_step.
  - (* the flag is set: the owner's other flags are cleared first *)
    rewrite final_exec. cbn [w_updateMany].
    set (c := fun r => owned_by (User.id user) r && isDefault r && negb (id r =? i)).
    set (tb1 := updateMany c (data_isDefault false) now tb).
    assert (Hwf1 : well_formed now tb1) by now apply wf_updateMany.
    match goal with |- context [match ?o with Return _ => _ | Throw _ => _ end] =>
      destruct o as [newPassword|e] end.
    2:{ split; [exact Hwf1|]. intros w. now apply clear_write. }
    db_step. rewrite final_exec.
    rewrite (w_update_found i now _ tb1
               (if c x then apply_data (data_isDefault false) now x else x)).
    2:{ apply in_map_iff. exists x. auto. }
    2:{ destruct (c x); exact Hi. }
    answer.
    all: (split; [now apply wf_update|]).
    all: intros w; apply (set_write (User.id user) w i now c _ tb x); auto.
    all: try apply Hwf.
    all: try (intros r Hr; unfold c in Hr;
              apply andb_true_iff in Hr as [Hr _]; now apply andb_true_iff in Hr as [Hr _]).
    all: intros r Hr Hd Hn; unfold c; rewrite Hr, Hd;
      apply Nat.eqb_neq in Hn; now rewrite Hn.
  - (* the flag is cleared or left alone *)
    match goal with |- context [match ?o with Return _ => _ | Throw _ => _ end] =>
      destruct o as [newPassword|e] end.
    2:{ now split. }
    db_step. rewrite final_exec.
    rewrite (w_update_found i now _ tb x Hx Hi).
    answer.
    all: (split; [now apply wf_update|]).
    all: intros w; apply edit_write; auto.
    all: cbn [d_isDefault]; destruct (Body.isDefault body) as [[|]|]; simpl in Edef;
      congruence.
Qed.

Lemma delete_consistent (user : User.t) (i now : nat) (tb : Table) :
  consistent now tb -> consistent now (final (delete_config user i now tb)).
Proof.
  intros [Hwf Hsd]. unfold delete_config. db_step.
  destruct (findFirst _ tb) as [x|] eqn:Ex; db_step; [| now split].
  apply target_found with (uid := User.id user) (i := i) in Ex as (Hx & Hi & Ho).
  2:{ auto. }
  destruct (count _ tb =? 1); db_step; [now split|].
  pose proof (wf_ids _ _ Hwf) as Hnd.
  destruct (isDefault x) eqn:Edef; db_step.
  - (* the target carries the flag *)
    rewrite !(findFirst_createdAt_asc_find now) by exact Hwf.
    destruct (find _ tb) as [next|] eqn:Enext; db_step.
    + apply find_in in Enext as Hn. destruct Hn as [Hn Hq].
      rewrite result_exec, final_exec.
      rewrite (w_update_found (id next) now _ tb next Hn eq_refl).
      cbn [negb]. db_step. rewrite final_exec.
      rewrite (w_update_found i now _ _
                 (if id x =? id next then apply_data (data_isDefault true) now x else x)).
      2:{ apply in_map_iff. exists x. auto. }
      2:{ destruct (id x =? id next); exact Hi. }
      answer.
      all: (split; [now apply wf_update, wf_update|]).
      all: intros w; destruct (Nat.eq_dec w (User.id user)) as [-> | Hw].
      all: try (now apply (promote_write (User.id user) i now tb x next)).
      all: apply (other_write w i now _ _
                    (if id x =? id next then apply_data (data_isDefault true) now x else x)).
      all: try (unfold update; now rewrite map_id_stable by apply stable_update_where).
      all: try (apply in_map_iff; exists x; now auto).
      all: try (destruct (id x =? id next); exact Hi).
      all: try (destruct (id x =? id next); [change (owned_by w x = false)|];
                now apply (owned_by_other (User.id user))).
      all: apply (other_write w (id next) now _ tb next); auto.
      all: apply (owned_by_other (User.id user)); auto.
      all: apply andb_true_iff in Hq as [Hq _]; now apply andb_true_iff in Hq as [Hq _].
    + cbn [negb]. db_step. rewrite final_exec.
      rewrite (w_update_found i now _ tb x Hx Hi).
      answer.
      all: (split; [now apply wf_update|]).
      all: intros w; destruct (Nat.eq_dec w (User.id user)) as [-> | Hw].
      all: try (now apply last_write).
      all: apply (other_write w i now _ tb x); auto.
      all: now apply (owned_by_other (User.id user)).
  - (* the target does not carry the flag *)
    cbn [negb]. db_step. rewrite final_exec.
    rewrite (w_update_found i now _ tb x Hx Hi).
    answer.
    all: (split; [now apply wf_update|]).
    all: intros w; now apply (deactivate_write w i now tb x).
Qed.

Lemma handle_consistent (op : Op) (now : nat) (tb : Table) :
  consistent now tb -> consistent now (final (handle env op now tb)).
Proof.
  destruct op; simpl.
  - apply create_consistent.
  - apply update_consistent.
  - apply set_default_consistent.
  - apply delete_consistent.
Qed.

Lemma run_consistent (ops : list (nat * Op)) :
  forall clock tb, consistent clock tb ->
  exists clock', consistent clock' (run env ops clock tb).
Proof.
  induction ops as [|[elapsed op] ops IH]; intros clock tb H; simpl; [eauto|].
  apply IH. apply handle_consistent.
  destruct H as [Hwf Hsd]. split; [| exact Hsd].
  apply (wf_later clock); [lia | exact Hwf].
Qed.

End Handlers.

Lemma consistent_empty : consistent 0 [].
Proof.
  split; [apply wf_empty|]. intros uid. constructor; simpl; contradiction.
Qed.

Lemma consistent_at_most_one (clock : nat) (uid : Id) (tb : Table) :
  consistent clock tb -> length (active_defaults_of uid tb) <= 1.
Proof.
  intros [Hwf Hsd]. apply at_most_one.
  - apply NoDup_filter, nodup_rows, Hwf.
  - intros x y Hx Hy. unfold active_defaults_of in *.
    apply filter_In in Hx as [Hx Ax], Hy as [Hy Ay].
    apply (sd_unique _ _ (Hsd uid)); assumption.
Qed.

(** Deleting the active default of an owner who has another active
    account: the oldest of the other active accounts is promoted by a
    first commit, in which the target is still an active default, and
    the target is deactivated by a second commit, after which the
    promoted account is the only active default. *)
Lemma delete_default_commits (user : User.t) (i now clock : nat) (tb : Table)
    (target next : t) :
  consistent clock tb ->
  In target tb -> id target = i -> owned_by (User.id user) target = true ->
  isActive target = true -> isDefault target = true ->
  findFirst_createdAt_asc
    (fun r => owned_by (User.id user) r && isActive r && negb (id r =? i)) tb = Some next ->
  let tb1 := update (id next) (data_isDefault true) now tb in
  let tb2 := update i (data_isActive false) now tb1 in
  delete_config user i now tb
  = (Message "SMTP configuration deleted successfully", tb2, [tb1; tb2])
  /\ In target tb1 /\ active_default (User.id user) target = true
  /\ In (apply_data (data_isDefault true) now next) tb1
  /\ active_default (User.id user) (apply_data (data_isDefault true) now next) = true
  /\ target <> apply_data (data_isDefault true) now next
  /\ (forall d, In d tb2 -> active_default (User.id user) d = true ->
                d = apply_data (data_isDefault true) now next).
Proof.
  intros [Hwf Hsd] Ht Hti Hto Hta Htd Hnext tb1 tb2.
  pose proof (wf_ids _ _ Hwf) as Hnd.
  pose proof Hnext as Hfind.
  rewrite (findFirst_createdAt_asc_find clock) in Hfind by exact Hwf.
  apply find_in in Hfind as Hn. destruct Hn as [Hn Hq].
  apply andb_true_iff in Hq as [Hq Hni]. apply andb_true_iff in Hq as [Hno Hna].
  apply negb_true_iff in Hni. apply Nat.eqb_neq in Hni.
  assert (Hne : id target <> id next) by congruence.
  assert (Htb1 : In target tb1).
  { unfold tb1, update. apply in_map_iff. exists target. split; [| exact Ht].
    apply Nat.eqb_neq in Hne. now rewrite Hne. }
  assert (Hn1 : In (apply_data (data_isDefault true) now next) tb1).
  { now apply in_update. }
  split; [| repeat split; auto].
  - unfold delete_config, Prisma.bind, query.
    rewrite (ListingFacts.find_by_id (User.id user) i tb target Hnd Ht Hti).
    2:{ now apply Nat.eqb_eq in Hto. }
    assert (Hc : (count (fun r => owned_by (User.id user) r && isActive r) tb =? 1) = false).
    { apply Nat.eqb_neq. unfold count.
      assert (2 <= length (filter (fun r => owned_by (User.id user) r && isActive r) tb)).
      { apply (two_members _ target next).
        - apply filter_In. now rewrite Hto, Hta.
        - apply filter_In. now rewrite Hno, Hna.
        - congruence. }
      lia. }
    rewrite Hc, Htd, Hnext. unfold exec.
    rewrite (w_update_found (id next) now _ tb next Hn eq_refl). cbn [negb].
    fold tb1. rewrite (w_update_found i now _ tb1 target Htb1 Hti). reflexivity.
  - apply active_default_parts. auto.
  - apply active_default_parts. auto.
  - intros E. apply (f_equal id) in E. simpl in E. congruence.
  - intros d Hd Ad.
    pose proof (promote_write (User.id user) i now tb target next Hnd Ht Hti Hto Htd
                  ltac:(rewrite <- (findFirst_createdAt_asc_find clock) by exact Hwf;
                        exact Hnext) (Hsd (User.id user))) as Hp.
    apply (sd_unique _ _ Hp); auto.
    + unfold tb2. apply in_map_iff.
      exists (apply_data (data_isDefault true) now next). split; [| exact Hn1].
      simpl. apply Nat.eqb_neq in Hni. now rewrite Hni.
    + apply active_default_parts. auto.
Qed.

(** C1, as stated, fails: registering a first account without asking
    for the default leaves the owner with one active account and no
    default. *)
Lemma first_account_without_default :
  ~ (forall (L : NodeCrypto) (env : Env) (ops : list (nat * Op)) (uid : Id),
       1 <= length (active_of uid (run env ops 0 [])) ->
       length (active_defaults_of uid (run env ops 0 [])) = 1).
Proof.
  intros H.
  specialize (H Toy.toy_crypto Toy.env0
                [(0, Create Examples.alice Examples.plain_account Toy.iv0)] 1).
  vm_compute in H. specialize (H (le_n 1)). discriminate H.
Qed.

(** C1, amended.  After any history of create, update, set-default and
    deactivate requests on an empty table, every owner has at most one
    active account flagged as default. *)
Theorem at_most_one_active_default {L : NodeCrypto} (env : Env)
    (ops : list (nat * Op)) (uid : Id) :
  length (active_defaults_of uid (run env ops 0 [])) <= 1.
Proof.
  destruct (run_consistent env ops 0 [] consistent_empty) as [clock H].
  exact (consistent_at_most_one clock uid _ H).
Qed.

End InvariantFacts.

(* ================================================================= *)
(** ** More about the credential vault *)

Module VaultExtra.
Import Envelope HexFacts Utf8Facts CbcFacts VaultFacts Examples.

Lemma string_length_app (s t : string) :
  String.length (s ++ t)%string = String.length s + String.length t.
Proof. induction s as [|c s IH]; simpl; [reflexivity | now rewrite IH]. Qed.

Lemma length_bytes_of_string (s : string) :
  length (list_byte_of_string s) = String.length s.
Proof.
  unfold list_byte_of_string. rewrite length_map.
  induction s as [|c s IH]; simpl; [reflexivity | now rewrite IH].
Qed.

(** U+FFFD takes the three bytes of the surrogate it replaces. *)
Lemma length_replace_surrogates (n : nat) : forall s : string,
  String.length s <= n ->
  String.length (Utf8.replace_surrogates s) = String.length s.
Proof.
  induction n as [|n IH]; intros s Hn.
  { destruct s; [reflexivity | simpl in Hn; lia]. }
  destruct s as [|c r]; [reflexivity|]. simpl String.length in Hn.
  cbn [Utf8.replace_surrogates].
  destruct r as [|c1 [|c2 r2]].
  - reflexivity.
  - reflexivity.
  - destruct ((Utf8.code c =? 237) && Utf8.between 160 191 (Utf8.code c1)).
    + unfold Utf8.replaced. simpl String.length. do 3 f_equal.
      apply IH. simpl in Hn. lia.
    + simpl String.length. f_equal.
      apply (IH (String c1 (String c2 r2))). simpl in *. lia.
Qed.

Lemma length_encode (s : string) : length (Utf8.encode s) = String.length s.
Proof.
  unfold Utf8.encode. rewrite length_bytes_of_string.
  now apply (length_replace_surrogates (String.length s)).
Qed.

Section Vault.
Context {L : NodeCrypto} {HL : NodeCryptoLaws L}.

Lemma length_cipher_run (key iv plain : list byte) :
  length key = 32 -> length iv = block_size ->
  length (cipher_run key iv plain) = block_size * (length plain / block_size + 1).
Proof.
  intros Hk Hi. unfold cipher_run.
  pose proof (length_pkcs7_pad plain) as Hlen.
  set (padded := pkcs7_pad plain) in *.
  set (m := length plain / block_size + 1) in *.
  assert (Hm : m <= length padded) by (rewrite Hlen; unfold block_size; lia).
  destruct (cbc_roundtrip m (length padded) (length padded) key iv padded
              Hk Hi Hlen Hm Hm) as [_ Hl].
  now rewrite Hl.
Qed.

(** X1.  What [encryptPassword] writes is a well-formed envelope: two
    colon-separated parts, the hex of the 16-byte IV and the hex of a
    ciphertext of one block more than the whole blocks of the encoded
    secret.  It has more bytes than the secret, so it is never the secret
    itself, and [decryptPassword] reads it on the IV path. *)
Theorem encrypt_envelope_shape (env : Env) (iv : list byte) (s : string) :
  length iv = 16 ->
  exists (e : string) (ct : list byte),
    encryptPassword env iv s = Return e
    /\ split ":" e = [Hex.to_hex iv; Hex.to_hex ct]
    /\ Utf8.js_length (Hex.to_hex iv) = 32
    /\ length ct = 16 * (length (Utf8.encode s) / 16 + 1)
    /\ malformed e = false
    /\ String.length s < String.length e
    /\ e <> s.
Proof.
  intros Hiv.
  set (key := scryptSync (ENCRYPTION_KEY env) "salt" 32).
  set (ct := cipher_run key iv (Utf8.encode s)).
  assert (Hct : length ct = 16 * (String.length s / 16 + 1)).
  { unfold ct. rewrite length_cipher_run; [| apply scryptSync_length | exact Hiv].
    now rewrite length_encode. }
  assert (Hsplit : split ":" (Hex.to_hex iv ++ ":" ++ Hex.to_hex ct)%string
                   = [Hex.to_hex iv; Hex.to_hex ct]).
  { rewrite split_at_colon by apply to_hex_no_colon.
    now rewrite split_no_colon by apply to_hex_no_colon. }
  assert (Hlen : String.length s
                 < String.length (Hex.to_hex iv ++ ":" ++ Hex.to_hex ct)%string).
  { rewrite !string_length_app, !length_to_hex, Hiv, Hct. simpl String.length.
    pose proof (Nat.div_mod_eq (String.length s) 16).
    pose proof (Nat.mod_upper_bound (String.length s) 16 ltac:(lia)). lia. }
  exists (Hex.to_hex iv ++ ":" ++ Hex.to_hex ct)%string, ct.
  split; [apply encryptPassword_envelope; exact Hiv|].
  split; [exact Hsplit|].
  split; [rewrite js_length_to_hex, Hiv; reflexivity|].
  split; [now rewrite length_encode|].
  split.
  - unfold malformed. rewrite Hsplit, from_hex_to_hex, Hiv.
    rewrite <- !Nat.negb_even, !to_hex_units_even. reflexivity.
  - split; [exact Hlen|]. intros E. rewrite E in Hlen. lia.
Qed.

(** The envelope of a well-formed secret decrypts to it and differs
    from it. *)
Lemma encrypt_envelope_shape_aux (env : Env) (iv : list byte) (s : string) :
  length iv = 16 -> Utf8.well_formed s = true ->
  exists e : string,
    encryptPassword env iv s = Return e
    /\ decryptPassword env e = Return s /\ e <> s.
Proof.
  intros Hiv Hs.
  set (key := scryptSync (ENCRYPTION_KEY env) "salt" 32).
  set (e := (Hex.to_hex iv ++ ":"
             ++ Hex.to_hex (cipher_run key iv (Utf8.encode s)))%string).
  exists e. split; [apply encryptPassword_envelope; exact Hiv|]. split.
  - unfold e, key. rewrite <- (decode_encode s Hs) at 2.
    apply decrypt_two_parts; [apply to_hex_no_colon | apply from_hex_to_hex | exact Hiv].
  - assert (Hlen : String.length s < String.length e).
    { unfold e. rewrite !string_length_app, !length_to_hex, Hiv.
      rewrite length_cipher_run; [| apply scryptSync_length | exact Hiv].
      rewrite length_encode. simpl String.length. unfold block_size.
      pose proof (Nat.div_mod_eq (String.length s) 16).
      pose proof (Nat.mod_upper_bound (String.length s) 16 ltac:(lia)). lia. }
    intros E. rewrite E in Hlen. lia.
Qed.

End Vault.

Lemma encrypt_envelope_shape_witness :
  exists (e : string) (ct : list byte),
    encryptPassword (L := Toy.toy_crypto) Toy.env0 Toy.iv0 "hunter2" = Return e
    /\ split ":" e = [Hex.to_hex Toy.iv0; Hex.to_hex ct]
    /\ Utf8.js_length (Hex.to_hex Toy.iv0) = 32
    /\ length ct = 16 * (length (Utf8.encode "hunter2") / 16 + 1)
    /\ malformed e = false
    /\ String.length "hunter2" < String.length e
    /\ e <> "hunter2".
Proof.
  apply (encrypt_envelope_shape (HL := toy_laws) Toy.env0 Toy.iv0 "hunter2").
  reflexivity.
Defined.

End VaultExtra.

(* ================================================================= *)
(** ** How the registry evolves *)

Module EvolutionFacts.
Import SmtpConfig Invariant Evolution ListFacts InvariantFacts.

Lemma persists_refl (r : t) : persists r r.
Proof. unfold persists. auto. Qed.

Lemma persists_trans (r1 r2 r3 : t) :
  persists r1 r2 -> persists r2 r3 -> persists r1 r3.
Proof.
  unfold persists. intros (A1 & A2 & A3 & A4) (B1 & B2 & B3 & B4).
  repeat split; try congruence. auto.
Qed.

Lemma forall2_refl {A} (R : A -> A -> Prop) (l : list A) :
  (forall x, R x x) -> Forall2 R l l.
Proof. intros H. induction l; constructor; auto. Qed.

Lemma forall2_trans {A} (R : A -> A -> Prop) (l1 l2 l3 : list A) :
  (forall x y z, R x y -> R y z -> R x z) ->
  Forall2 R l1 l2 -> Forall2 R l2 l3 -> Forall2 R l1 l3.
Proof.
  intros HR H12. revert l3. induction H12 as [|x y l1 l2 Hxy _ IH]; intros l3 H23.
  - inversion H23. constructor.
  - inversion H23 as [|? z ? l3' Hyz H23']; subst. constructor; eauto.
Qed.

Lemma forall2_map_r {A} (R : A -> A -> Prop) (g : A -> A) (l1 l2 : list A) :
  (forall x y, R x y -> R x (g y)) -> Forall2 R l1 l2 -> Forall2 R l1 (map g l2).
Proof. intros Hg H. induction H; simpl; constructor; auto. Qed.

Lemma forall2_in_l {A} (R : A -> A -> Prop) (l1 l2 : list A) (x : A) :
  Forall2 R l1 l2 -> In x l1 -> exists y, In y l2 /\ R x y.
Proof.
  induction 1 as [|a b l1 l2 Hab _ IH]; simpl; [contradiction|].
  intros [<- | Hx]; [eauto|]. destruct (IH Hx) as [y [Hy Hr]]. eauto.
Qed.

Lemma forall2_in_r {A} (R : A -> A -> Prop) (l1 l2 : list A) (y : A) :
  Forall2 R l1 l2 -> In y l2 -> exists x, In x l1 /\ R x y.
Proof.
  induction 1 as [|a b l1 l2 Hab _ IH]; simpl; [contradiction|].
  intros [<- | Hy]; [eauto|]. destruct (IH Hy) as [x [Hx Hr]]. eauto.
Qed.

Lemma kept_trans (b : bool) (r1 r2 r3 : t) : kept b r1 r2 -> kept b r2 r3 -> kept b r1 r3.
Proof.
  intros [P1 A1] [P2 A2]. split; [eapply persists_trans; eassumption|].
  intros Hb. rewrite (A2 Hb). auto.
Qed.

Lemma kept_apply (b : bool) (d : Data) (now : nat) (r : t) :
  (d_isActive d = None \/ (b = true /\ d_isActive d = Some false)) ->
  kept b r (apply_data d now r).
Proof.
  intros Hd. unfold kept, persists. simpl.
  destruct Hd as [-> | [-> ->]]; simpl; repeat split; auto; congruence.
Qed.

Lemma kept_update_where (b : bool) (c : t -> bool) (d : Data) (now : nat) (r r' : t) :
  (d_isActive d = None \/ (b = true /\ d_isActive d = Some false)) ->
  kept b r r' -> kept b r (if c r' then apply_data d now r' else r').
Proof.
  intros Hd Hk. destruct (c r'); [| exact Hk].
  eapply kept_trans; [exact Hk | now apply kept_apply].
Qed.

(** What [reach] keeps: the rows of the start in their places, and new
    rows of the owner after them. *)
Lemma reach_rows (b : bool) (uid : Id) (tb tb' : Table) :
  reach b uid tb tb' ->
  exists old added,
    tb' = old ++ added /\ Forall2 (kept b) tb old
    /\ Forall (fun r => owned_by uid r = true /\ (b = false -> isActive r = true)) added.
Proof.
  induction 1 as [| tb1 i now d x _ IH Hx Hi Ho Hd
                  | tb1 c now d _ IH Hc Hd
                  | tb1 r _ IH Hi Ho Ha].
  - exists tb, []. rewrite app_nil_r.
    split; [reflexivity|]. split; [| constructor].
    apply forall2_refl. intros x. split; [apply persists_refl | reflexivity].
  - destruct IH as (old & added & -> & Hold & Hadd).
    exists (update i d now old), (update i d now added).
    split; [unfold update; now rewrite map_app|]. split.
    + apply forall2_map_r; [| exact Hold]. intros a a' Hk.
      exact (kept_update_where b (fun r => id r =? i) d now a a' Hd Hk).
    + unfold update. apply Forall_map. eapply Forall_impl; [| exact Hadd].
      intros a [Hoa Haa]. destruct (id a =? i); [| auto].
      split; [exact Hoa|]. simpl. intros Hb.
      destruct Hd as [-> | [Hb' _]]; [simpl; auto | congruence].
  - destruct IH as (old & added & -> & Hold & Hadd).
    exists (updateMany c d now old), (updateMany c d now added).
    split; [unfold updateMany; now rewrite map_app|]. split.
    + apply forall2_map_r; [| exact Hold]. intros a a' Hk.
      exact (kept_update_where b c d now a a' (or_introl Hd) Hk).
    + unfold updateMany. apply Forall_map. eapply Forall_impl; [| exact Hadd].
      intros a [Hoa Haa]. destruct (c a); [| auto].
      split; [exact Hoa|]. simpl. rewrite Hd. simpl. auto.
  - destruct IH as (old & added & -> & Hold & Hadd).
    exists old, (added ++ [r]). unfold create.
    split; [now rewrite app_assoc|]. split; [exact Hold|].
    apply Forall_app. split; [exact Hadd | repeat constructor; auto].
Qed.

Lemma filter_map_fixed {A} (p : A -> bool) (g : A -> A) (l : list A) :
  (forall x, In x l -> p (g x) = p x) ->
  (forall x, In x l -> p x = true -> g x = x) ->
  filter p (map g l) = filter p l.
Proof.
  induction l as [|x l IH]; simpl; intros H1 H2; [reflexivity|].
  rewrite (H1 x (or_introl eq_refl)). destruct (p x) eqn:E.
  - rewrite (H2 x (or_introl eq_refl) E). f_equal. apply IH; auto.
  - apply IH; auto.
Qed.

(** What [reach] never touches: the rows of the other owners. *)
Lemma reach_others (b : bool) (uid : Id) (tb tb' : Table) :
  NoDup (map id tb) -> reach b uid tb tb' ->
  NoDup (map id tb')
  /\ filter (fun r => negb (owned_by uid r)) tb'
     = filter (fun r => negb (owned_by uid r)) tb.
Proof.
  intros Hnd. induction 1 as [| tb1 i now d x _ IH Hx Hi Ho Hd
                               | tb1 c now d _ IH Hc Hd
                               | tb1 r _ IH Hi Ho Ha].
  - auto.
  - destruct IH as [Hnd1 Hf]. split.
    + unfold update. now rewrite map_id_stable by apply stable_update_where.
    + rewrite <- Hf. unfold update. apply filter_map_fixed.
      * intros a _. destruct (id a =? i); reflexivity.
      * intros a Ha Hna. destruct (id a =? i) eqn:E; [| reflexivity].
        apply Nat.eqb_eq in E.
        assert (a = x) by (apply (id_injective tb1); auto; congruence).
        subst a. rewrite Ho in Hna. discriminate.
  - destruct IH as [Hnd1 Hf]. split.
    + unfold updateMany. now rewrite map_id_stable by apply stable_update_where.
    + rewrite <- Hf. unfold updateMany. apply filter_map_fixed.
      * intros a _. destruct (c a); reflexivity.
      * intros a _ Hna. destruct (c a) eqn:E; [| reflexivity].
        rewrite (Hc a E) in Hna. discriminate.
  - destruct IH as [Hnd1 Hf]. split.
    + unfold create. rewrite map_app. simpl. rewrite Hi.
      apply nodup_snoc; [exact Hnd1 | apply fresh_id_new].
    + unfold create. rewrite filter_app. simpl. rewrite Ho. simpl.
      now rewrite app_nil_r.
Qed.

(** *** Every owner keeps an active account *)

Lemma covered_without_deactivation (uid : Id) (tb tb' : Table) :
  reach false uid tb tb' -> owners_covered tb -> owners_covered tb'.
Proof.
  intros Hr Hc. destruct (reach_rows _ _ _ _ Hr) as (old & added & -> & Hold & Hadd).
  intros w r' Hr' Ho'. apply in_app_iff in Hr' as [Hr' | Hr'].
  - destruct (forall2_in_r _ _ _ _ Hold Hr') as (r & Hin & [(_ & Hu & _) _]).
    assert (Ho : owned_by w r = true) by (unfold owned_by in *; congruence).
    destruct (Hc w r Hin Ho) as (a & Ha & Hoa & Haa).
    destruct (forall2_in_l _ _ _ _ Hold Ha) as (a' & Ha' & [(_ & Hu' & _) Hact]).
    exists a'. split; [apply in_app_iff; now left|].
    split; [unfold owned_by in *; congruence|].
    rewrite (Hact eq_refl). exact Haa.
  - exists r'. split; [apply in_app_iff; now right|]. split; [exact Ho'|].
    rewrite Forall_forall in Hadd. now apply (Hadd r' Hr').
Qed.

Lemma two_distinct {A} (l : list A) :
  NoDup l -> 2 <= length l -> exists a b, In a l /\ In b l /\ a <> b.
Proof.
  destruct l as [|a [|b l]]; simpl; intros Hnd Hl; try lia.
  exists a, b. repeat split; auto.
  inversion Hnd as [|? ? Ha _]; subst. intros ->. apply Ha. now left.
Qed.

(** Deactivating the target when the owner does not have exactly one
    active account. *)
Lemma covered_after_deactivation (u i : Id) (g : t -> t) (tb : Table) (x : t) :
  NoDup (map id tb) -> owners_covered tb -> stable g ->
  (forall r, id r <> i -> isActive (g r) = isActive r) ->
  In x tb -> id x = i -> owned_by u x = true ->
  count (fun r => owned_by u r && isActive r) tb <> 1 ->
  owners_covered (map g tb).
Proof.
  intros Hnd Hc Hg Hact Hx Hi Ho Hcount w r' Hr' Ho'.
  apply in_map_iff in Hr' as [r [<- Hr]].
  rewrite owned_stable in Ho' by exact Hg.
  assert (Hsome : exists a, In a tb /\ owned_by w a = true /\ isActive a = true
                            /\ id a <> i).
  { destruct (Nat.eq_dec w u) as [-> | Hw].
    - destruct (Hc u x Hx Ho) as (a & Ha & Hoa & Haa).
      set (p := fun r => owned_by u r && isActive r) in *.
      assert (Hl : 2 <= length (filter p tb)).
      { assert (In a (filter p tb)).
        { apply filter_In. split; [exact Ha|]. unfold p. now rewrite Hoa, Haa. }
        unfold count in Hcount. destruct (filter p tb) as [|? [|? ?]]; simpl in *;
          try lia; contradiction. }
      destruct (two_distinct (filter p tb)) as (a1 & a2 & H1 & H2 & Hne);
        [apply NoDup_filter, nodup_rows, Hnd | exact Hl |].
      apply filter_In in H1 as [H1 P1], H2 as [H2 P2].
      unfold p in P1, P2. apply andb_true_iff in P1 as [O1 A1], P2 as [O2 A2].
      destruct (Nat.eq_dec (id a1) i) as [E1 | N1].
      + exists a2. repeat split; auto. intros E2. apply Hne.
        apply (id_injective tb); auto. congruence.
      + exists a1. repeat split; auto.
    - destruct (Hc w r Hr Ho') as (a & Ha & Hoa & Haa).
      exists a. repeat split; auto. intros E.
      assert (a = x) by (apply (id_injective tb); auto; congruence).
      subst a. unfold owned_by in *. apply Nat.eqb_eq in Hoa, Ho. congruence. }
  destruct Hsome as (a & Ha & Hoa & Haa & Hne).
  exists (g a). split; [now apply in_map|].
  split; [now rewrite owned_stable by exact Hg|].
  now rewrite Hact.
Qed.

Section Handlers.
Context {L : NodeCrypto}.
Variable env : Env.

Lemma in_updateMany (c : t -> bool) (d : Data) (now : nat) (tb : Table) (x : t) :
  In x tb -> In (if c x then apply_data d now x else x) (updateMany c d now tb).
Proof. intros Hx. apply in_map_iff. exists x. auto. Qed.

Lemma set_default_reach (user : User.t) (i now : nat) (tb : Table) :
  reach false (User.id user) tb (final (post_set_default user i now tb)).
Proof.
  unfold post_set_default. db_step.
  destruct (findFirst _ tb) as [x|] eqn:Ex; db_step; [| constructor].
  apply target_found with (uid := User.id user) (i := i) in Ex as (Hx & Hi & Ho).
  2:{ intros r Hr. now apply andb_true_iff in Hr as [Hr _]. }
  rewrite final_if_ret.
  unfold exec_transaction. cbn [run_writes w_updateMany].
  set (c := fun r => owned_by (User.id user) r && isDefault r).
  rewrite (w_update_found i now _ _ (if c x then apply_data (data_isDefault false) now x
                                     else x)).
  2:{ now apply in_updateMany. }
  2:{ destruct (c x); exact Hi. }
  cbn [final fst snd].
  apply reach_update with (x := if c x then apply_data (data_isDefault false) now x else x).
  - apply reach_updateMany; [constructor | | reflexivity].
    intros r Hr. unfold c in Hr. now apply andb_true_iff in Hr as [Hr _].
  - now apply in_updateMany.
  - destruct (c x); exact Hi.
  - destruct (c x); exact Ho.
  - now left.
Qed.

Lemma create_reach (user : User.t) (body : Body.t) (iv : list byte) (now : nat)
    (tb : Table) :
  reach false (User.id user) tb (final (post_configs env user body iv now tb)).
Proof.
  unfold post_configs.
  destruct (negb _ || _ || _ || _ || _); [constructor|].
  destruct (negb (valid_port _)); [constructor|].
  destruct (encryptPassword env iv _) as [enc|e]; [| constructor].
  db_step.
  destruct (truthy_bool (Body.isDefault body)) eqn:Edef; db_step.
  - rewrite !final_exec. cbn [w_updateMany w_create].
    apply reach_create; try reflexivity.
    + apply reach_updateMany; [constructor | | reflexivity].
      intros r Hr. now apply andb_true_iff in Hr as [Hr _].
    + unfold owned_by. apply Nat.eqb_refl.
  - rewrite !final_exec. cbn [w_create].
    apply reach_create; try reflexivity; [constructor|].
    unfold owned_by. apply Nat.eqb_refl.
Qed.

Lemma update_reach (user : User.t) (i : Id) (body : Body.t) (iv : list byte)
    (now : nat) (tb : Table) :
  reach false (User.id user) tb (final (put_config env user i body iv now tb)).
Proof.
  unfold put_config. db_step.
  destruct (findFirst _ tb) as [x|] eqn:Ex; db_step; [| constructor].
  apply target_found with (uid := User.id user) (i := i) in Ex as (Hx & Hi & Ho).
  2:{ auto. }
  match goal with |- context [if ?b then ret _ else _] => destruct b end;
    [constructor|].
  db_step.
  destruct (truthy_bool (Body.isDefault body)) eqn:Edef; db_step.
  - rewrite final_exec. cbn [w_updateMany].
    set (c := fun r => owned_by (User.id user) r && isDefault r && negb (id r =? i)).
    set (tb1 := updateMany c (data_isDefault false) now tb).
    assert (R1 : reach false (User.id user) tb tb1).
    { apply reach_updateMany; [constructor | | reflexivity].
      intros r Hr. unfold c in Hr.
      apply andb_true_iff in Hr as [Hr _]. now apply andb_true_iff in Hr as [Hr _]. }
    match goal with |- context [match ?o with Return _ => _ | Throw _ => _ end] =>
      destruct o as [newPassword|e] end.
    2:{ exact R1. }
    db_step. rewrite final_exec.
    rewrite (w_update_found i now _ tb1
               (if c x then apply_data (data_isDefault false) now x else x)).
    2:{ now apply in_updateMany. }
    2:{ destruct (c x); exact Hi. }
    answer.
    all: apply reach_update
           with (x := if c x then apply_data (data_isDefault false) now x else x);
      [exact R1 | now apply in_updateMany | destruct (c x); exact Hi
      | destruct (c x); exact Ho | now left].
  - match goal with |- context [match ?o with Return _ => _ | Throw _ => _ end] =>
      destruct o as [newPassword|e] end.
    2:{ constructor. }
    db_step. rewrite final_exec.
    rewrite (w_update_found i now _ tb x Hx Hi).
    answer.
    all: apply reach_update with (x := x);
      [constructor | exact Hx | exact Hi | exact Ho | now left].
Qed.

Lemma delete_reach (user : User.t) (i now : nat) (tb : Table) :
  reach true (User.id user) tb (final (delete_config user i now tb)).
Proof.
  unfold delete_config. db_step.
  destruct (findFirst _ tb) as [x|] eqn:Ex; db_step; [| constructor].
  apply target_found with (uid := User.id user) (i := i) in Ex as (Hx & Hi & Ho).
  2:{ auto. }
  destruct (count _ tb =? 1); db_step; [constructor|].
  destruct (isDefault x) eqn:Edef; db_step.
  - destruct (findFirst_createdAt_asc _ tb) as [next|] eqn:Enext; db_step.
    + assert (Hn : In next tb /\ owned_by (User.id user) next = true).
      { unfold findFirst_createdAt_asc in Enext.
        destruct (filter _ tb) as [|r rest] eqn:Ef; [discriminate|].
        injection Enext as <-.
        assert (Hall : forall y, In y (r :: rest) ->
                                 In y tb /\ owned_by (User.id user) y = true).
        { intros y Hy. rewrite <- Ef in Hy. apply filter_In in Hy as [Hy Hp].
          apply andb_true_iff in Hp as [Hp _]. apply andb_true_iff in Hp as [Hp _]. auto. }
        assert (Hin : In (oldest r rest) (r :: rest)).
        { clear. revert r. induction rest as [|y rest IH]; intros r; simpl; [auto|].
          destruct (createdAt y <? createdAt r).
          - destruct (IH y) as [<- | H]; auto.
          - destruct (IH r) as [<- | H]; auto. }
        now apply Hall. }
      destruct Hn as [Hn Hno].
      rewrite result_exec, final_exec.
      rewrite (w_update_found (id next) now _ tb next Hn eq_refl).
      cbn [negb]. db_step. rewrite final_exec.
      set (tb1 := update (id next) (data_isDefault true) now tb).
      assert (R1 : reach true (User.id user) tb tb1).
      { apply reach_update with (x := next);
          [constructor | exact Hn | reflexivity | exact Hno | now left]. }
      rewrite (w_update_found i now _ tb1
                 (if id x =? id next then apply_data (data_isDefault true) now x else x)).
      2:{ apply in_map_iff. exists x. auto. }
      2:{ destruct (id x =? id next); exact Hi. }
      answer.
      all: apply reach_update
             with (x := if id x =? id next then apply_data (data_isDefault true) now x
                        else x);
        [exact R1 | apply in_map_iff; exists x; now auto
        | destruct (id x =? id next); exact Hi
        | destruct (id x =? id next); exact Ho | right; now split].
    + cbn [negb]. db_step. rewrite final_exec.
      rewrite (w_update_found i now _ tb x Hx Hi).
      answer.
      all: apply reach_update with (x := x);
      [constructor | exact Hx | exact Hi | exact Ho | right; now split].
  - cbn [negb]. db_step. rewrite final_exec.
    rewrite (w_update_found i now _ tb x Hx Hi).
    answer.
    all: apply reach_update with (x := x);
      [constructor | exact Hx | exact Hi | exact Ho | right; now split].
Qed.

Lemma reach_deactivating (uid : Id) (tb tb' : Table) :
  reach false uid tb tb' -> reach true uid tb tb'.
Proof.
  induction 1.
  - constructor.
  - eapply reach_update; eauto. destruct H3 as [-> | [? _]]; [now left | discriminate].
  - now apply reach_updateMany.
  - now apply reach_create.
Qed.

Lemma handle_reach (op : Op) (now : nat) (tb : Table) :
  reach (is_deactivate op) (User.id (actor op)) tb (final (handle env op now tb)).
Proof.
  destruct op; simpl.
  - apply create_reach.
  - apply update_reach.
  - apply set_default_reach.
  - apply delete_reach.
Qed.

(** X2.  A request of one owner leaves the accounts of every other owner
    as they are, whatever the request is and whether it succeeds. *)
Theorem other_owners_untouched (op : Op) (now : nat) (tb : Table) :
  NoDup (map id tb) ->
  filter (fun r => negb (owned_by (User.id (actor op)) r)) (final (handle env op now tb))
  = filter (fun r => negb (owned_by (User.id (actor op)) r)) tb.
Proof.
  intros Hnd. exact (proj2 (reach_others _ _ _ _ Hnd (handle_reach op now tb))).
Qed.

(** X3.  No history of requests removes a row, changes its key, owner or
    creation time, or makes a deactivated account active again: the table
    after the history is the rows of the table before it, each in a later
    state, followed by the rows created since. *)
Theorem rows_persist (ops : list (nat * Op)) :
  forall (clock : nat) (tb : Table),
  exists old added,
    run env ops clock tb = old ++ added /\ Forall2 persists tb old.
Proof.
  induction ops as [|[elapsed op] ops IH]; intros clock tb; simpl.
  - exists tb, []. rewrite app_nil_r. split; [reflexivity|].
    apply forall2_refl, persists_refl.
  - destruct (reach_rows _ _ _ _ (handle_reach op (clock + elapsed) tb))
      as (old1 & added1 & E1 & H1 & _).
    destruct (IH (clock + elapsed) (final (handle env op (clock + elapsed) tb)))
      as (old2 & added2 & E2 & H2).
    rewrite E1 in H2. apply Forall2_app_inv_l in H2 as (o2 & a2 & Ho2 & _ & ->).
    exists o2, (a2 ++ added2). split; [now rewrite E2, app_assoc|].
    apply (forall2_trans persists tb old1 o2 persists_trans); [| exact Ho2].
    eapply Forall2_impl; [| exact H1]. intros a b [Hp _]. exact Hp.
Qed.

Lemma covered_delete (user : User.t) (i now : nat) (tb : Table) :
  NoDup (map id tb) -> owners_covered tb ->
  owners_covered (final (delete_config user i now tb)).
Proof.
  intros Hnd Hc. unfold delete_config. db_step.
  destruct (findFirst _ tb) as [x|] eqn:Ex; db_step; [| exact Hc].
  apply target_found with (uid := User.id user) (i := i) in Ex as (Hx & Hi & Ho).
  2:{ auto. }
  destruct (count _ tb =? 1) eqn:Ecount; db_step; [exact Hc|].
  apply Nat.eqb_neq in Ecount.
  assert (Hlast : owners_covered (update i (data_isActive false) now tb)).
  { apply (covered_after_deactivation (User.id user) i _ tb x); auto.
    - apply stable_update_where.
    - intros r Hr. apply Nat.eqb_neq in Hr. now rewrite Hr. }
  destruct (isDefault x) eqn:Edef; db_step.
  - destruct (findFirst_createdAt_asc _ tb) as [next|] eqn:Enext; db_step.
    + rewrite result_exec, final_exec.
      destruct (w_update (id next) (data_isDefault true) now tb) as [tb1|] eqn:Ew;
        cbn [negb]; db_step; [| exact Hc].
      unfold w_update in Ew. destruct (existsb _ tb); [| discriminate].
      injection Ew as <-.
      rewrite final_exec.
      set (tb1 := update (id next) (data_isDefault true) now tb).
      rewrite (w_update_found i now _ tb1
                 (if id x =? id next then apply_data (data_isDefault true) now x else x)).
      2:{ apply in_map_iff. exists x. auto. }
      2:{ destruct (id x =? id next); exact Hi. }
      answer.
      all: unfold tb1, update; rewrite map_map.
      all: apply (covered_after_deactivation (User.id user) i _ tb x); auto.
      all: try (intros r; destruct (id r =? id next); simpl;
                destruct (id r =? i); simpl; now auto).
      all: intros r Hr; apply Nat.eqb_neq in Hr.
      all: destruct (id r =? id next); simpl; rewrite Hr; reflexivity.
    + cbn [negb]. db_step. rewrite final_exec.
      rewrite (w_update_found i now _ tb x Hx Hi).
      answer; exact Hlast.
  - cbn [negb]. db_step. rewrite final_exec.
    rewrite (w_update_found i now _ tb x Hx Hi).
    answer; exact Hlast.
Qed.

Lemma handle_covered (op : Op) (now : nat) (tb : Table) :
  NoDup (map id tb) -> owners_covered tb -> owners_covered (final (handle env op now tb)).
Proof.
  intros Hnd Hc. destruct op as [user body iv | user i body iv | user i | user i].
  - exact (covered_without_deactivation _ _ _
             (handle_reach (Create user body iv) now tb) Hc).
  - exact (covered_without_deactivation _ _ _
             (handle_reach (Update user i body iv) now tb) Hc).
  - exact (covered_without_deactivation _ _ _
             (handle_reach (SetDefault user i) now tb) Hc).
  - now apply covered_delete.
Qed.

Lemma run_covered (ops : list (nat * Op)) :
  forall clock tb, consistent clock tb -> owners_covered tb ->
  owners_covered (run env ops clock tb).
Proof.
  induction ops as [|[elapsed op] ops IH]; intros clock tb Hcons Hc; simpl; [exact Hc|].
  assert (Hcons' : consistent (clock + elapsed) tb).
  { destruct Hcons as [Hwf Hsd]. split; [| exact Hsd].
    apply (wf_later clock); [lia | exact Hwf]. }
  apply (IH (clock + elapsed)).
  - now apply handle_consistent.
  - apply handle_covered; [| exact Hc]. apply Hcons'.
Qed.

(** X4.  After any history of requests on an empty table, every owner
    who has an account has an active one: the last active account of an
    owner is never deactivated. *)
Theorem owner_keeps_active_account (ops : list (nat * Op)) (uid : Id) (r : SmtpConfig.t) :
  In r (run env ops 0 []) -> owned_by uid r = true ->
  exists a, In a (run env ops 0 []) /\ owned_by uid a = true /\ isActive a = true.
Proof.
  apply (run_covered ops 0 [] consistent_empty). intros w x [].
Qed.

End Handlers.

Lemma owner_keeps_active_account_witness :
  exists a,
    In a (run (L := Toy.toy_crypto) Toy.env0
            [(1, Create Examples.alice Examples.plain_account Toy.iv0);
             (1, Deactivate Examples.alice 1)] 0 [])
    /\ owned_by 1 a = true /\ isActive a = true.
Proof.
  eapply (owner_keeps_active_account (L := Toy.toy_crypto) Toy.env0
            [(1, Create Examples.alice Examples.plain_account Toy.iv0);
             (1, Deactivate Examples.alice 1)] 1).
  - vm_compute. left. reflexivity.
  - reflexivity.
Defined.

Lemma other_owners_untouched_witness :
  filter (fun r => negb (owned_by 1 r))
    (final (handle (L := Toy.toy_crypto) Toy.env0 (SetDefault Examples.alice 11) 9
              Examples2.shared_table))
  = [Examples2.bob_account 30 true true 2].
Proof.
  refine (other_owners_untouched (L := Toy.toy_crypto) Toy.env0
            (SetDefault Examples.alice 11) 9 Examples2.shared_table _).
  repeat constructor; simpl; intuition discriminate.
Defined.

End EvolutionFacts.

(* ================================================================= *)
(** ** What each registry request does *)

Module RequestFacts.
Import SmtpConfig Invariant Evolution ListFacts InvariantFacts Envelope HexFacts VaultFacts.

Lemma find_absent {A} (p : A -> bool) (l : list A) :
  (forall x, In x l -> p x = false) -> find p l = None.
Proof.
  induction l as [|x l IH]; simpl; intros H; [reflexivity|].
  rewrite (H x (or_introl eq_refl)). apply IH. auto.
Qed.

Lemma find_key (i : Id) (tb : Table) (r : t) :
  NoDup (map id tb) -> In r tb -> id r = i ->
  findFirst (fun x => id x =? i) tb = Some r.
Proof.
  intros Hnd Hin Hi. unfold findFirst.
  destruct (find (fun x => id x =? i) tb) as [y|] eqn:E.
  - apply find_in in E as [Hy Ey]. apply Nat.eqb_eq in Ey.
    f_equal. apply (id_injective tb); auto. congruence.
  - pose proof (find_none _ _ E r Hin) as H. cbv beta in H.
    rewrite Hi, Nat.eqb_refl in H. discriminate.
Qed.

Lemma not_owner (uid i : Id) (tb : Table) (q : t -> bool) :
  (forall r, In r tb -> id r = i -> userId r <> uid) ->
  findFirst (fun r => (id r =? i) && owned_by uid r && q r) tb = None.
Proof.
  intros H. apply find_absent. intros r Hr.
  destruct (id r =? i) eqn:Ei; [| reflexivity].
  apply Nat.eqb_eq in Ei. specialize (H r Hr Ei).
  unfold owned_by. apply Nat.eqb_neq in H. now rewrite H.
Qed.

Section Handlers.
Context {L : NodeCrypto}.
Variable env : Env.

(** X5.  An id that is not the key of an account of the caller is
    answered 404 by the read, update, set-default and delete requests, and
    nothing is written: what another owner has cannot be read or changed
    by its id. *)
Theorem foreign_id_not_found (user : User.t) (i : Id) (body : Body.t)
    (iv : list byte) (now : nat) (tb : Table) :
  (forall r, In r tb -> id r = i -> userId r <> User.id user) ->
  get_config user i tb = (Failure 404 "SMTP configuration not found", tb, [])
  /\ put_config env user i body iv now tb
     = (Failure 404 "SMTP configuration not found", tb, [])
  /\ post_set_default user i now tb
     = (Failure 404 "SMTP configuration not found", tb, [])
  /\ delete_config user i now tb
     = (Failure 404 "SMTP configuration not found", tb, []).
Proof.
  intros H.
  pose proof (not_owner (User.id user) i tb (fun _ => true) H) as H1.
  pose proof (not_owner (User.id user) i tb isActive H) as H2.
  assert (H1' : findFirst (fun r => (id r =? i) && owned_by (User.id user) r) tb = None).
  { rewrite <- H1. apply find_ext_in. intros x _. now rewrite andb_true_r. }
  unfold get_config, put_config, post_set_default, delete_config, Prisma.bind, query.
  rewrite H1', H2. auto.
Qed.



Lemma fresh_id_updateMany (c : t -> bool) (d : Data) (now : nat) (tb : Table) :
  fresh_id (updateMany c d now tb) = fresh_id tb.
Proof.
  unfold fresh_id, updateMany. now rewrite map_id_stable by apply stable_update_where.
Qed.

(** X8.  A valid registration is answered 201 with the new account, which
    is appended with a key no other row has, the caller as owner and
    [isActive] set; the flags of the caller's other accounts are cleared
    first when it asks to be the default.  The stored secret is an
    envelope that decrypts to the submitted password and is not the
    password. *)
Theorem create_stores_account {HL : NodeCryptoLaws L} (user : User.t) (body : Body.t)
    (iv : list byte) (now : nat) (tb : Table) (p : Z) :
  length iv = 16 ->
  truthy_str (Body.name body) = true -> truthy_str (Body.host body) = true ->
  truthy_str (Body.username body) = true -> truthy_str (Body.password body) = true ->
  Utf8.well_formed (text (Body.password body)) = true ->
  Body.port body = Some p -> (1 <= p <= 65535)%Z ->
  exists (r : SmtpConfig.t) (v : ConfigView),
    result (post_configs env user body iv now tb) = Config 201 v
    /\ Listing.shows v r
    /\ final (post_configs env user body iv now tb)
       = (if truthy_bool (Body.isDefault body)
          then updateMany (fun x => owned_by (User.id user) x && isDefault x)
                 (data_isDefault false) now tb
          else tb) ++ [r]
    /\ ~ In (id r) (map id tb)
    /\ userId r = User.id user /\ isActive r = true
    /\ isDefault r = truthy_bool (Body.isDefault body)
    /\ createdAt r = now /\ port r = p
    /\ fromName r = or_default (Body.fromName body) (User.name user)
    /\ decryptPassword env (passwordEncrypted r) = Return (text (Body.password body))
    /\ passwordEncrypted r <> text (Body.password body).
Proof.
  intros Hiv Hn Hh Hu Hpw Hwf Hp Hrange.
  destruct (VaultExtra.encrypt_envelope_shape_aux env iv (text (Body.password body))
              Hiv Hwf) as (e & He & Hdec & Hne).
  unfold post_configs. rewrite Hn, Hh, Hu, Hpw, Hp. simpl negb.
  replace (truthy_num (Some p)) with true
    by (symmetry; simpl; apply negb_true_iff, Z.eqb_neq; lia).
  cbn [negb orb assign].
  replace (valid_port p) with true
    by (symmetry; unfold valid_port; apply andb_true_iff; split; apply Z.leb_le; lia).
  cbn [negb]. rewrite He.
  destruct (truthy_bool (Body.isDefault body)) eqn:Edef.
  - eexists. eexists. split; [reflexivity|]. split; cycle 1.
    + split; [reflexivity|].
      cbn. rewrite fresh_id_updateMany.
      repeat split; auto. apply fresh_id_new.
    + unfold Listing.shows; cbn; repeat split; reflexivity.
  - eexists. eexists. split; [reflexivity|]. split; cycle 1.
    + split; [reflexivity|].
      cbn. repeat split; auto. apply fresh_id_new.
    + unfold Listing.shows; cbn; repeat split; reflexivity.
Qed.

(** The row an update writes to is found again under its key. *)
Lemma find_updated (i now : nat) (d : Data) (tb : Table) (x : t) :
  NoDup (map id tb) -> In x tb -> id x = i ->
  findFirst (fun r => id r =? i) (update i d now tb) = Some (apply_data d now x).
Proof.
  intros Hnd Hx Hi. apply find_key.
  - unfold update. rewrite map_id_stable; [exact Hnd|].
    apply (stable_update_where (fun r => id r =? i)).
  - unfold update. apply in_map_iff. exists x. split; [| exact Hx].
    now rewrite Hi, Nat.eqb_refl.
  - exact Hi.
Qed.

(** X12.  An update of an account of the caller is answered 200 with the
    row as stored.  The key, the owner, the creation time and the
    activity flag are kept; a name that is given and not empty replaces
    the stored one; the stored secret is kept when no password is given,
    and is otherwise a new envelope that decrypts to the password and is
    not the password. *)
Theorem update_keeps_or_replaces (user : User.t) (i : Id) (body : Body.t)
    {HL : NodeCryptoLaws L} (iv : list byte) (now : nat) (tb : Table) (x : t) :
  NoDup (map id tb) -> In x tb -> id x = i -> userId x = User.id user ->
  length iv = 16 ->
  (forall p, Body.port body = Some p -> p = 0%Z \/ (1 <= p <= 65535)%Z) ->
  (truthy_str (Body.password body) = true ->
   Utf8.well_formed (text (Body.password body)) = true) ->
  exists (x' : t) (v : ConfigView),
    result (put_config env user i body iv now tb) = Config 200 v
    /\ Listing.shows v x'
    /\ In x' (final (put_config env user i body iv now tb))
    /\ id x' = i /\ userId x' = userId x /\ isActive x' = isActive x
    /\ createdAt x' = createdAt x /\ updatedAt x' = now
    /\ name x' = (if truthy_str (Body.name body) then text (Body.name body) else name x)
    /\ (truthy_str (Body.password body) = false ->
        passwordEncrypted x' = passwordEncrypted x)
    /\ (truthy_str (Body.password body) = true ->
        decryptPassword env (passwordEncrypted x') = Return (text (Body.password body))
        /\ passwordEncrypted x' <> text (Body.password body)).
Proof.
  intros Hnd Hx Hi Hu Hiv Hport Hwf.
  set (c := fun r => owned_by (User.id user) r && isDefault r && negb (id r =? i)).
  assert (Hcx : c x = false).
  { unfold c. now rewrite Hi, Nat.eqb_refl, andb_false_r. }
  set (tb1 := if truthy_bool (Body.isDefault body)
              then updateMany c (data_isDefault false) now tb else tb).
  assert (Hnd1 : NoDup (map id tb1)).
  { unfold tb1. destruct (truthy_bool (Body.isDefault body)); [| exact Hnd].
    unfold updateMany. rewrite map_id_stable; [exact Hnd|]. apply stable_update_where. }
  assert (Hx1 : In x tb1).
  { unfold tb1. destruct (truthy_bool (Body.isDefault body)); [| exact Hx].
    unfold updateMany. apply in_map_iff. exists x. now rewrite Hcx. }
  assert (Hnew : exists newPassword : option string,
             (if truthy_str (Body.password body)
              then (e <- encryptPassword env iv (text (Body.password body)) ;;
                    Return (Some e))%outcome
              else Return None) = Return newPassword
             /\ (truthy_str (Body.password body) = false -> newPassword = None)
             /\ (truthy_str (Body.password body) = true ->
                 exists e, newPassword = Some e
                           /\ decryptPassword env e = Return (text (Body.password body))
                           /\ e <> text (Body.password body))).
  { destruct (truthy_str (Body.password body)) eqn:Epw.
    - destruct (VaultExtra.encrypt_envelope_shape_aux env iv
                  (text (Body.password body)) Hiv (Hwf eq_refl)) as (e & He & Hd & Hne).
      exists (Some e). rewrite He. split; [reflexivity|].
      split; [discriminate|]. intros _. now exists e.
    - exists None. split; [reflexivity|]. split; [reflexivity | discriminate]. }
  destruct Hnew as (newPassword & Hnew & Hnone & Hsome).
  set (portNum := if truthy_num (Body.port body) then Body.port body else None).
  assert (Hvalid : match portNum with Some p => negb (valid_port p) | None => false end
                   = false).
  { unfold portNum. destruct (Body.port body) as [p|] eqn:Ep; [| reflexivity].
    cbn [truthy_num]. destruct (Hport p eq_refl) as [-> | Hr]; [reflexivity|].
    replace (p =? 0)%Z with false by (symmetry; apply Z.eqb_neq; lia).
    cbn [negb]. apply negb_false_iff. unfold valid_port.
    apply andb_true_iff. split; apply Z.leb_le; lia. }
  set (d := mkData (keep_truthy (Body.name body)) (keep_truthy (Body.host body))
              portNum (Body.secure body) (keep_truthy (Body.username body))
              newPassword (Body.fromName body) (Body.signature body)
              (Body.isDefault body) None).
  assert (Hrun : put_config env user i body iv now tb
                 = (Config 200 (select_view (apply_data d now x)),
                    update i d now tb1,
                    (if truthy_bool (Body.isDefault body) then [tb1] else [])
                      ++ [update i d now tb1])).
  { unfold put_config, Prisma.bind, query.
    rewrite (ListingFacts.find_by_id (User.id user) i tb x Hnd Hx Hi Hu).
    fold portNum. rewrite Hvalid. fold c.
    assert (Hfirst : (if truthy_bool (Body.isDefault body)
                      then exec (w_updateMany c (data_isDefault false) now)
                      else ret true) tb
                     = (true, tb1,
                        if truthy_bool (Body.isDefault body) then [tb1] else [])).
    { unfold tb1. destruct (truthy_bool (Body.isDefault body)); reflexivity. }
    rewrite Hfirst, Hnew. fold d.
    unfold exec. rewrite (w_update_found i now d tb1 x Hx1 Hi).
    rewrite (find_updated i now d tb1 x Hnd1 Hx1 Hi).
    unfold ret. destruct (truthy_bool (Body.isDefault body)); reflexivity. }
  exists (apply_data d now x), (select_view (apply_data d now x)).
  rewrite Hrun. unfold result, final. cbn [fst snd].
  split; [reflexivity|].
  split; [unfold Listing.shows; cbn; repeat split; reflexivity|]. split.
  { unfold update. apply in_map_iff. exists x. split; [| exact Hx1].
    now rewrite Hi, Nat.eqb_refl. }
  cbn [apply_data id userId isActive createdAt updatedAt name passwordEncrypted
       d_name d_isActive d_passwordEncrypted d assign].
  repeat split; auto.
  - unfold d. cbn [d_name]. unfold keep_truthy, text.
    destruct (truthy_str (Body.name body)) eqn:En; [| reflexivity].
    destruct (Body.name body); [reflexivity | discriminate].
  - intros Hpw. unfold d. cbn [d_passwordEncrypted]. now rewrite (Hnone Hpw).
  - destruct (Hsome H) as (e & -> & Hd & _). exact Hd.
  - destruct (Hsome H) as (e & -> & _ & Hne). exact Hne.
Qed.

End Handlers.

(** X11.  Making an active account of the caller the default is one
    commit: in the table it leaves, the caller's accounts flagged as
    default are exactly those with the key of the target, the keys are
    the same as before, and no other state is visible on the way. *)
Theorem set_default_exact (user : User.t) (i now : nat) (tb : Table) (x : t) :
  In x tb -> id x = i -> userId x = User.id user -> isActive x = true ->
  exists tb' : Table,
    post_set_default user i now tb
    = (Message "Default SMTP configuration updated", tb', [tb'])
    /\ map id tb' = map id tb
    /\ (forall r, In r tb' -> owned_by (User.id user) r = true ->
        (isDefault r = true <-> id r = i))
    /\ (exists r, In r tb' /\ id r = i /\ owned_by (User.id user) r = true
                  /\ isActive r = true /\ isDefault r = true).
Proof.
  intros Hx Hi Hu Ha.
  set (c := fun r => owned_by (User.id user) r && isDefault r).
  set (g := fun r => if id r =? i then apply_data (data_isDefault true) now r else r).
  set (h := fun r => if c r then apply_data (data_isDefault false) now r else r).
  exists (map g (map h tb)).
  assert (Hh : stable h) by apply stable_update_where.
  assert (Hg : stable g) by apply (stable_update_where (fun r => id r =? i)).
  assert (Hfind : findFirst (fun r => (id r =? i) && owned_by (User.id user) r
                                      && isActive r) tb <> None).
  { unfold findFirst. intros E. pose proof (find_none _ _ E x Hx) as H.
    cbv beta in H. unfold owned_by in H.
    now rewrite Hi, Hu, Ha, !Nat.eqb_refl in H. }
  split.
  - unfold post_set_default, Prisma.bind, query.
    destruct (findFirst _ tb) as [y|]; [| now contradiction Hfind].
    unfold exec_transaction, run_writes, w_updateMany.
    fold c.
    rewrite (w_update_found i now (data_isDefault true)
               (updateMany c (data_isDefault false) now tb) (h x)).
    + reflexivity.
    + unfold updateMany. now apply in_map.
    + now rewrite (proj1 (Hh x)).
  - split; [| split].
    + now rewrite !map_id_stable.
    + intros r Hr Ho.
      apply in_map_iff in Hr as [r1 [<- Hr1]].
      apply in_map_iff in Hr1 as [r0 [<- Hr0]].
      assert (Ho0 : owned_by (User.id user) r0 = true).
      { unfold owned_by in *. now rewrite (proj1 (proj2 (Hg (h r0)))),
          (proj1 (proj2 (Hh r0))) in Ho. }
      rewrite (proj1 (Hg (h r0))), (proj1 (Hh r0)). unfold g.
      rewrite (proj1 (Hh r0)).
      destruct (id r0 =? i) eqn:Ei.
      * apply Nat.eqb_eq in Ei. split; [now intros _ | reflexivity].
      * apply Nat.eqb_neq in Ei. unfold h, c. rewrite Ho0. cbn [andb].
        destruct (isDefault r0) eqn:Ed; cbn; rewrite ?Ed; split;
          intros H; solve [discriminate | contradiction].
    + exists (g (h x)). split; [now apply in_map, in_map|].
      assert (Eg : g (h x) = apply_data (data_isDefault true) now (h x)).
      { unfold g. now rewrite (proj1 (Hh x)), Hi, Nat.eqb_refl. }
      rewrite Eg. cbn.
      rewrite (proj1 (Hh x)). unfold owned_by. rewrite (proj1 (proj2 (Hh x))).
      repeat split; auto; [now apply Nat.eqb_eq|].
      unfold h. destruct (c x); cbn; exact Ha.
Qed.

Lemma update_keeps_or_replaces_witness :
  exists (x' : t) (v : ConfigView),
    result (put_config (L := Toy.toy_crypto) Toy.env0 Examples.alice 10
              Examples.plain_account Toy.iv0 5 Examples.two_accounts)
    = Config 200 v
    /\ Listing.shows v x'
    /\ In x' (final (put_config (L := Toy.toy_crypto) Toy.env0 Examples.alice 10
                       Examples.plain_account Toy.iv0 5 Examples.two_accounts))
    /\ id x' = 10 /\ userId x' = 1 /\ isActive x' = true
    /\ createdAt x' = 1 /\ updatedAt x' = 5
    /\ name x' = "Work"
    /\ (true = false -> passwordEncrypted x' = "00:00")
    /\ (true = true ->
        decryptPassword (L := Toy.toy_crypto) Toy.env0 (passwordEncrypted x')
        = Return "hunter2"
        /\ passwordEncrypted x' <> "hunter2").
Proof.
  refine (update_keeps_or_replaces (L := Toy.toy_crypto) Toy.env0 Examples.alice 10
            Examples.plain_account (HL := toy_laws) Toy.iv0 5 Examples.two_accounts
            (Examples.account 10 "A" true true 1) _ _ _ _ _ _ _).
  - repeat constructor; simpl; intuition discriminate.
  - left. reflexivity.
  - reflexivity.
  - reflexivity.
  - reflexivity.
  - intros p H. injection H as <-. right. lia.
  - intros _. reflexivity.
Defined.

Lemma set_default_exact_witness :
  exists tb' : Table,
    post_set_default Examples.alice 11 5 Examples.two_accounts
    = (Message "Default SMTP configuration updated", tb', [tb'])
    /\ map id tb' = [10; 11]
    /\ (forall r, In r tb' -> owned_by 1 r = true -> (isDefault r = true <-> id r = 11))
    /\ (exists r, In r tb' /\ id r = 11 /\ owned_by 1 r = true
                  /\ isActive r = true /\ isDefault r = true).
Proof.
  apply (set_default_exact Examples.alice 11 5 Examples.two_accounts
           (Examples.account 11 "B" false true 2)).
  - right. left. reflexivity.
  - reflexivity.
  - reflexivity.
  - reflexivity.
Defined.

Lemma foreign_id_not_found_witness :
  get_config Examples.alice 30 Examples2.shared_table
  = (Failure 404 "SMTP configuration not found", Examples2.shared_table, [])
  /\ put_config (L := Toy.toy_crypto) Toy.env0 Examples.alice 30 Examples.plain_account
       Toy.iv0 5 Examples2.shared_table
     = (Failure 404 "SMTP configuration not found", Examples2.shared_table, [])
  /\ post_set_default Examples.alice 30 5 Examples2.shared_table
     = (Failure 404 "SMTP configuration not found", Examples2.shared_table, [])
  /\ delete_config Examples.alice 30 5 Examples2.shared_table
     = (Failure 404 "SMTP configuration not found", Examples2.shared_table, []).
Proof.
  apply (foreign_id_not_found (L := Toy.toy_crypto) Toy.env0 Examples.alice 30
           Examples.plain_account Toy.iv0 5 Examples2.shared_table).
  intros r [<- | [<- | [<- | []]]] Hi; simpl in *; discriminate.
Defined.



Lemma create_stores_account_witness :
  exists (r : SmtpConfig.t) (v : ConfigView),
    result (post_configs (L := Toy.toy_crypto) Toy.env0 Examples.alice
              Examples.plain_account Toy.iv0 5 Examples.one_active)
    = Config 201 v
    /\ Listing.shows v r
    /\ final (post_configs (L := Toy.toy_crypto) Toy.env0 Examples.alice
                Examples.plain_account Toy.iv0 5 Examples.one_active)
       = Examples.one_active ++ [r]
    /\ ~ In (id r) (map id Examples.one_active)
    /\ userId r = 1 /\ isActive r = true
    /\ isDefault r = false
    /\ createdAt r = 5 /\ port r = 587%Z
    /\ fromName r = "Alice"
    /\ decryptPassword (L := Toy.toy_crypto) Toy.env0 (passwordEncrypted r)
       = Return "hunter2"
    /\ passwordEncrypted r <> "hunter2".
Proof.
  refine (create_stores_account (L := Toy.toy_crypto) Toy.env0 (HL := toy_laws)
            Examples.alice Examples.plain_account Toy.iv0 5 Examples.one_active 587%Z
            _ _ _ _ _ _ _ _); try reflexivity.
  lia.
Defined.

End RequestFacts.

(* ================================================================= *)
(** ** The authentication middleware *)

Module AuthFacts.
Import Auth.

Section Middleware.
Variable verifyToken : string -> Outcome Payload.

(** X9.  The middleware lets a request through only with a token that
    the header carries after a space, that is not empty and that the
    verifier accepts, and only as the user the table holds under the id
    of the token.  Every other request is answered 401 or 403. *)
Theorem authenticate_sound (users : list User.t) (authorization : option string) :
  (forall user,
      authenticateToken verifyToken users authorization = Next user ->
      exists header token payload,
        authorization = Some header
        /\ nth_error (split " " header) 1 = Some token
        /\ token <> EmptyString
        /\ verifyToken token = Return payload
        /\ p_userId payload = Some (User.id user)
        /\ In user users)
  /\ (forall status error,
        authenticateToken verifyToken users authorization = Reject status error ->
        status = 401 \/ status = 403).
Proof.
  unfold authenticateToken. split.
  - intros user H.
    destruct authorization as [header|]; [| discriminate].
    destruct (header_token (Some header)) as [token|] eqn:Et; [| discriminate].
    destruct token as [|c token]; [discriminate|].
    cbn [truthy_str negb Routes.text Prisma.assign] in H.
    destruct (verifyToken (String c token)) as [payload|e] eqn:Ev; [| discriminate].
    cbn [Js.bind] in H. unfold findUser in H.
    destruct (p_userId payload) as [i|] eqn:Ei; [| discriminate].
    destruct (find (fun u => User.id u =? i) users) as [u|] eqn:Ef; [| discriminate].
    injection H as ->. apply find_some in Ef as [Hin Hid]. apply Nat.eqb_eq in Hid.
    exists header, (String c token), payload.
    repeat split; auto; try discriminate; [| congruence].
    destruct header; [discriminate | exact Et].
  - intros status error H.
    destruct (negb (truthy_str (header_token authorization)));
      [injection H as <- _; now left|].
    destruct (decoded <- verifyToken (Routes.text (header_token authorization)) ;;
              findUser users (p_userId decoded))%outcome as [[u|]|e];
      [discriminate | injection H as <- _; now left | injection H as <- _; now right].
Qed.

(** X10.  The admin routes let a request through only as a user whose
    row holds the role [ADMIN] when the second middleware reads it: a
    token issued to an administrator does not outlive the role. *)
Theorem admin_guard_sound (users users' : list User.t) (authorization : option string)
    (user : User.t) :
  admin_guard verifyToken users users' authorization = Next user ->
  authenticateToken verifyToken users authorization = Next user
  /\ exists row, In row users' /\ User.id row = User.id user
                 /\ User.role row = "ADMIN".
Proof.
  unfold admin_guard.
  destruct (authenticateToken verifyToken users authorization) as [u|st err];
    [| discriminate].
  unfold requireAdmin.
  destruct (find (fun x => User.id x =? User.id u) users') as [row|] eqn:Ef;
    [| discriminate].
  destruct (String.eqb (User.role row) "ADMIN") eqn:Er; [| discriminate].
  intros H. injection H as ->. split; [reflexivity|].
  apply find_some in Ef as [Hin Hid]. apply Nat.eqb_eq in Hid.
  apply String.eqb_eq in Er. now exists row.
Qed.

End Middleware.

Lemma authenticate_sound_witness :
  authenticateToken Examples2.verify_two [Examples.alice; Examples2.bob]
    (Some "Bearer token-of-bob") = Next Examples2.bob
  /\ exists header token payload,
       Some "Bearer token-of-bob" = Some header
       /\ nth_error (split " " header) 1 = Some token
       /\ token <> EmptyString
       /\ Examples2.verify_two token = Return payload
       /\ p_userId payload = Some 2
       /\ In Examples2.bob [Examples.alice; Examples2.bob].
Proof.
  split; [reflexivity|].
  apply (proj1 (authenticate_sound Examples2.verify_two [Examples.alice; Examples2.bob]
                  (Some "Bearer token-of-bob")) Examples2.bob).
  reflexivity.
Defined.

Lemma admin_guard_sound_witness :
  admin_guard Examples2.verify_two [Examples.alice; Examples2.bob]
    [Examples.alice; Examples2.bob] (Some "Bearer token-of-bob") = Next Examples2.bob
  /\ admin_guard Examples2.verify_two [Examples.alice; Examples2.bob]
       [Examples.alice; Examples2.bob_demoted] (Some "Bearer token-of-bob")
     = Reject 403 "Admin access required"
  /\ (authenticateToken Examples2.verify_two [Examples.alice; Examples2.bob]
        (Some "Bearer token-of-bob") = Next Examples2.bob
      /\ exists row, In row [Examples.alice; Examples2.bob]
                     /\ User.id row = 2 /\ User.role row = "ADMIN").
Proof.
  split; [reflexivity|]. split; [reflexivity|].
  apply (admin_guard_sound Examples2.verify_two [Examples.alice; Examples2.bob]
           [Examples.alice; Examples2.bob] (Some "Bearer token-of-bob") Examples2.bob).
  reflexivity.
Defined.

End AuthFacts.
